(** * Assamese-to-English PDF translator: a shallow embedding of the server

    The development follows [server/routes.ts] (the Mistral-OCR revision that
    is served today) and the Tesseract revision of the same file that is kept
    in [replit.md] (variant selection and line reconstruction), and proves the
    properties the specification states about them. It then goes on to the
    rest of the two revisions: the requests sent for translation, the ways a
    job ends, the job cache, the markdown clean-up, the overlay, the boxes of
    the reconstructed lines, the life of the OCR worker, and the page
    navigation of the client's preview.

    Conventions of the embedding:
    - a JavaScript string is the list of its UTF-16 code units ([list N]);
    - a JavaScript number is a rational ([Q]); the arithmetic of the overlay
      (the cursor that steps down the page, the width left between the
      margins) is rounded to binary64 after every operation, as the code's
      is ([binary64]); the arithmetic of the line reconstructor (differences,
      comparisons against constants, a mean) is read exactly;
    - a call that can throw returns a [Completion]: the value returned or the
      error thrown; this includes the font of the PDF library, which throws
      on a text it cannot encode, when it measures and when it draws;
    - [Array.prototype.sort] is the stable sort of ECMAScript 2019;
    - the outside world (OCR engine, translation endpoint, PDF library, clock
      and timers) appears as explicit inputs: oracles, scripted responses and
      events. *)

From Stdlib Require Import QArith Qabs Qminmax Qround Qpower Qreduction Lqa ZArith NArith List String Ascii DecimalString Sorted Lia.
From Stdlib Require SpecFloat.
From stdpp Require Import gmap list sorting.
Import ListNotations.

Local Open Scope Q_scope.

(** ** JavaScript strings *)

Abbreviation jsstring := (list N).

(** A literal, written in ASCII. *)
Definition lit (s : string) : jsstring :=
  List.map N_of_ascii (list_ascii_of_string s).

(** [WhiteSpace] and [LineTerminator] of ECMAScript: what [String.prototype.trim]
    strips and what [\s] matches. *)
Definition is_ws (c : N) : bool :=
  ((9 <=? c) && (c <=? 13) || (c =? 32) || (c =? 160) || (c =? 5760)
   || (8192 <=? c) && (c <=? 8202) || (c =? 8232) || (c =? 8233)
   || (c =? 8239) || (c =? 8287) || (c =? 12288) || (c =? 65279))%N.

Fixpoint trimStart (s : jsstring) : jsstring :=
  match s with
  | [] => []
  | c :: s' => if is_ws c then trimStart s' else s
  end.

Definition trimEnd (s : jsstring) : jsstring := rev (trimStart (rev s)).

(** [s.trim()] *)
Definition trim (s : jsstring) : jsstring := trimEnd (trimStart s).

(** [!s] for a string: the empty string is the only falsy one. *)
Definition falsy (s : jsstring) : bool :=
  match s with [] => true | _ :: _ => false end.

Definition truthy (s : jsstring) : bool := negb (falsy s).

(** [parts.join(sep)] *)
Fixpoint join (sep : jsstring) (parts : list jsstring) : jsstring :=
  match parts with
  | [] => []
  | [p] => p
  | p :: ps => p ++ sep ++ join sep ps
  end.

(** [s.split(/\s+/)]: the pieces between maximal runs of white space; a run at
    either end leaves an empty piece there. [insep] is set while a run is being
    consumed, [cur] holds the current piece in reverse. *)
Fixpoint splitWs (insep : bool) (cur : jsstring) (s : jsstring) : list jsstring :=
  match s with
  | [] => [rev cur]
  | c :: s' =>
      if is_ws c then
        if insep then splitWs true cur s'
        else rev cur :: splitWs true [] s'
      else splitWs false (c :: cur) s'
  end.

(** [s.split(/\n\n+/)]: the pieces between runs of two or more line feeds. A
    single line feed stays inside its piece. *)
Fixpoint splitBlank (insep : bool) (cur : jsstring) (s : jsstring) : list jsstring :=
  match s with
  | [] => [rev cur]
  | c :: s' =>
      if (c =? 10)%N then
        if insep then splitBlank true cur s'
        else
          match s' with
          | c' :: _ =>
              if (c' =? 10)%N then rev cur :: splitBlank true [] s'
              else splitBlank false (c :: cur) s'
          | [] => splitBlank false (c :: cur) s'
          end
      else splitBlank false (c :: cur) s'
  end.

(** [String(n)] for a non-negative integer. *)
Definition decimal (n : N) : jsstring :=
  lit (NilEmpty.string_of_uint (N.to_uint n)).

(** ** JavaScript numbers and sorting *)

Definition Qltb (a b : Q) : bool := negb (Qle_bool b a).

(** [a || 0] for a number that may be [undefined]. *)
Definition orZero (a : option Q) : Q :=
  match a with Some q => q | None => 0 end.

(** Insertion of [x] in front of the first element it does not compare
    greater than: elements that compare equal keep their order. *)
Fixpoint sortInsert {A : Type} (cmp : A -> A -> Q) (x : A) (l : list A) : list A :=
  match l with
  | [] => [x]
  | y :: l' => if Qle_bool (cmp x y) 0 then x :: l else y :: sortInsert cmp x l'
  end.

(** [l.sort(cmp)], stable. *)
Definition jsSort {A : Type} (cmp : A -> A -> Q) (l : list A) : list A :=
  List.fold_right (sortInsert cmp) [] l.

(** [Math.min(...)] and [Math.max(...)] over a non-empty argument list. *)
Definition minOf (x : Q) (xs : list Q) : Q := List.fold_left Qmin xs x.
Definition maxOf (x : Q) (xs : list Q) : Q := List.fold_left Qmax xs x.

(** *** Rounding

    The numbers of the overlay's arithmetic are binary64 values: the result
    of an addition, a subtraction or a multiplication is the exact result
    rounded to the nearest binary64 value, to the one with the even
    significand when two are equally near. [binary64 x] is that rounding of
    [x] to a significand of 53 bits. The range of the exponent is not
    limited: no overflow can come from the sums and differences of the
    overlay, which start from a page size, and sums and differences of
    binary64 values are exact where gradual underflow would matter. *)

(** [k] such that [2^k <= x < 2^(k+1)], for a positive [x]. *)
Definition exponentOf (x : Q) : Z :=
  let e := (Z.log2 (Qnum x) - Z.log2 (Z.pos (Qden x)))%Z in
  if Qle_bool (2 ^ e) x then e else (e - 1)%Z.

(** The nearest integer, the even one of two that are equally near. *)
Definition nearestEven (x : Q) : Z :=
  let f := Qfloor x in
  let r := x - inject_Z f in
  if Qltb r (1 # 2) then f
  else if Qltb (1 # 2) r then (f + 1)%Z
  else if Z.even f then f else (f + 1)%Z.

(** A positive [x] rounded to a multiple of its unit in the last place. *)
Definition roundPositive (x : Q) : Q :=
  let ulp := 2 ^ (exponentOf x - 52) in
  inject_Z (nearestEven (x / ulp)) * ulp.

Definition binary64 (x : Q) : Q :=
  Qred match x ?= 0 with
       | Eq => 0
       | Gt => roundPositive x
       | Lt => - roundPositive (- x)
       end.

Arguments binary64 : simpl never.

(** ** Recognition results ([replit.md], Tesseract revision) *)

Record BBox := { x0 : Q; y0 : Q; x1 : Q; y1 : Q }.

Record OCRWord := { w_text : jsstring; w_confidence : Q; w_bbox : BBox }.

Record OCRLine := {
  l_text : jsstring;
  l_confidence : Q;
  l_bbox : BBox;
  l_words : list OCRWord
}.

(** What the engine hands back for a word: every field may be missing. *)
Record RawBBox := { rx0 : option Q; ry0 : option Q; rx1 : option Q; ry1 : option Q }.

Record RawWord := {
  r_text : option jsstring;
  r_confidence : option Q;
  r_bbox : option RawBBox
}.

(** [result.data] of one recognition pass. *)
Record Recognition := {
  data_text : jsstring;
  data_confidence : option Q;
  data_words : option (list RawWord)
}.

Inductive Variant := grayscale | adaptive.

Record VariantResult := {
  variant : Variant;
  result : Recognition;
  confidence : Q
}.

(** The loop over [['grayscale', 'adaptive']]: one recognition per variant, in
    this order. [recognize v] is the engine's answer on the image preprocessed
    for [v]. *)
Definition collectResults (recognize : Variant -> Recognition) : list VariantResult :=
  List.map
    (fun v =>
       let r := recognize v in
       {| variant := v; result := r; confidence := orZero (data_confidence r) |})
    [grayscale; adaptive].

(** [results.sort((a, b) => b.confidence - a.confidence); results[0]] *)
Definition selectBest (results : list VariantResult) : option VariantResult :=
  List.hd_error (jsSort (fun a b => confidence b - confidence a) results).

(** [bestResult.data.words?.map(...) || []] *)
Definition normalizeWord (w : RawWord) : OCRWord :=
  {| w_text := match r_text w with Some t => t | None => [] end;
     w_confidence := orZero (r_confidence w);
     w_bbox :=
       {| x0 := orZero (match r_bbox w with Some b => rx0 b | None => None end);
          y0 := orZero (match r_bbox w with Some b => ry0 b | None => None end);
          x1 := orZero (match r_bbox w with Some b => rx1 b | None => None end);
          y1 := orZero (match r_bbox w with Some b => ry1 b | None => None end) |} |}.

Definition wordsOf (best : Recognition) : list OCRWord :=
  match data_words best with
  | Some ws => List.map normalizeWord ws
  | None => []
  end.

Definition yTolerance : Q := 4.

Definition wy0 (w : OCRWord) : Q := y0 (w_bbox w).

(** The record pushed for a finished line; [w :: ws] is [currentLine]. *)
Definition buildLine (w : OCRWord) (ws : list OCRWord) : OCRLine :=
  let currentLine := w :: ws in
  {| l_text := join (lit " ") (List.map w_text currentLine);
     l_confidence :=
       List.fold_left (fun sum x => sum + w_confidence x) currentLine 0
       / inject_Z (Z.of_nat (List.length currentLine));
     l_bbox :=
       {| x0 := minOf (x0 (w_bbox w)) (List.map (fun x => x0 (w_bbox x)) ws);
          y0 := minOf (y0 (w_bbox w)) (List.map (fun x => y0 (w_bbox x)) ws);
          x1 := maxOf (x1 (w_bbox w)) (List.map (fun x => x1 (w_bbox x)) ws);
          y1 := maxOf (y1 (w_bbox w)) (List.map (fun x => y1 (w_bbox x)) ws) |};
     l_words := currentLine |}.

(** [if (currentLine.length > 0) { ...; lines.push({...}) }] *)
Definition pushLine (lines : list OCRLine) (currentLine : list OCRWord) : list OCRLine :=
  match currentLine with
  | [] => lines
  | w :: ws => lines ++ [buildLine w ws]
  end.

(** The loop [for (i = 1; i < sortedWords.length; i++)] followed by the final
    push: [prevWord] is [sortedWords[i-1]], [rest] is [sortedWords[i..]]. *)
Fixpoint groupWords (prevWord : OCRWord) (rest : list OCRWord)
    (currentLine : list OCRWord) (lines : list OCRLine) : list OCRLine :=
  match rest with
  | [] => pushLine lines currentLine
  | word :: rest' =>
      if Qltb (Qabs (wy0 word - wy0 prevWord)) yTolerance
      then groupWords word rest' (currentLine ++ [word]) lines
      else groupWords word rest' [word] (pushLine lines currentLine)
  end.

Definition reconstructLines (words : list OCRWord) : list OCRLine :=
  match words with
  | [] => []
  | _ :: _ =>
      match jsSort (fun a b => wy0 a - wy0 b) words with
      | [] => []
      | first :: rest => groupWords first rest [first] []
      end
  end.

Record PageMetrics := {
  viewportWidth : Q;
  viewportHeight : Q;
  pdfWidth : Q;
  pdfHeight : Q;
  scale : Q
}.

Record OCRResult := {
  o_text : jsstring;
  o_confidence : Q;
  o_lines : list OCRLine;
  pageMetrics : PageMetrics
}.

(** [extractTextFromPdfPage] once the page is rendered: the two recognition
    passes, the choice of the best one, and the lines rebuilt from its words.
    The rendering and its metrics are inputs. [results[0]] exists since the
    loop pushed two results. *)
Definition extractTextFromPdfPage (recognize : Variant -> Recognition)
    (metrics : PageMetrics) : option OCRResult :=
  match selectBest (collectResults recognize) with
  | Some best =>
      Some {| o_text := trim (data_text (result best));
              o_confidence := confidence best;
              o_lines := reconstructLines (wordsOf (result best));
              pageMetrics := metrics |}
  | None => None
  end.

(** ** Errors, JSON values and the translation endpoint ([server/routes.ts]) *)

Record JsError := { e_name : jsstring; e_message : jsstring }.

(** [new Error(message)] *)
Definition newError (message : jsstring) : JsError :=
  {| e_name := lit "Error"; e_message := message |}.

(** [`${error}`], that is [Error.prototype.toString]. *)
Definition errorToString (e : JsError) : jsstring :=
  if falsy (e_name e) then e_message e
  else if falsy (e_message e) then e_name e
  else e_name e ++ lit ": " ++ e_message e.

(** How an awaited call ends. *)
Inductive Completion (A : Type) : Type :=
  | Returned (a : A)
  | Thrown (e : JsError).
Arguments Returned {A} a.
Arguments Thrown {A} e.

(** What [response.json()] can produce. *)
#[warnings="-register-all"] Inductive Json : Type :=
  | JNull
  | JBool (b : bool)
  | JNumber (q : Q)
  | JString (s : jsstring)
  | JArray (items : list Json)
  | JObject (fields : list (jsstring * Json)).

Definition jsonTruthy (v : Json) : bool :=
  match v with
  | JNull => false
  | JBool b => b
  | JNumber q => negb (Qeq_bool q 0)
  | JString s => truthy s
  | JArray _ | JObject _ => true
  end.

(** The value of a key of a parsed object: the last occurrence wins. *)
Fixpoint getField (key : jsstring) (fields : list (jsstring * Json)) : option Json :=
  match fields with
  | [] => None
  | (k, v) :: rest =>
      match getField key rest with
      | Some v' => Some v'
      | None => if bool_decide (k = key) then Some v else None
      end
  end.

(** [v?.translation_text]: only an object can own the property. *)
Definition translationTextOf (v : Json) : option Json :=
  match v with
  | JObject fields => getField (lit "translation_text") fields
  | _ => None
  end.

Record Response := {
  ok : bool;
  status : N;
  statusText : jsstring;
  bodyText : Completion jsstring;   (* [await response.text()] *)
  bodyJson : Completion Json        (* [await response.json()] *)
}.

Inductive FetchOutcome :=
  | Rejected (e : JsError)
  | Resolved (r : Response).

(** The translation endpoint: its answer to a request, given the requests it
    has already received. A request is identified by its [inputs] text; URL,
    headers and language pair are constants of the code. *)
Abbreviation Endpoint := (list jsstring -> jsstring -> FetchOutcome).

(** Computations that may throw and that talk to the endpoint: the state is
    the list of requests sent so far. *)
Definition M (A : Type) : Type := list jsstring -> Completion A * list jsstring.

Definition ret {A : Type} (a : A) : M A := fun sent => (Returned a, sent).

Definition throw {A : Type} (e : JsError) : M A := fun sent => (Thrown e, sent).

Definition bind {A B : Type} (c : M A) (k : A -> M B) : M B :=
  fun sent =>
    match c sent with
    | (Returned a, sent') => k a sent'
    | (Thrown e, sent') => (Thrown e, sent')
    end.

Definition tryCatch {A : Type} (c : M A) (handler : JsError -> M A) : M A :=
  fun sent =>
    match c sent with
    | (Returned a, sent') => (Returned a, sent')
    | (Thrown e, sent') => handler e sent'
    end.

Definition await {A : Type} (c : Completion A) : M A := fun sent => (c, sent).

Notation "'let*' x ':=' c 'in' k" := (bind c (fun x => k))
  (at level 10, x name, c at level 100, k at level 200).

(** [await fetch(url, { method: "POST", ..., body: JSON.stringify({inputs: text, ...}) })] *)
Definition fetchTranslation (endpoint : Endpoint) (text : jsstring) : M Response :=
  fun sent =>
    match endpoint sent text with
    | Rejected e => (Thrown e, sent ++ [text])
    | Resolved r => (Returned r, sent ++ [text])
    end.

(** The value returned has the static type [string], but the first branch
    hands back whatever truthy value the response carries. *)
Definition translateWithHuggingFace (endpoint : Endpoint) (text : jsstring) : M Json :=
  if falsy text || (List.length (trim text) =? 0)%nat then ret (JString [])
  else
    let* response := fetchTranslation endpoint text in
    if negb (ok response) then
      let* errorText := await (bodyText response) in
      throw (newError (lit "Translation failed: " ++ decimal (status response)
                         ++ lit " - " ++ errorText))
    else
      let* result := await (bodyJson response) in
      match result with
      | JArray (first :: _) =>
          match translationTextOf first with
          | Some t =>
              if jsonTruthy t then ret t
              else throw (newError (lit "Invalid translation response format"))
          | None => throw (newError (lit "Invalid translation response format"))
          end
      | JObject fields =>
          match getField (lit "generated_text") fields with
          | Some (JString s) => ret (JString s)
          | _ => throw (newError (lit "Invalid translation response format"))
          end
      | JString s => ret (JString s)
      | _ => throw (newError (lit "Invalid translation response format"))
      end.

(** ** Markdown clean-up before translation *)

Definition isLineTerminator (c : N) : bool :=
  ((c =? 10) || (c =? 13) || (c =? 8232) || (c =? 8233))%N.

Inductive HeadingMode :=
  | LineStart                (* at the beginning of a line *)
  | Inside                   (* elsewhere *)
  | Hashes                   (* inside the [#+] of a match *)
  | Blanks (afterLT : bool). (* inside the [\s*] of a match; the last blank ended a line *)

(** [s.replace(/^#+\s*/gm, '')] *)
Fixpoint stripHeadings (mode : HeadingMode) (s : jsstring) : jsstring :=
  match s with
  | [] => []
  | c :: s' =>
      let keep := c :: stripHeadings (if isLineTerminator c then LineStart else Inside) s' in
      match mode with
      | LineStart => if (c =? 35)%N then stripHeadings Hashes s' else keep
      | Inside => keep
      | Hashes =>
          if (c =? 35)%N then stripHeadings Hashes s'
          else if is_ws c then stripHeadings (Blanks (isLineTerminator c)) s'
          else keep
      | Blanks afterLT =>
          if is_ws c then stripHeadings (Blanks (isLineTerminator c)) s'
          else if afterLT && (c =? 35)%N then stripHeadings Hashes s'
          else keep
      end
  end.

(** [s.replace(/\*\*/g, '')] *)
Fixpoint stripBold (s : jsstring) : jsstring :=
  match s with
  | [] => []
  | c :: s' =>
      match s' with
      | c' :: s'' => if ((c =? 42) && (c' =? 42))%N then stripBold s'' else c :: stripBold s'
      | [] => [c]
      end
  end.

(** [s.replace(/x/g, '')] for a single code unit [x]. *)
Definition stripChar (x : N) (s : jsstring) : jsstring :=
  List.filter (fun c => negb (c =? x)%N) s.

(** The longest prefix free of [stop], and what follows it. *)
Fixpoint spanUntil (stop : N) (s : jsstring) : jsstring * jsstring :=
  match s with
  | [] => ([], [])
  | c :: s' =>
      if (c =? stop)%N then ([], s)
      else let '(run, rest) := spanUntil stop s' in (c :: run, rest)
  end.

(** A match of [\[([^\]]+)\]\([^\)]+\)] at the head of [s]: the captured
    group and the text after the match. Each [+] can only end at the first
    occurrence of its closing character, so the match is unique. *)
Definition matchLink (s : jsstring) : option (jsstring * jsstring) :=
  match s with
  | 91%N :: s1 =>
      match spanUntil 93 s1 with
      | ((_ :: _) as label, 93%N :: 40%N :: s2) =>
          match spanUntil 41 s2 with
          | (_ :: _, 41%N :: s3) => Some (label, s3)
          | _ => None
          end
      | _ => None
      end
  | _ => None
  end.

(** [s.replace(/\[([^\]]+)\]\([^\)]+\)/g, '$1')]; [fuel] bounds the number of
    positions visited and [length s] is always enough. *)
Fixpoint stripLinksFrom (fuel : nat) (s : jsstring) : jsstring :=
  match fuel with
  | O => s
  | S fuel' =>
      match s with
      | [] => []
      | c :: s' =>
          match matchLink s with
          | Some (label, rest) => label ++ stripLinksFrom fuel' rest
          | None => c :: stripLinksFrom fuel' s'
          end
      end
  end.

Definition stripLinks (s : jsstring) : jsstring := stripLinksFrom (List.length s) s.

Definition cleanMarkdown (pageText : jsstring) : jsstring :=
  trim (stripChar 96 (stripLinks (stripChar 42 (stripBold (stripHeadings LineStart pageText))))).

(** ** The per-page translation loop of [translatePdf] *)

Record OcrPage := { markdown : jsstring; pageNumber : nat }.

(** [translated.substring(0, 200)] inside the [try]: a value that is not a
    string has no such method. *)
Definition requireString (translated : Json) : M jsstring :=
  match translated with
  | JString s => ret s
  | _ => throw {| e_name := lit "TypeError";
                  e_message := lit "translated.substring is not a function" |}
  end.

Definition minChars : nat := 10.

(** The [try] block of the loop: clean the page's text, translate it, and
    hand on the string that is pushed onto [translatedTexts]. *)
Definition tryTranslate (endpoint : Endpoint) (pageText : jsstring) : M jsstring :=
  let cleanedText := cleanMarkdown pageText in
  let* translated := translateWithHuggingFace endpoint cleanedText in
  requireString translated.

(** [`[Translation failed: ${error}]`] *)
Definition failureMarker (error : JsError) : jsstring :=
  lit "[Translation failed: " ++ errorToString error ++ lit "]".

(** The body of the loop after [extractedTexts.push(pageText)]: the string
    pushed onto [translatedTexts]. *)
Definition translatePage (endpoint : Endpoint) (pageText : jsstring) : M jsstring :=
  if truthy pageText && (minChars <? List.length (trim pageText))%nat then
    tryCatch (tryTranslate endpoint pageText)
             (fun error => ret (failureMarker error))
  else ret [].

Fixpoint translatePages (endpoint : Endpoint) (pages : list OcrPage)
    (extractedTexts translatedTexts : list jsstring)
  : M (list jsstring * list jsstring) :=
  match pages with
  | [] => ret (extractedTexts, translatedTexts)
  | page :: rest =>
      let pageText := markdown page in
      let* translated := translatePage endpoint pageText in
      translatePages endpoint rest (extractedTexts ++ [pageText])
        (translatedTexts ++ [translated])
  end.

(** ** Text recognition through the OCR service *)

Abbreviation Buffer := (list N).

(** The part of the service's response the code reads: [pages] and each
    page's [markdown] may be missing. *)
Record OcrResponse := { ocr_pages : option (list (option jsstring)) }.

Record OcrResult := { pages : list OcrPage; totalPages : nat }.

Definition extractTextWithMistralOCR (ocrProcess : Buffer -> Completion OcrResponse)
    (pdfBuffer : Buffer) : Completion OcrResult :=
  match ocrProcess pdfBuffer with
  | Thrown error =>
      Thrown (newError (lit "OCR processing failed: " ++ e_message error))
  | Returned ocrResponse =>
      let pages :=
        imap (fun index page =>
                {| markdown := match page with Some m => m | None => [] end;
                   pageNumber := index + 1 |})
             (match ocr_pages ocrResponse with Some ps => ps | None => [] end) in
      Returned {| pages := pages; totalPages := List.length pages |}
  end.

(** ** The reflow overlay *)

(** The embedded font, as far as the code uses it. Both calls throw when the
    encoding of the font (WinAnsi, for Helvetica) has no code for a character
    of the text: [font.widthOfTextAtSize] and, inside [page.drawText],
    [font.encodeText]. *)
Record Font := {
  widthOfTextAtSize : jsstring -> Q -> Completion Q;
  encodeText : jsstring -> Completion unit
}.

(** A page copied from the uploaded document. *)
Record SourcePage := { width : Q; height : Q; content : list N }.

(** One [page.drawText(text, { x, y, size, font, color })]. *)
Record DrawText := {
  d_text : jsstring;
  d_x : Q;
  d_y : Q;
  d_size : Q;
  d_color : Q * Q * Q
}.

(** A page of the output document: the copied page and what was drawn on it. *)
Record OutPage := { copied : SourcePage; drawn : list DrawText }.

Definition fontSize : Q := 9.
Definition margin : Q := 25.

(** [fontSize * 1.3], where [1.3] is the binary64 value nearest to 13/10:
    the product is 11.700000000000001. *)
Definition lineHeight : Q := binary64 (fontSize * binary64 (13 # 10)).

Arguments lineHeight : simpl never.

Definition drawLine (line : jsstring) (y : Q) : DrawText :=
  {| d_text := line; d_x := margin; d_y := y; d_size := fontSize;
     d_color := (0, 0, binary64 (8 # 10)) |}.

(** Computations that draw on a page and may throw: the state is the list of
    the calls of [drawText] made on the page so far. *)
Definition D (A : Type) : Type := list DrawText -> Completion A * list DrawText.

Definition retD {A : Type} (a : A) : D A := fun ops => (Returned a, ops).

Definition bindD {A B : Type} (c : D A) (k : A -> D B) : D B :=
  fun ops =>
    match c ops with
    | (Returned a, ops') => k a ops'
    | (Thrown e, ops') => (Thrown e, ops')
    end.

Notation "'let-' x ':=' c 'in' k" := (bindD c (fun x => k))
  (at level 10, x name, c at level 100, k at level 200).

(** [font.widthOfTextAtSize(text, fontSize)] *)
Definition measure (font : Font) (text : jsstring) : D Q :=
  fun ops => (widthOfTextAtSize font text fontSize, ops).

(** [page.drawText(line, { x: margin, y, size: fontSize, font, color })] *)
Definition drawText (font : Font) (line : jsstring) (y : Q) : D unit :=
  fun ops =>
    match encodeText font line with
    | Returned _ => (Returned tt, ops ++ [drawLine line y])
    | Thrown e => (Thrown e, ops)
    end.

(** The loop [for (const word of words)] of one paragraph, from the state
    [(line, y)]; a [break] returns the state at once. *)
Fixpoint wrapWords (font : Font) (maxWidth : Q) (words : list jsstring)
    (line : jsstring) (y : Q) : D (jsstring * Q) :=
  match words with
  | [] => retD (line, y)
  | word :: rest =>
      let testLine := if truthy line then line ++ lit " " ++ word else word in
      let- textWidth := measure font testLine in
      if Qle_bool textWidth maxWidth then wrapWords font maxWidth rest testLine y
      else
        let- y' :=
          if truthy line
          then (let- drawn := drawText font line y in retD (binary64 (y - lineHeight)))
          else retD y in
        if Qltb y' (binary64 (margin + lineHeight)) then retD (word, y')
        else wrapWords font maxWidth rest word y'
  end.

(** [paragraph.split(/\s+/).filter(w => w.length > 0)] *)
Definition wordsOfParagraph (paragraph : jsstring) : list jsstring :=
  List.filter (fun w => (0 <? List.length w)%nat) (splitWs false [] paragraph).

(** The loop [for (const paragraph of paragraphs)]. *)
Fixpoint layoutParagraphs (font : Font) (maxWidth : Q) (paragraphs : list jsstring)
    (y : Q) : D unit :=
  match paragraphs with
  | [] => retD tt
  | paragraph :: rest =>
      let- state := wrapWords font maxWidth (wordsOfParagraph paragraph) [] y in
      let- y2 :=
        if truthy (fst state) && Qle_bool margin (snd state)
        then (let- drawn := drawText font (fst state) (snd state) in
              retD (binary64 (snd state - lineHeight)))
        else retD (snd state) in
      let y3 := binary64 (y2 - binary64 (lineHeight * (1 # 2))) in
      if Qltb y3 margin then retD tt
      else layoutParagraphs font maxWidth rest y3
  end.

(** The body of [pages.forEach((page, index) => ...)] after [addPage]:
    [entry] is [translatedTexts[index]], absent past the end of the array. *)
Definition overlayPage (font : Font) (page : SourcePage) (entry : option jsstring)
  : D unit :=
  let translatedText := match entry with Some t => t | None => [] end in
  if falsy translatedText then retD tt
  else
    let maxWidth := binary64 (width page - binary64 (margin * 2)) in
    let y := binary64 (height page - margin) in
    layoutParagraphs font maxWidth (splitBlank false [] translatedText) y.

(** [pages.forEach(...)] from the page at [index] on: each page is added and
    overlaid in turn; an error thrown on a page ends the loop and leaves no
    document. *)
Fixpoint addPages (font : Font) (translatedTexts : list jsstring) (index : nat)
    (pages : list SourcePage) : Completion (list OutPage) :=
  match pages with
  | [] => Returned []
  | page :: rest =>
      match overlayPage font page (translatedTexts !! index) [] with
      | (Thrown e, _) => Thrown e
      | (Returned _, ops) =>
          match addPages font translatedTexts (S index) rest with
          | Thrown e => Thrown e
          | Returned out => Returned ({| copied := page; drawn := ops |} :: out)
          end
      end
  end.

(** The document that [pdfDoc.save()] writes, when no page has thrown. *)
Definition assemble (font : Font) (sourcePages : list SourcePage)
    (translatedTexts : list jsstring) : Completion (list OutPage) :=
  addPages font translatedTexts 0 sourcePages.

(** ** [translatePdf] *)

(** What the outside world answers while one upload is processed. *)
Record Env := {
  ocrProcess : Buffer -> Completion OcrResponse;
  endpoint : Endpoint;
  loadPdf : Buffer -> Completion (list SourcePage);  (* [PDFDocument.load], [copyPages] *)
  font : Font
}.

Record Translation := {
  translatedPdf : list OutPage;
  extractedTexts : list jsstring;
  translatedTexts : list jsstring
}.

Definition translatePdf (env : Env) (pdfBuffer : Buffer) : M Translation :=
  let* ocrResult := await (extractTextWithMistralOCR (ocrProcess env) pdfBuffer) in
  let* texts := translatePages (endpoint env) (pages ocrResult) [] [] in
  let* sourcePages := await (loadPdf env pdfBuffer) in
  let* document := await (assemble (font env) sourcePages (snd texts)) in
  ret {| translatedPdf := document;
         extractedTexts := fst texts;
         translatedTexts := snd texts |}.

(** ** The job cache and the two routes *)

Record CacheEntry := {
  c_translatedPdf : list OutPage;
  c_extractedTexts : list jsstring;
  c_translatedTexts : list jsstring;
  timestamp : N
}.

(** The process: the clock in milliseconds, [translationCache], and the
    callbacks registered with [setTimeout] that have not run yet, each with
    the time from which it may run and the job it deletes. *)
Record Server := {
  now : N;
  translationCache : gmap (list N) CacheEntry;
  timers : list (N * list N)
}.

Definition initialServer (start : N) : Server :=
  {| now := start; translationCache := ∅; timers := [] |}.

Definition ttl : N := 30 * 60 * 1000.

Record UploadedFile := { originalname : jsstring; mimetype : jsstring; buffer : Buffer }.

Inductive HttpReply :=
  | BadRequest (error : jsstring)                      (* 400 *)
  | NotFound (error : jsstring)                        (* 404 *)
  | ServerError (error : jsstring)                     (* 500 *)
  | JobCreated (jobId filename : jsstring) (pageCount : nat)
      (extracted translated : list jsstring)           (* 200, JSON *)
  | PdfBody (pdf : list OutPage).                      (* 200, application/pdf *)

(** [POST /api/translate]. [random] is [Math.random().toString(36).substring(7)]. *)
Definition postTranslate (env : Env) (file : option UploadedFile) (random : jsstring)
    (srv : Server) : Server * HttpReply :=
  match file with
  | None => (srv, BadRequest (lit "No file uploaded"))
  | Some f =>
      if negb (bool_decide (mimetype f = lit "application/pdf"))
      then (srv, BadRequest (lit "File must be a PDF"))
      else
        match translatePdf env (buffer f) [] with
        | (Thrown error, _) => (srv, ServerError (e_message error))
        | (Returned result, _) =>
            let jobId := decimal (now srv) ++ random in
            let entry :=
              {| c_translatedPdf := translatedPdf result;
                 c_extractedTexts := extractedTexts result;
                 c_translatedTexts := translatedTexts result;
                 timestamp := now srv |} in
            ({| now := now srv;
                translationCache := <[jobId := entry]> (translationCache srv);
                timers := timers srv ++ [((now srv + ttl)%N, jobId)] |},
             JobCreated jobId (originalname f) (List.length (extractedTexts result))
               (extractedTexts result) (translatedTexts result))
        end
  end.

(** [GET /api/download/:jobId] *)
Definition getDownload (jobId : jsstring) (srv : Server) : HttpReply :=
  match translationCache srv !! jobId with
  | None => NotFound (lit "Translation job not found or expired")
  | Some cached => PdfBody (c_translatedPdf cached)
  end.

(** What happens to the process. A timer callback runs no earlier than its
    delay allows. *)
Inductive Event :=
  | Elapse (dt : N)
  | Timeout (i : nat)
  | PostTranslate (env : Env) (file : option UploadedFile) (random : jsstring)
  | GetDownload (jobId : jsstring).

Definition step (srv : Server) (ev : Event) : option (Server * option HttpReply) :=
  match ev with
  | Elapse dt =>
      Some ({| now := (now srv + dt)%N;
               translationCache := translationCache srv;
               timers := timers srv |}, None)
  | Timeout i =>
      match timers srv !! i with
      | Some (due, jobId) =>
          if (due <=? now srv)%N then
            Some ({| now := now srv;
                     translationCache := delete jobId (translationCache srv);
                     timers := delete i (timers srv) |}, None)
          else None
      | None => None
      end
  | PostTranslate env file random =>
      let '(srv', reply) := postTranslate env file random srv in Some (srv', Some reply)
  | GetDownload jobId => Some (srv, Some (getDownload jobId srv))
  end.

Fixpoint run (srv : Server) (evs : list Event) : option Server :=
  match evs with
  | [] => Some srv
  | ev :: evs' =>
      match step srv ev with
      | Some (srv', _) => run srv' evs'
      | None => None
      end
  end.

(** The job identifier an event registers, if any. *)
Definition registers (srv : Server) (ev : Event) : option jsstring :=
  match step srv ev with
  | Some (_, Some (JobCreated jobId _ _ _ _)) => Some jobId
  | _ => None
  end.

(** No event of the run registers [jobId]. *)
Fixpoint unused (jobId : jsstring) (srv : Server) (evs : list Event) : Prop :=
  match evs with
  | [] => True
  | ev :: evs' =>
      registers srv ev <> Some jobId /\
      match step srv ev with
      | Some (srv', _) => unused jobId srv' evs'
      | None => True
      end
  end.

(** ** [translatePdf] of the Tesseract revision ([replit.md]) *)

(** The calls that reach the OCR worker. *)
Inductive WorkerCall :=
  | CreateWorker
  | SetParameters
  | Recognize (pageNumber : nat) (v : Variant)
  | Terminate.

(** The document reader, the rasterizer and the OCR worker, as the code
    consults them: each call returns or throws. [renderPage] stands for the
    loading of the document, [getPage], the rendering and [toBuffer] of one
    page, and answers the width and height of the final viewport and the
    final scale; [recognize] answers [result.data] for the page's image
    preprocessed for a variant ([preprocessImageForOCR] catches its own
    errors); [originalViewport] is the second [getPage] with the page's size
    at scale 1. *)
Record Tesseract := {
  getDocument : Buffer -> Completion nat;          (* [pdf.numPages] *)
  createWorker : Completion unit;
  setParameters : Completion unit;
  renderPage : Buffer -> nat -> Completion (Q * Q * Q);
  recognize : nat -> Variant -> Completion Recognition;
  originalViewport : Buffer -> nat -> Completion (Q * Q);
  terminate : Completion unit
}.

(** What a job has done so far: the requests sent to the translation
    endpoint and the calls made to the worker. *)
Record Trace := { requests : list jsstring; workerCalls : list WorkerCall }.

(** Computations that may throw, talk to the endpoint and use the worker. *)
Definition W (A : Type) : Type := Trace -> Completion A * Trace.

Definition retW {A : Type} (a : A) : W A := fun t => (Returned a, t).

Definition throwW {A : Type} (e : JsError) : W A := fun t => (Thrown e, t).

Definition bindW {A B : Type} (c : W A) (k : A -> W B) : W B :=
  fun t =>
    match c t with
    | (Returned a, t') => k a t'
    | (Thrown e, t') => (Thrown e, t')
    end.

Definition awaitW {A : Type} (c : Completion A) : W A := fun t => (c, t).

(** A computation that only talks to the endpoint. *)
Definition liftM {A : Type} (c : M A) : W A :=
  fun t =>
    match c (requests t) with
    | (completion, sent) =>
        (completion, {| requests := sent; workerCalls := workerCalls t |})
    end.

(** A call to the worker, with the worker's answer. *)
Definition callWorker {A : Type} (call : WorkerCall) (answer : Completion A) : W A :=
  fun t =>
    (answer, {| requests := requests t; workerCalls := workerCalls t ++ [call] |}).

(** [try { c } finally { finalizer }]: the finalizer runs however [c] ends,
    and an error of the finalizer replaces the completion of [c]. *)
Definition tryFinally {A : Type} (c : W A) (finalizer : W unit) : W A :=
  fun t =>
    match c t with
    | (completion, t') =>
        match finalizer t' with
        | (Returned _, t'') => (completion, t'')
        | (Thrown e, t'') => (Thrown e, t'')
        end
    end.

Notation "'let+' x ':=' c 'in' k" := (bindW c (fun x => k))
  (at level 10, x name, c at level 100, k at level 200).

(** [extractTextFromPdfPage(pdfBuffer, pageNumber, worker)] with its calls. *)
Definition extractTextFromPdfPageWith (engine : Tesseract) (pdfBuffer : Buffer)
    (pageNumber : nat) : W OCRResult :=
  let+ rendered := awaitW (renderPage engine pdfBuffer pageNumber) in
  let+ gray :=
    callWorker (Recognize pageNumber grayscale) (recognize engine pageNumber grayscale) in
  let+ adapt :=
    callWorker (Recognize pageNumber adaptive) (recognize engine pageNumber adaptive) in
  let+ original := awaitW (originalViewport engine pdfBuffer pageNumber) in
  match extractTextFromPdfPage
          (fun v => match v with grayscale => gray | adaptive => adapt end)
          {| viewportWidth := rendered.1.1; viewportHeight := rendered.1.2;
             pdfWidth := original.1; pdfHeight := original.2;
             scale := rendered.2 |} with
  | Some ocrResult => retW ocrResult
  | None =>
      throwW {| e_name := lit "TypeError";
                e_message := lit "Cannot read properties of undefined" |}
  end.

(** The body of the loop after [extractedTexts.push(ocrResult.text)]: the
    string pushed onto [translatedTexts]. The text sent is the text of the
    lines, joined by line feeds. *)
Definition translateLines (endpoint : Endpoint) (ocrResult : OCRResult) : M jsstring :=
  if truthy (o_text ocrResult) && (minChars <? List.length (o_text ocrResult))%nat then
    tryCatch
      (let linesText := join [10%N] (List.map l_text (o_lines ocrResult)) in
       let* translated := translateWithHuggingFace endpoint linesText in
       requireString translated)
      (fun error => ret (failureMarker error))
  else ret [].

(** The loop [for (let i = 0; i < numPages; i++)], from page [i] with
    [remaining] pages to go. *)
Fixpoint recognizePages (engine : Tesseract) (endpoint : Endpoint) (pdfBuffer : Buffer)
    (remaining i : nat) (extractedTexts translatedTexts : list jsstring)
  : W (list jsstring * list jsstring) :=
  match remaining with
  | O => retW (extractedTexts, translatedTexts)
  | S remaining' =>
      let+ ocrResult := extractTextFromPdfPageWith engine pdfBuffer i in
      let+ translated := liftM (translateLines endpoint ocrResult) in
      recognizePages engine endpoint pdfBuffer remaining' (S i)
        (extractedTexts ++ [o_text ocrResult]) (translatedTexts ++ [translated])
  end.

(** [translatePdf] of the Tesseract revision. Of [env] it uses the endpoint,
    the PDF library and the font; the overlay is the one of [server/routes.ts]. *)
Definition translatePdfTesseract (engine : Tesseract) (env : Env) (pdfBuffer : Buffer)
  : W Translation :=
  let+ numPages := awaitW (getDocument engine pdfBuffer) in
  let+ worker := callWorker CreateWorker (createWorker engine) in
  let+ configured := callWorker SetParameters (setParameters engine) in
  let+ texts :=
    tryFinally (recognizePages engine (endpoint env) pdfBuffer numPages 0 [] [])
               (callWorker Terminate (terminate engine)) in
  let+ sourcePages := awaitW (loadPdf env pdfBuffer) in
  let+ document := awaitW (assemble (font env) sourcePages (snd texts)) in
  retW {| translatedPdf := document;
          extractedTexts := fst texts;
          translatedTexts := snd texts |}.

(** ** The preview of the client ([Home], in [server/routes.ts]) *)

Inductive PageButton := PreviousPage | NextPage.

(** The [onClick] handlers of the page navigation: the value given to
    [setCurrentPage]. [pageCount] is [translationResult.pages]. *)
Definition clickPage (pageCount : Z) (currentPage : Z) (button : PageButton) : Z :=
  match button with
  | PreviousPage => Z.max 0 (currentPage - 1)
  | NextPage => Z.min (pageCount - 1) (currentPage + 1)
  end.

(** [texts[currentPage]]: [undefined] outside the array. *)
Definition textAt (texts : list jsstring) (currentPage : Z) : option jsstring :=
  if (currentPage <? 0)%Z then None else texts !! Z.to_nat currentPage.

(* ------------------------------------------------------------------------ *)
(** * Vocabulary of the statements, and sample inputs *)

(** A recognised word whose box has its top edge at [y]. *)
Definition wordAt (y : Q) : OCRWord :=
  {| w_text := lit "w"; w_confidence := 90;
     w_bbox := {| x0 := 0; y0 := y; x1 := 10; y1 := y + 8 |} |}.

(** Two results of the same variant with equal confidence. *)
Definition sameConfidence (a b : VariantResult) : Prop :=
  variant a = variant b /\ confidence a == confidence b.

(** A recognition pass that reports the confidence [c]. *)
Definition recognitionAt (c : Q) : Recognition :=
  {| data_text := lit "text"; data_confidence := Some c; data_words := None |}.

(** Two words that the loop keeps on one line when they follow each other. *)
Definition close (a b : OCRWord) : Prop := Qabs (wy0 b - wy0 a) < yTolerance.

(** Every word of a line is close to the word before it. *)
Fixpoint chained (l : list OCRWord) : Prop :=
  match l with
  | a :: (b :: _) as t => close a b /\ chained t
  | _ => True
  end.

(** Where one line ends and the next begins, the two words are not close. *)
Fixpoint separated (ls : list (list OCRWord)) : Prop :=
  match ls with
  | l1 :: (l2 :: _) as t =>
      (exists a b, last l1 = Some a /\ List.hd_error l2 = Some b /\
                   yTolerance <= Qabs (wy0 b - wy0 a)) /\
      separated t
  | _ => True
  end.

(** The word lists of the lines that [groupWords] adds. *)
Fixpoint segments (prevWord : OCRWord) (rest currentLine : list OCRWord)
  : list (list OCRWord) :=
  match rest with
  | [] => [currentLine]
  | word :: rest' =>
      if Qltb (Qabs (wy0 word - wy0 prevWord)) yTolerance
      then segments word rest' (currentLine ++ [word])
      else currentLine :: segments word rest' [word]
  end.

(** An endpoint that is down: every request is refused. *)
Definition refusing : Endpoint :=
  fun _ _ => Rejected {| e_name := lit "FetchError"; e_message := lit "network down" |}.

(** A page on which five characters were recognised. *)
Definition shortPage : OcrPage := {| markdown := lit "hello"; pageNumber := 1 |}.

(** A text for which [translateWithHuggingFace] does send a request. *)
Definition asksEndpoint (text : jsstring) : Prop :=
  falsy text || (List.length (trim text) =? 0)%nat = false.

(** The state and the reply after an upload that [translatePdf] completes. *)
Definition registered (srv : Server) (random : jsstring) (result : Translation) : Server :=
  {| now := now srv;
     translationCache :=
       <[decimal (now srv) ++ random :=
           {| c_translatedPdf := translatedPdf result;
              c_extractedTexts := extractedTexts result;
              c_translatedTexts := translatedTexts result;
              timestamp := now srv |}]> (translationCache srv);
     timers := timers srv ++ [((now srv + ttl)%N, decimal (now srv) ++ random)] |}.

(** The value of a finite number of the Standard Library's specification of
    IEEE 754 arithmetic. *)
Definition valueOf (f : SpecFloat.spec_float) : option Q :=
  match f with
  | SpecFloat.S754_zero _ => Some 0
  | SpecFloat.S754_finite s m e =>
      Some (Qred ((if s then -1 else 1) * inject_Z (Z.pos m) * 2 ^ e))
  | _ => None
  end.

(** A binary64 value: a number that its rounding leaves as it is. *)
Definition rounded (y : Q) : Prop := binary64 y == y.

(** [lineHeight * 0.5] and [margin + lineHeight], as the code computes them. *)
Abbreviation halfLine := (binary64 (lineHeight * (1 # 2))).
Abbreviation breakLevel := (binary64 (margin + lineHeight)).

(** Advance widths in thousandths of the font size: 278 for a space and 556
    for any other code unit (Helvetica's widths of a space and of a lower-case
    a), no kerning. *)
Definition advance (c : N) : Q := if (c =? 32)%N then 278 else 556.

(** The code units the sample font has a code for: the printable characters
    of Latin-1, which WinAnsi encodes. *)
Definition encodable (c : N) : bool :=
  ((32 <=? c) && (c <=? 126) || (160 <=? c) && (c <=? 255))%N.

Definition hexDigit (n : N) : N := if (n <? 10)%N then (48 + n)%N else (87 + n)%N.

(** The error of the encoding for a character it has no code for, with the
    character between double quotes and its code in four hexadecimal digits. *)
Definition cannotEncode (c : N) : JsError :=
  newError (lit "WinAnsi cannot encode " ++ [34; c; 34]%N ++ lit " (0x"
            ++ List.map hexDigit [c / 4096 mod 16; c / 256 mod 16; c / 16 mod 16; c mod 16]%N
            ++ lit ")").

Definition encodeSample (text : jsstring) : Completion unit :=
  match List.find (fun c => negb (encodable c)) text with
  | Some c => Thrown (cannotEncode c)
  | None => Returned tt
  end.

(** The width of a text is the sum of its advances times [size / 1000], in
    binary64; a text with a character outside the encoding has no width and
    cannot be drawn. *)
Definition sampleFont : Font :=
  {| widthOfTextAtSize := fun text size =>
       match encodeSample text with
       | Thrown e => Thrown e
       | Returned _ =>
           Returned (binary64 (List.fold_left (fun total c => total + advance c) text 0
                               * binary64 (size / 1000)))
       end;
     encodeText := encodeSample |}.

(** An A4 page, in points. *)
Definition a4 : SourcePage := {| width := 595; height := 842; content := [] |}.

(** The text recognised on a scanned page. *)
Definition scannedText : jsstring := lit "# A page of scanned text".

(** The OCR service returns that page, the translation endpoint is down, and
    the uploaded document loads as one A4 page. *)
Definition offlineEnv : Env :=
  {| ocrProcess := fun _ => Returned {| ocr_pages := Some [Some scannedText] |};
     endpoint := refusing;
     loadPdf := fun _ => Returned [a4];
     font := sampleFont |}.

(** The uploaded file. *)
Definition scanFile : UploadedFile :=
  {| originalname := lit "scan.pdf"; mimetype := lit "application/pdf";
     buffer := lit "%PDF-1.7" |}.


(** The words of a text: the words of its paragraphs, in order. *)
Definition textWords (text : jsstring) : list jsstring :=
  concat (List.map wordsOfParagraph (splitBlank false [] text)).

(** A line that was measured and is within the width, or is one of the
    words [W]. *)
Definition goodLine (font : Font) (maxWidth : Q) (W : list jsstring) (line : jsstring)
  : Prop :=
  (exists textWidth,
      widthOfTextAtSize font line fontSize = Returned textWidth /\
      textWidth <= maxWidth) \/
  In line W.

(** A call of [drawText] as the overlay makes them, for a good line. *)
Definition goodDraw (font : Font) (maxWidth : Q) (W : list jsstring) (d : DrawText)
  : Prop :=
  d = drawLine (d_text d) (d_y d) /\ goodLine font maxWidth W (d_text d).

(** A word of 110 letters: 550.4399999999999 points wide at size 9 in
    [sampleFont]. *)
Definition longWord : jsstring := List.repeat 97%N 110.

(** A sheet 200 wide and 40 high: lower than two margins. *)
Definition lowSheet : SourcePage := {| width := 200; height := 40; content := [] |}.

(** A word of twenty letters: 100.08 points wide at size 9 in [sampleFont]. *)
Definition twentyLetters : jsstring := List.repeat 97%N 20.

(** The pending callbacks that delete [jobId]. *)
Definition timersOf (jobId : jsstring) (ts : list (N * jsstring)) : list (N * jsstring) :=
  List.filter (fun t => bool_decide (snd t = jobId)) ts.

(** The job registered at time [T] is in the cache and its callback waits. *)
Definition live (jobId : jsstring) (T : N) (entry : CacheEntry) (srv : Server) : Prop :=
  translationCache srv !! jobId = Some entry /\
  timersOf jobId (timers srv) = [((T + ttl)%N, jobId)].

(** The job's callback has run, after its delay: the job is not in the cache. *)
Definition gone (jobId : jsstring) (T : N) (srv : Server) : Prop :=
  translationCache srv !! jobId = None /\
  timersOf jobId (timers srv) = [] /\
  (T + ttl <= now srv)%N.

(** The server started at 1 700 000 000 000 ms, after the upload of the
    scanned page. *)
Definition afterUpload : Server :=
  (postTranslate offlineEnv (Some scanFile) (lit "k3x9z") (initialServer 1700000000000)).1.

(** A download at once, then thirty minutes pass, the callback runs, and a
    second download is tried. *)
Definition untilExpiry : list Event :=
  [GetDownload (lit "1700000000000k3x9z"); Elapse 1800000; Timeout 0;
   GetDownload (lit "1700000000000k3x9z")].

(** The server thirty minutes and a millisecond after the upload, the
    deletion callback due and not yet run. *)
Definition overdue : Server :=
  {| now := 1700001800001;
     translationCache := translationCache afterUpload;
     timers := timers afterUpload |}.

(** The server once the callback has run, the cache empty and no callback
    left. *)
Definition afterExpiry : Server :=
  {| now := 1700001800000; translationCache := ∅; timers := [] |}.

(** The request that the loop of [translatePdf] sends for a page, if any: the
    cleaned text, when the page has more than ten characters once trimmed and
    the cleaned text is not blank. *)
Definition requestOf (pageText : jsstring) : option jsstring :=
  if truthy pageText && (minChars <? List.length (trim pageText))%nat then
    if falsy (cleanMarkdown pageText)
       || (List.length (trim (cleanMarkdown pageText)) =? 0)%nat
    then None
    else Some (cleanMarkdown pageText)
  else None.

(** The requests of a document, page by page. *)
Definition requestsOf (ocrPages : list OcrPage) : list jsstring :=
  omap (fun page => requestOf (markdown page)) ocrPages.

(** An environment in which the OCR service refuses the document. *)
Definition noOcrEnv : Env :=
  {| ocrProcess := fun _ => Thrown {| e_name := lit "SDKError"; e_message := lit "401" |};
     endpoint := refusing;
     loadPdf := fun _ => Returned [a4];
     font := sampleFont |}.

(** An environment in which the uploaded bytes are not a readable document. *)
Definition noLoadEnv : Env :=
  {| ocrProcess := fun _ => Returned {| ocr_pages := Some [Some scannedText] |};
     endpoint := refusing;
     loadPdf := fun _ => Thrown (newError (lit "No PDF header found"));
     font := sampleFont |}.

(** An upload that is not a PDF. *)
Definition textFile : UploadedFile :=
  {| originalname := lit "notes.txt"; mimetype := lit "text/plain";
     buffer := lit "hello" |}.

(** What holds of the server in every state it reaches: every cached job has
    a deletion callback pending; no callback is due later than thirty minutes
    from now; the callbacks wait in the order of their due times; no cached
    entry is stamped in the future. *)
Definition serverInvariant (srv : Server) : Prop :=
  (forall jobId, is_Some (translationCache srv !! jobId) ->
                 exists due, In (due, jobId) (timers srv)) /\
  Forall (fun t => (t.1 <= now srv + ttl)%N) (timers srv) /\
  StronglySorted (fun a b => (a.1 <= b.1)%N) (timers srv) /\
  (forall jobId entry, translationCache srv !! jobId = Some entry ->
                       (timestamp entry <= now srv)%N).

(** A text without any of the characters that the clean-up looks for: hash,
    asterisk, opening bracket, backtick. *)
Definition plainText (s : jsstring) : Prop :=
  Forall (fun c => c <> 35%N /\ c <> 42%N /\ c <> 91%N /\ c <> 96%N) s.

(** Each line is drawn at or below the position one line height under the
    line before it, as the binary64 subtraction gives it. *)
Fixpoint descending (ds : list DrawText) : Prop :=
  match ds with
  | d1 :: (d2 :: _) as rest =>
      d_y d2 <= binary64 (d_y d1 - lineHeight) /\ descending rest
  | _ => True
  end.

(** The draws [ds] start at or below [y], each at a binary64 value and at or
    below the position one line height under the draw before it, and leave
    the cursor at or below [y'] under the last of them. *)
Fixpoint stepsDown (y : Q) (ds : list DrawText) (y' : Q) : Prop :=
  match ds with
  | [] => y' <= y
  | d :: rest =>
      d_y d <= y /\ rounded (d_y d) /\
      stepsDown (binary64 (d_y d - lineHeight)) rest y'
  end.

(** The box [inner] lies within the box [outer]. *)
Definition inside (inner outer : BBox) : Prop :=
  x0 outer <= x0 inner /\ y0 outer <= y0 inner /\
  x1 inner <= x1 outer /\ y1 inner <= y1 outer.

(** A line as the loop pushes it: it has words, and its text, confidence and
    box are the ones computed from them. *)
Definition built (l : OCRLine) : Prop :=
  match l_words l with
  | w :: ws => l = buildLine w ws
  | [] => False
  end.

(** The top edge of each line lies at least the tolerance further down the
    image than the top edge of the line before it. *)
Fixpoint topsApart (ls : list OCRLine) : Prop :=
  match ls with
  | l1 :: (l2 :: _) as rest =>
      y0 (l_bbox l1) + yTolerance <= y0 (l_bbox l2) /\ topsApart rest
  | _ => True
  end.

(** A job that has done nothing yet. *)
Definition emptyTrace : Trace := {| requests := []; workerCalls := [] |}.

(** How the extraction of a page ends, and the calls it makes to the worker. *)
Definition pageOutcome (engine : Tesseract) (pdfBuffer : Buffer) (i : nat)
  : Completion OCRResult :=
  (extractTextFromPdfPageWith engine pdfBuffer i emptyTrace).1.

Definition pageCalls (engine : Tesseract) (pdfBuffer : Buffer) (i : nat)
  : list WorkerCall :=
  workerCalls (extractTextFromPdfPageWith engine pdfBuffer i emptyTrace).2.

(** The two recognition passes of each page from [i] on, [n] pages. *)
Definition recognitionsFrom (i n : nat) : list WorkerCall :=
  flat_map (fun j => [Recognize j grayscale; Recognize j adaptive]) (seq i n).

Definition isRecognize (call : WorkerCall) : Prop :=
  match call with Recognize _ _ => True | _ => False end.

(** A scanned page as the engine reports it, with confidence [c]. *)
Definition scannedPass (c : Q) : Recognition :=
  {| data_text := lit "a line of scanned text";
     data_confidence := Some c;
     data_words :=
       Some [ {| r_text := Some (lit "scanned"); r_confidence := Some c;
                 r_bbox := Some {| rx0 := Some 10; ry0 := Some 20;
                                   rx1 := Some 90; ry1 := Some 32 |} |} ] |}.

(** An engine that reads a document of two pages. *)
Definition twoPageEngine : Tesseract :=
  {| getDocument := fun _ => Returned 2%nat;
     createWorker := Returned tt;
     setParameters := Returned tt;
     renderPage := fun _ _ => Returned (3140, 4443, 95 # 18);
     recognize := fun _ v =>
       Returned (scannedPass match v with grayscale => 80 | adaptive => 85 end);
     originalViewport := fun _ _ => Returned (595, 842);
     terminate := Returned tt |}.

(** The same engine, except that the adaptive pass of the second page fails. *)
Definition failingEngine : Tesseract :=
  {| getDocument := getDocument twoPageEngine;
     createWorker := Returned tt;
     setParameters := Returned tt;
     renderPage := renderPage twoPageEngine;
     recognize := fun i v =>
       match i, v with
       | 1%nat, adaptive => Thrown (newError (lit "Out of memory"))
       | _, _ => recognize twoPageEngine i v
       end;
     originalViewport := originalViewport twoPageEngine;
     terminate := Returned tt |}.

(** The same engine, except that the worker refuses its parameters. *)
Definition unconfiguredEngine : Tesseract :=
  {| getDocument := getDocument twoPageEngine;
     createWorker := Returned tt;
     setParameters := Thrown (newError (lit "Unknown parameter"));
     renderPage := renderPage twoPageEngine;
     recognize := recognize twoPageEngine;
     originalViewport := originalViewport twoPageEngine;
     terminate := Returned tt |}.

(** A pass that read a text but reports no word boxes. *)
Definition textOnlyPass : Recognition :=
  {| data_text := lit "a line of scanned text";
     data_confidence := Some 80;
     data_words := None |}.

(** An environment in which the OCR service reads a short note, too short to
    be sent for translation. *)
Definition noteEnv : Env :=
  {| ocrProcess := fun _ => Returned {| ocr_pages := Some [Some (lit "A note")] |};
     endpoint := refusing;
     loadPdf := fun _ => Returned [a4];
     font := sampleFont |}.

(* ------------------------------------------------------------------------ *)
(** * Properties *)

(** ** The embedding at work *)

Example is_ws_example :
  List.map is_ws [9; 10; 13; 14; 32; 65; 160; 8192; 8202; 8203; 8232; 12288; 65279]%N
  = [true; true; true; false; true; false; true; true; true; false; true; true; true].
Proof. reflexivity. Qed.

Example trim_example : trim (lit "  a b  " ++ [10%N]) = lit "a b".
Proof. reflexivity. Qed.

Example split_words_example :
  splitWs false [] (lit " a  b c ") = [[]; lit "a"; lit "b"; lit "c"; []]
  /\ wordsOfParagraph (lit " a  b c ") = [lit "a"; lit "b"; lit "c"].
Proof. split; reflexivity. Qed.

Example split_paragraphs_example :
  splitBlank false [] (lit "a" ++ [10%N] ++ lit "b" ++ [10%N; 10%N; 10%N] ++ lit "c")
  = [lit "a" ++ [10%N] ++ lit "b"; lit "c"].
Proof. reflexivity. Qed.

Example cleanMarkdown_example :
  cleanMarkdown (lit "# Title" ++ [10%N]
                 ++ lit "## Sub **bold** and *it* [link](http://x) `code`  ")
  = lit "Title" ++ [10%N] ++ lit "Sub bold and it link code".
Proof. vm_compute. reflexivity. Qed.

Example stripLinks_example :
  stripLinks (lit "[a]x[b](c) [a[b](c) [](d) [e]() [f](g")
  = lit "[a]xb a[b [](d) [e]() [f](g".
Proof. vm_compute. reflexivity. Qed.

(** A successful translation: one request, the text of the first element. *)
Example translate_success_example :
  translateWithHuggingFace
    (fun _ _ =>
       Resolved {| ok := true; status := 200; statusText := lit "OK";
                   bodyText := Returned [];
                   bodyJson :=
                     Returned (JArray [JObject [(lit "translation_text",
                                                 JString (lit "Good morning"))]]) |})
    (lit "source text") []
  = (Returned (JString (lit "Good morning")), [lit "source text"]).
Proof. vm_compute. reflexivity. Qed.

(** A status 503 with a body: the error that is thrown carries both. *)
Example translate_bad_status_example :
  translatePage
    (fun _ _ =>
       Resolved {| ok := false; status := 503; statusText := lit "Service Unavailable";
                   bodyText := Returned (lit "loading");
                   bodyJson := Thrown (newError (lit "not read")) |})
    (lit "a text of the page") []
  = (Returned (lit "[Translation failed: Error: Translation failed: 503 - loading]"),
     [lit "a text of the page"]).
Proof. vm_compute. reflexivity. Qed.

(** The rounding on the numbers of the overlay, next to the Standard
    Library's IEEE 754 operations for binary64 (53 bits, exponents below
    1024): 1.3 is 5854679515581645 / 2^52, the line height 9 * 1.3 is
    11.700000000000001, the break level 25 + 11.700000000000001 is 36.7, and
    142 - 11.700000000000001 is the binary64 value of 130.3, which is more
    than 142 - 11.7. *)
Example binary64_example :
  let onePointThree := SpecFloat.S754_finite false 5854679515581645 (-52) in
  let height := SpecFloat.SFmul 53 1024 (SpecFloat.S754_finite false 9 0) onePointThree in
  valueOf onePointThree = Some (binary64 (13 # 10)) /\
  valueOf height = Some lineHeight /\
  lineHeight = 6586514455029351 # 562949953421312 /\
  valueOf (SpecFloat.SFadd 53 1024 (SpecFloat.S754_finite false 25 0) height)
    = Some breakLevel /\
  valueOf (SpecFloat.SFsub 53 1024 (SpecFloat.S754_finite false 142 0) height)
    = Some (binary64 (142 - lineHeight)) /\
  valueOf (SpecFloat.SFmul 53 1024 height (SpecFloat.S754_finite false 1 (-1)))
    = Some halfLine /\
  142 - (117 # 10) < binary64 (142 - lineHeight).
Proof. cbv zeta. repeat (split; [vm_compute; reflexivity|]). vm_compute. reflexivity. Qed.

(** Reflow on a page 100 wide: lines are filled greedily, the word of fifteen
    letters gets a line of its own, and the second paragraph starts a line
    and a half lower. The positions are 817, 805.3, 793.5999999999999 and
    776.0499999999998. *)
Example overlay_example :
  (fun run => (fst run, List.map (fun d => (d_text d, d_y d)) (snd run)))
    (overlayPage sampleFont {| width := 100; height := 842; content := [] |}
       (Some (lit "aaa  aaaa aaaaaaaaaaaaaaa a" ++ [10%N; 10%N] ++ lit "a a" ++ [10%N]
              ++ lit "a")) [])
  = (Returned tt,
     [(lit "aaa aaaa", 817);
      (lit "aaaaaaaaaaaaaaa", 3541746855392051 # 4398046511104);
      (lit "a", 1745144855606067 # 2199023255552);
      (lit "a a a", 6826207989884517 # 8796093022208)]).
Proof. vm_compute. reflexivity. Qed.

(** A character the font cannot encode: the overlay throws where it would
    measure the line that holds it, after the lines drawn before. *)
Example overlay_encoding_example :
  (fun run => (fst run, List.map d_text (snd run)))
    (overlayPage sampleFont {| width := 100; height := 842; content := [] |}
       (Some (lit "aaaaaaaaaaaaaaa a " ++ [2478%N] ++ lit " a")) [])
  = (Thrown (newError (lit "WinAnsi cannot encode " ++ [34; 2478; 34]%N
                       ++ lit " (0x09ae)")),
     [lit "aaaaaaaaaaaaaaa"]).
Proof. vm_compute. reflexivity. Qed.

Example reconstruct_scenario_D :
  List.map (fun l => List.map wy0 (l_words l))
    (reconstructLines [wordAt 10; wordAt 11; wordAt 40]) = [[10; 11]; [40]].
Proof. vm_compute. reflexivity. Qed.

(** ** Numbers *)

Lemma Qltb_lt (a b : Q) : Qltb a b = true <-> a < b.
Proof.
  unfold Qltb. rewrite negb_true_iff. split.
  - intros H. apply Qnot_le_lt. intros Hle.
    apply Qle_bool_iff in Hle. congruence.
  - intros H. destruct (Qle_bool b a) eqn:E; [|reflexivity].
    apply Qle_bool_iff in E. exfalso. apply (Qlt_not_le _ _ H E).
Qed.

Lemma Qltb_ge (a b : Q) : Qltb a b = false <-> b <= a.
Proof.
  unfold Qltb. rewrite negb_false_iff. apply Qle_bool_iff.
Qed.

(** ** Rounding to binary64 *)

Lemma pow2_pos (k : Z) : 0 < 2 ^ k.
Proof. by apply Qpower_0_lt. Qed.

Lemma pow2_succ (k : Z) : 2 ^ (k + 1) == 2 * 2 ^ k.
Proof. rewrite Qpower_plus by discriminate. rewrite Qpower_1_r. ring. Qed.

Lemma pow2_le (j k : Z) : (j <= k)%Z -> 2 ^ j <= 2 ^ k.
Proof. intros H. by apply Qpower_le_compat_l. Qed.

Lemma pow2_Z (k : Z) : (0 <= k)%Z -> 2 ^ k == inject_Z (2 ^ k).
Proof. intros H. by rewrite Zpower_Qpower. Qed.

Lemma Qdiv_lt_cross (n d A B : Q) :
  0 < d -> 0 < B -> n * B < A * d -> n / d < A / B.
Proof.
  intros Hd HB H.
  apply (Qmult_lt_r _ _ (d * B)); [nra|].
  assert (n / d * (d * B) == n * B) as -> by (field; lra).
  assert (A / B * (d * B) == A * d) as -> by (field; lra).
  exact H.
Qed.

Lemma Qdiv_le_cross (n d A B : Q) :
  0 < d -> 0 < B -> A * d <= n * B -> A / B <= n / d.
Proof.
  intros Hd HB H.
  apply (Qmult_le_r _ _ (d * B)); [nra|].
  assert (n / d * (d * B) == n * B) as -> by (field; lra).
  assert (A / B * (d * B) == A * d) as -> by (field; lra).
  exact H.
Qed.

Lemma exponentOf_spec (x : Q) :
  0 < x -> 2 ^ exponentOf x <= x /\ x < 2 ^ (exponentOf x + 1).
Proof.
  intros Hx. unfold exponentOf.
  destruct x as [n d]. cbn [Qnum Qden].
  assert (0 < n)%Z as Hn by (unfold Qlt in Hx; simpl in Hx; lia).
  pose proof (Z.log2_spec n Hn) as [Ha1 Ha2].
  pose proof (Z.log2_spec (Z.pos d) ltac:(lia)) as [Hb1 Hb2].
  pose proof (Z.log2_nonneg n) as Ha0.
  pose proof (Z.log2_nonneg (Z.pos d)) as Hb0.
  set (a := Z.log2 n) in *. set (b := Z.log2 (Z.pos d)) in *.
  rewrite Z.pow_succ_r in Ha2, Hb2 by lia.
  assert (0 < 2 ^ a)%Z as HA by (apply Z.pow_pos_nonneg; lia).
  assert (0 < 2 ^ b)%Z as HB by (apply Z.pow_pos_nonneg; lia).
  assert (2 ^ (a - b) == inject_Z (2 ^ a) / inject_Z (2 ^ b)) as He.
  { rewrite Qpower_minus by discriminate. by rewrite !pow2_Z. }
  assert (0 < inject_Z (2 ^ b)) as HBq by (rewrite <- (Zlt_Qlt 0); lia).
  assert (n # d == inject_Z n / inject_Z (Z.pos d)) as Hxq by apply Qmake_Qdiv.
  assert (0 < inject_Z (Z.pos d)) as Hdq by (rewrite <- (Zlt_Qlt 0); lia).
  assert ((n # d) < 2 ^ (a - b + 1)) as Hup.
  { rewrite pow2_succ, He, Hxq.
    assert (2 * (inject_Z (2 ^ a) / inject_Z (2 ^ b))
            == (2 * inject_Z (2 ^ a)) / inject_Z (2 ^ b)) as -> by (field; lra).
    apply Qdiv_lt_cross; [exact Hdq|exact HBq|].
    change 2 with (inject_Z 2). rewrite <- !inject_Z_mult, <- Zlt_Qlt. nia. }
  assert (2 ^ (a - b - 1) <= (n # d)) as Hlow.
  { assert (2 ^ (a - b - 1) == inject_Z (2 ^ a) / (2 * inject_Z (2 ^ b))) as ->.
    { assert (2 ^ (a - b) == 2 * 2 ^ (a - b - 1)) as Hs.
      { rewrite <- pow2_succ. by replace (a - b - 1 + 1)%Z with (a - b)%Z by lia. }
      rewrite He in Hs.
      apply (Qmult_inj_l _ _ 2); [discriminate|]. rewrite <- Hs. field. lra. }
    rewrite Hxq. apply Qdiv_le_cross; [exact Hdq|lra|].
    change 2 with (inject_Z 2). rewrite <- !inject_Z_mult, <- Zle_Qle. nia. }
  destruct (Qle_bool (2 ^ (a - b)) (n # d)) eqn:E.
  - apply Qle_bool_iff in E. split; [exact E|exact Hup].
  - split; [exact Hlow|]. replace (a - b - 1 + 1)%Z with (a - b)%Z by lia.
    apply Qnot_le_lt. intros Hle. apply Qle_bool_iff in Hle. congruence.
Qed.

Lemma exponentOf_unique (x : Q) (k : Z) :
  2 ^ k <= x -> x < 2 ^ (k + 1) -> exponentOf x = k.
Proof.
  intros Hlow Hup.
  assert (0 < x) as Hx by (pose proof (pow2_pos k); lra).
  destruct (exponentOf_spec x Hx) as [Hlow' Hup'].
  assert (2 ^ k < 2 ^ (exponentOf x + 1)) as H1 by lra.
  assert (2 ^ exponentOf x < 2 ^ (k + 1)) as H2 by lra.
  apply Qpower_lt_compat_l_inv in H1; [|reflexivity].
  apply Qpower_lt_compat_l_inv in H2; [|reflexivity].
  lia.
Qed.

Lemma exponentOf_mono (x y : Q) :
  0 < x -> x <= y -> (exponentOf x <= exponentOf y)%Z.
Proof.
  intros Hx Hxy.
  destruct (exponentOf_spec x Hx) as [Hlow _].
  destruct (exponentOf_spec y ltac:(lra)) as [_ Hup].
  assert (2 ^ exponentOf x < 2 ^ (exponentOf y + 1)) as H by lra.
  apply Qpower_lt_compat_l_inv in H; [|reflexivity]. lia.
Qed.

Lemma nearestEven_Z (z : Z) : nearestEven (inject_Z z) = z.
Proof.
  unfold nearestEven. rewrite Qfloor_Z.
  assert (Qltb (inject_Z z - inject_Z z) (1 # 2) = true) as ->
    by (apply Qltb_lt; lra).
  reflexivity.
Qed.

Lemma nearestEven_bounds (x : Q) :
  (Qfloor x <= nearestEven x <= Qfloor x + 1)%Z.
Proof.
  unfold nearestEven.
  destruct (Qltb _ (1 # 2)); [lia|]. destruct (Qltb (1 # 2) _); [lia|].
  destruct (Z.even _); lia.
Qed.

Lemma nearestEven_mono (x y : Q) : x <= y -> (nearestEven x <= nearestEven y)%Z.
Proof.
  intros Hxy. pose proof (Qfloor_resp_le x y Hxy) as Hfloor.
  pose proof (nearestEven_bounds x) as Hx. pose proof (nearestEven_bounds y) as Hy.
  destruct (Z.eq_dec (Qfloor x) (Qfloor y)) as [Heq|Hne]; [|lia].
  unfold nearestEven. rewrite <- Heq.
  destruct (Qltb (x - inject_Z (Qfloor x)) (1 # 2)) eqn:Ex1.
  - destruct (Qltb (y - inject_Z (Qfloor x)) (1 # 2)); [lia|].
    destruct (Qltb (1 # 2) _); [lia|]. destruct (Z.even _); lia.
  - apply Qltb_ge in Ex1.
    assert (Qltb (y - inject_Z (Qfloor x)) (1 # 2) = false) as ->
      by (apply Qltb_ge; lra).
    destruct (Qltb (1 # 2) (x - inject_Z (Qfloor x))) eqn:Ex2.
    + apply Qltb_lt in Ex2.
      assert (Qltb (1 # 2) (y - inject_Z (Qfloor x)) = true) as ->
        by (apply Qltb_lt; lra).
      lia.
    + destruct (Qltb (1 # 2) (y - inject_Z (Qfloor x))); [destruct (Z.even _); lia|].
      lia.
Qed.

(** The rounded value lies in the binade of the value. *)
Lemma roundPositive_bounds (x : Q) :
  0 < x ->
  2 ^ exponentOf x <= roundPositive x /\ roundPositive x <= 2 ^ (exponentOf x + 1).
Proof.
  intros Hx. destruct (exponentOf_spec x Hx) as [Hlow Hup].
  unfold roundPositive. set (e := exponentOf x) in *.
  pose proof (pow2_pos (e - 52)) as Hulp.
  assert (2 ^ e == inject_Z (2 ^ 52) * 2 ^ (e - 52)) as He.
  { rewrite <- pow2_Z by lia. rewrite <- Qpower_plus by discriminate.
    by replace (52 + (e - 52))%Z with e by lia. }
  assert (2 ^ (e + 1) == inject_Z (2 ^ 53) * 2 ^ (e - 52)) as He1.
  { rewrite <- pow2_Z by lia. rewrite <- Qpower_plus by discriminate.
    by replace (53 + (e - 52))%Z with (e + 1)%Z by lia. }
  assert (inject_Z (2 ^ 52) <= x / 2 ^ (e - 52)) as Hs1.
  { apply Qle_shift_div_l; [exact Hulp|]. by rewrite <- He. }
  assert (x / 2 ^ (e - 52) <= inject_Z (2 ^ 53)) as Hs2.
  { apply Qle_shift_div_r; [exact Hulp|]. rewrite <- He1. lra. }
  apply nearestEven_mono in Hs1, Hs2. rewrite nearestEven_Z in Hs1, Hs2.
  rewrite He, He1. split; (apply Qmult_le_compat_r; [|lra]); by rewrite <- Zle_Qle.
Qed.

Lemma roundPositive_mono (x y : Q) :
  0 < x -> x <= y -> roundPositive x <= roundPositive y.
Proof.
  intros Hx Hxy.
  pose proof (exponentOf_mono x y Hx Hxy) as He.
  destruct (Z.eq_dec (exponentOf x) (exponentOf y)) as [Heq|Hne].
  - unfold roundPositive. rewrite <- Heq.
    pose proof (pow2_pos (exponentOf x - 52)) as Hulp.
    apply Qmult_le_compat_r; [|lra]. rewrite <- Zle_Qle.
    apply nearestEven_mono. apply Qmult_le_compat_r; [exact Hxy|].
    apply Qlt_le_weak, Qinv_lt_0_compat, Hulp.
  - destruct (roundPositive_bounds x Hx) as [_ Hup].
    destruct (roundPositive_bounds y ltac:(lra)) as [Hlow _].
    pose proof (pow2_le (exponentOf x + 1) (exponentOf y) ltac:(lia)). lra.
Qed.

Lemma roundPositive_pos (x : Q) : 0 < x -> 0 < roundPositive x.
Proof.
  intros Hx. destruct (roundPositive_bounds x Hx) as [Hlow _].
  pose proof (pow2_pos (exponentOf x)). lra.
Qed.

(** Rounding keeps the order. *)
Lemma binary64_mono (x y : Q) : x <= y -> binary64 x <= binary64 y.
Proof.
  intros Hxy. unfold binary64. rewrite !Qred_correct.
  destruct (Qcompare_spec x 0) as [Ex|Ex|Ex], (Qcompare_spec y 0) as [Ey|Ey|Ey];
    try lra.
  - pose proof (roundPositive_pos y Ey). lra.
  - pose proof (roundPositive_pos (- x) ltac:(lra)). lra.
  - pose proof (roundPositive_mono (- y) (- x) ltac:(lra) ltac:(lra)). lra.
  - pose proof (roundPositive_pos (- x) ltac:(lra)).
    pose proof (roundPositive_pos y Ey). lra.
  - by apply roundPositive_mono.
Qed.

Lemma binary64_comp (x y : Q) : x == y -> binary64 x == binary64 y.
Proof.
  intros Hxy. apply Qle_antisym; apply binary64_mono; lra.
Qed.

Lemma nearestEven_comp (x y : Q) : x == y -> nearestEven x = nearestEven y.
Proof.
  intros Hxy. apply Z.le_antisymm; apply nearestEven_mono; lra.
Qed.

(** A value with a significand of 53 bits is its own rounding. *)
Lemma roundPositive_representable (v : Q) (m k : Z) :
  (2 ^ 52 <= m <= 2 ^ 53)%Z -> v == inject_Z m * 2 ^ k -> roundPositive v == v.
Proof.
  intros [Hm1 Hm2] Hv.
  pose proof (pow2_pos k) as Hk.
  assert (2 ^ (k + 52) == inject_Z (2 ^ 52) * 2 ^ k) as H52.
  { rewrite <- pow2_Z by lia. rewrite <- Qpower_plus by discriminate.
    by replace (52 + k)%Z with (k + 52)%Z by lia. }
  assert (2 ^ (k + 53) == inject_Z (2 ^ 53) * 2 ^ k) as H53.
  { rewrite <- pow2_Z by lia. rewrite <- Qpower_plus by discriminate.
    by replace (53 + k)%Z with (k + 53)%Z by lia. }
  destruct (Z.eq_dec m (2 ^ 53)%Z) as [->|Hne].
  - assert (exponentOf v = (k + 53)%Z) as He.
    { assert (0 < inject_Z (2 ^ 53) * 2 ^ k) as Hp
        by (apply Qmult_lt_0_compat; [reflexivity|exact Hk]).
      apply exponentOf_unique.
      - rewrite Hv, H53. apply Qle_refl.
      - rewrite pow2_succ, Hv, H53. lra. }
    unfold roundPositive. rewrite He.
    replace (k + 53 - 52)%Z with (k + 1)%Z by lia.
    pose proof (pow2_pos (k + 1)) as Hk1.
    assert (v / 2 ^ (k + 1) == inject_Z (2 ^ 52)) as Hs.
    { rewrite Hv, pow2_succ. change (inject_Z (2 ^ 53)) with (2 * inject_Z (2 ^ 52)).
      field. lra. }
    rewrite (nearestEven_comp _ _ Hs), nearestEven_Z, Hv, pow2_succ.
    change (inject_Z (2 ^ 53)) with (2 * inject_Z (2 ^ 52)). ring.
  - assert (exponentOf v = (k + 52)%Z) as He.
    { apply exponentOf_unique.
      - rewrite Hv, H52. apply Qmult_le_compat_r; [|lra]. by rewrite <- Zle_Qle.
      - replace (k + 52 + 1)%Z with (k + 53)%Z by lia. rewrite Hv, H53.
        apply Qmult_lt_compat_r; [exact Hk|]. rewrite <- Zlt_Qlt. lia. }
    unfold roundPositive. rewrite He.
    replace (k + 52 - 52)%Z with k by lia.
    assert (v / 2 ^ k == inject_Z m) as Hs by (rewrite Hv; field; lra).
    by rewrite (nearestEven_comp _ _ Hs), nearestEven_Z, Hv.
Qed.

Lemma roundPositive_idempotent (x : Q) :
  0 < x -> roundPositive (roundPositive x) == roundPositive x.
Proof.
  intros Hx. destruct (exponentOf_spec x Hx) as [Hlow Hup].
  set (e := exponentOf x) in *.
  pose proof (pow2_pos (e - 52)) as Hulp.
  assert (2 ^ e == inject_Z (2 ^ 52) * 2 ^ (e - 52)) as He.
  { rewrite <- pow2_Z by lia. rewrite <- Qpower_plus by discriminate.
    by replace (52 + (e - 52))%Z with e by lia. }
  assert (2 ^ (e + 1) == inject_Z (2 ^ 53) * 2 ^ (e - 52)) as He1.
  { rewrite <- pow2_Z by lia. rewrite <- Qpower_plus by discriminate.
    by replace (53 + (e - 52))%Z with (e + 1)%Z by lia. }
  assert (inject_Z (2 ^ 52) <= x / 2 ^ (e - 52)) as Hs1.
  { apply Qle_shift_div_l; [exact Hulp|]. by rewrite <- He. }
  assert (x / 2 ^ (e - 52) <= inject_Z (2 ^ 53)) as Hs2.
  { apply Qle_shift_div_r; [exact Hulp|]. rewrite <- He1. lra. }
  apply nearestEven_mono in Hs1, Hs2. rewrite nearestEven_Z in Hs1, Hs2.
  apply (roundPositive_representable _ (nearestEven (x / 2 ^ (e - 52))) (e - 52));
    [by split|reflexivity].
Qed.

(** Rounding a rounded value changes nothing. *)
Lemma binary64_idempotent (x : Q) : binary64 (binary64 x) == binary64 x.
Proof.
  assert (forall v, 0 < v -> binary64 v == roundPositive v) as Hpos.
  { intros v Hv. unfold binary64. rewrite Qred_correct.
    destruct (Qcompare_spec v 0); [lra|lra|reflexivity]. }
  assert (forall v, v < 0 -> binary64 v == - roundPositive (- v)) as Hneg.
  { intros v Hv. unfold binary64. rewrite Qred_correct.
    destruct (Qcompare_spec v 0); [lra|reflexivity|lra]. }
  assert (forall v w, 0 < v -> v == w -> roundPositive v == roundPositive w) as Hcomp.
  { intros v w Hv Hvw. apply Qle_antisym; apply roundPositive_mono; lra. }
  destruct (Qcompare_spec x 0) as [Ex|Ex|Ex].
  - assert (binary64 x == 0) as H0.
    { unfold binary64. rewrite Qred_correct.
      destruct (Qcompare_spec x 0); [reflexivity|lra|lra]. }
    rewrite (binary64_comp _ _ H0), H0. reflexivity.
  - pose proof (roundPositive_pos (- x) ltac:(lra)) as Hr.
    pose proof (Hneg x Ex) as Hx. rewrite (binary64_comp _ _ Hx).
    rewrite Hneg by lra. rewrite Hx.
    rewrite (Hcomp (- - roundPositive (- x)) (roundPositive (- x))) by lra.
    by rewrite roundPositive_idempotent by lra.
  - pose proof (roundPositive_pos x Ex) as Hr.
    pose proof (Hpos x Ex) as Hx. rewrite (binary64_comp _ _ Hx).
    rewrite Hpos by lra. rewrite Hx. by apply roundPositive_idempotent.
Qed.

(** Subtracting from a rounded value does not take it up. *)
Lemma binary64_minus_le (x c : Q) :
  0 <= c -> binary64 (binary64 x - c) <= binary64 x.
Proof.
  intros Hc. rewrite <- (binary64_idempotent x) at 2.
  apply binary64_mono. lra.
Qed.

(** ** Stable sorting *)

Section Sorting.
Context {A : Type} (cmp : A -> A -> Q).

Lemma sortInsert_perm (x : A) (l : list A) : Permutation (sortInsert cmp x l) (x :: l).
Proof.
  induction l as [|y l IH]; simpl; [reflexivity|].
  destruct (Qle_bool (cmp x y) 0); [reflexivity|].
  rewrite IH. apply perm_swap.
Qed.

Lemma jsSort_perm (l : list A) : Permutation (jsSort cmp l) l.
Proof.
  induction l as [|x l IH]; simpl; [reflexivity|].
  rewrite sortInsert_perm. by constructor.
Qed.

Lemma jsSort_length (l : list A) : List.length (jsSort cmp l) = List.length l.
Proof. apply Permutation_length, jsSort_perm. Qed.
End Sorting.

(** The first element of a list sorted by decreasing [key]: the earliest
    element of the list whose key is largest. *)
Lemma jsSort_desc_head {A : Type} (key : A -> Q) (x : A) (l : list A) :
  exists pre best post,
    x :: l = pre ++ best :: post /\
    List.hd_error (jsSort (fun a b => key b - key a) (x :: l)) = Some best /\
    Forall (fun r => key r < key best) pre /\
    Forall (fun r => key r <= key best) post.
Proof.
  revert x. induction l as [|y l IH]; intros x.
  - exists [], x, []. simpl. repeat split; constructor.
  - destruct (IH y) as (pre & best & post & Hl & Hhd & Hpre & Hpost).
    change (jsSort (fun a b => key b - key a) (x :: y :: l))
      with (sortInsert (fun a b => key b - key a) x
              (jsSort (fun a b => key b - key a) (y :: l))).
    destruct (jsSort (fun a b => key b - key a) (y :: l)) as [|b tl] eqn:Es;
      [discriminate|].
    simpl in Hhd. injection Hhd as ->. simpl.
    destruct (Qle_bool (key best - key x) 0) eqn:E.
    + apply Qle_bool_iff in E.
      exists [], x, (y :: l). simpl. repeat split; [constructor|].
      rewrite Hl. apply Forall_app. split.
      * eapply Forall_impl; [exact Hpre|]. simpl. intros r Hr. lra.
      * constructor; [lra|].
        eapply Forall_impl; [exact Hpost|]. simpl. intros r Hr. lra.
    + assert (key x < key best) as Hlt.
      { apply Qnot_le_lt. intros Hle.
        assert (Qle_bool (key best - key x) 0 = true) as E'
          by (apply Qle_bool_iff; lra).
        congruence. }
      exists (x :: pre), best, post. simpl. repeat split.
      * by rewrite Hl.
      * by constructor.
      * exact Hpost.
Qed.

(** Sorting two lists whose elements are related position by position, with
    comparators that agree on related elements, gives related lists. *)
Lemma jsSort_Forall2 {A B : Type} (R : A -> B -> Prop)
    (cmpA : A -> A -> Q) (cmpB : B -> B -> Q) (l : list A) (l' : list B) :
  (forall a a' b b', R a a' -> R b b' ->
     Qle_bool (cmpA a b) 0 = Qle_bool (cmpB a' b') 0) ->
  Forall2 R l l' ->
  Forall2 R (jsSort cmpA l) (jsSort cmpB l').
Proof.
  intros Hcmp Hl. induction Hl as [|x x' l l' Hx Hl IH]; simpl; [constructor|].
  induction IH as [|y y' s s' Hy Hs IHs]; simpl.
  - by repeat constructor.
  - rewrite (Hcmp x x' y y' Hx Hy).
    destruct (Qle_bool (cmpB x' y') 0); by repeat constructor.
Qed.

(** ** The variant selector *)

(** C4. The variant selector returns the result of highest aggregate
    confidence; among results of equal confidence it returns the one that
    comes first in the order the variants were tried; and the variant it
    picks is a function of the confidences alone: a second run with the same
    confidences picks the same variant. *)
Theorem selectBest_highest_confidence
    (results results' : list VariantResult)
    (Hnonempty : results <> [])
    (Hsame : Forall2 sameConfidence results results') :
  exists pre best post,
    results = pre ++ best :: post /\
    selectBest results = Some best /\
    Forall (fun r => confidence r < confidence best) pre /\
    Forall (fun r => confidence r <= confidence best) post /\
    exists best', selectBest results' = Some best' /\ variant best' = variant best.
Proof.
  destruct results as [|r rs]; [done|].
  destruct (jsSort_desc_head confidence r rs)
    as (pre & best & post & Hl & Hhd & Hpre & Hpost).
  exists pre, best, post. repeat split; try assumption.
  assert (Forall2 sameConfidence
            (jsSort (fun a b => confidence b - confidence a) (r :: rs))
            (jsSort (fun a b => confidence b - confidence a) results')) as Hs.
  { apply jsSort_Forall2; [|exact Hsame].
    intros a a' b b' [_ Ha] [_ Hb].
    destruct (Qle_bool (confidence b - confidence a) 0) eqn:E1,
             (Qle_bool (confidence b' - confidence a') 0) eqn:E2; try reflexivity.
    - apply Qle_bool_iff in E1.
      assert (Qle_bool (confidence b' - confidence a') 0 = true) as E
        by (apply Qle_bool_iff; lra).
      congruence.
    - apply Qle_bool_iff in E2.
      assert (Qle_bool (confidence b - confidence a) 0 = true) as E
        by (apply Qle_bool_iff; lra).
      congruence. }
  unfold selectBest in *.
  destruct Hs as [|s s' ss ss' [Hv _] _]; simpl in *; [discriminate|].
  injection Hhd as ->. exists s'. by split.
Qed.

(** The two variants tie at 80: the grayscale result, tried first, is kept. *)
Lemma selectBest_highest_confidence_witness :
  exists pre best post,
    collectResults (fun _ => recognitionAt 80) = pre ++ best :: post /\
    selectBest (collectResults (fun _ => recognitionAt 80)) = Some best /\
    Forall (fun r => confidence r < confidence best) pre /\
    Forall (fun r => confidence r <= confidence best) post /\
    exists best',
      selectBest (collectResults (fun _ => recognitionAt 80)) = Some best' /\
      variant best' = variant best.
Proof.
  apply (selectBest_highest_confidence
           (collectResults (fun _ => recognitionAt 80))
           (collectResults (fun _ => recognitionAt 80))).
  - discriminate.
  - repeat constructor.
Defined.

(** With the two variants of the code: grayscale is kept unless the adaptive
    pass is strictly more confident. *)
Lemma selectBest_two_variants (recognize : Variant -> Recognition) :
  option_map variant (selectBest (collectResults recognize)) =
  Some (if Qle_bool (orZero (data_confidence (recognize adaptive)))
                    (orZero (data_confidence (recognize grayscale)))
        then grayscale else adaptive).
Proof.
  unfold selectBest, collectResults. simpl.
  destruct (Qle_bool (orZero (data_confidence (recognize adaptive)))
                     (orZero (data_confidence (recognize grayscale)))) eqn:E.
  - apply Qle_bool_iff in E.
    assert (Qle_bool (orZero (data_confidence (recognize adaptive))
                      - orZero (data_confidence (recognize grayscale))) 0 = true) as ->
      by (apply Qle_bool_iff; lra).
    reflexivity.
  - destruct (Qle_bool (orZero (data_confidence (recognize adaptive))
                        - orZero (data_confidence (recognize grayscale))) 0) eqn:E';
      [|reflexivity].
    apply Qle_bool_iff in E'.
    assert (Qle_bool (orZero (data_confidence (recognize adaptive)))
                     (orZero (data_confidence (recognize grayscale))) = true)
      by (apply Qle_bool_iff; lra).
    congruence.
Qed.

(** The page's result is built from the selected pass. *)
Lemma extractTextFromPdfPage_returns (recognize : Variant -> Recognition)
    (metrics : PageMetrics) :
  exists best,
    selectBest (collectResults recognize) = Some best /\
    extractTextFromPdfPage recognize metrics
    = Some {| o_text := trim (data_text (result best));
              o_confidence := confidence best;
              o_lines := reconstructLines (wordsOf (result best));
              pageMetrics := metrics |}.
Proof.
  unfold extractTextFromPdfPage.
  pose proof (selectBest_two_variants recognize) as H.
  destruct (selectBest (collectResults recognize)) as [best|]; [|discriminate].
  by exists best.
Qed.

(** ** The line reconstructor *)

Lemma pushLine_words (lines : list OCRLine) (w : OCRWord) (ws : list OCRWord) :
  List.map l_words (pushLine lines (w :: ws)) = List.map l_words lines ++ [w :: ws].
Proof. simpl. by rewrite List.map_app. Qed.

Lemma groupWords_segments (prevWord : OCRWord) (rest currentLine : list OCRWord)
    (lines : list OCRLine) :
  currentLine <> [] ->
  List.map l_words (groupWords prevWord rest currentLine lines) =
  List.map l_words lines ++ segments prevWord rest currentLine.
Proof.
  revert prevWord currentLine lines.
  induction rest as [|word rest IH]; intros prevWord currentLine lines Hne.
  - destruct currentLine as [|w ws]; [done|]. apply pushLine_words.
  - simpl. destruct (Qltb _ _).
    + apply IH. by destruct currentLine.
    + rewrite IH by done.
      destruct currentLine as [|w ws]; [done|].
      rewrite pushLine_words, <- app_assoc. reflexivity.
Qed.

Lemma segments_concat (prevWord : OCRWord) (rest currentLine : list OCRWord) :
  concat (segments prevWord rest currentLine) = currentLine ++ rest.
Proof.
  revert prevWord currentLine.
  induction rest as [|word rest IH]; intros prevWord currentLine; simpl.
  - by rewrite !app_nil_r.
  - destruct (Qltb _ _); simpl; rewrite IH.
    + by rewrite <- app_assoc.
    + reflexivity.
Qed.

Lemma segments_head (prevWord : OCRWord) (rest currentLine : list OCRWord) :
  exists more others, segments prevWord rest currentLine = (currentLine ++ more) :: others.
Proof.
  revert prevWord currentLine.
  induction rest as [|word rest IH]; intros prevWord currentLine; simpl.
  - exists [], []. by rewrite app_nil_r.
  - destruct (Qltb _ _).
    + destruct (IH word (currentLine ++ [word])) as (more & others & ->).
      exists (word :: more), others. by rewrite <- app_assoc.
    + exists [], (segments word rest [word]). by rewrite app_nil_r.
Qed.

Lemma segments_nonempty (prevWord : OCRWord) (rest currentLine : list OCRWord) :
  currentLine <> [] ->
  Forall (fun l => l <> []) (segments prevWord rest currentLine).
Proof.
  revert prevWord currentLine.
  induction rest as [|word rest IH]; intros prevWord currentLine Hne; simpl.
  - by constructor.
  - destruct (Qltb _ _).
    + apply IH. by destruct currentLine.
    + constructor; [done|]. by apply IH.
Qed.

Lemma chained_snoc (l : list OCRWord) (a b : OCRWord) :
  chained (l ++ [a]) -> close a b -> chained ((l ++ [a]) ++ [b]).
Proof.
  intros Hl Hab. induction l as [|x l IH]; simpl in *; [done|].
  destruct (l ++ [a]) as [|y t] eqn:E.
  - by destruct l.
  - simpl. destruct Hl as [Hxy Ht]. split; [done|]. by apply IH.
Qed.

Lemma segments_chained (prevWord : OCRWord) (rest line : list OCRWord) :
  chained (line ++ [prevWord]) ->
  Forall chained (segments prevWord rest (line ++ [prevWord])).
Proof.
  revert prevWord line.
  induction rest as [|word rest IH]; intros prevWord line Hch; simpl.
  - by constructor.
  - destruct (Qltb _ _) eqn:E.
    + apply IH. apply chained_snoc; [done|]. by apply Qltb_lt.
    + constructor; [done|]. by apply (IH word []).
Qed.

Lemma segments_separated (prevWord : OCRWord) (rest line : list OCRWord) :
  separated (segments prevWord rest (line ++ [prevWord])).
Proof.
  revert prevWord line.
  induction rest as [|word rest IH]; intros prevWord line; simpl; [done|].
  destruct (Qltb _ _) eqn:E.
  - apply IH.
  - pose proof (IH word []) as Hsep.
    destruct (segments_head word rest [word]) as (more & others & Hs).
    simpl in Hsep, Hs. rewrite Hs in *.
    split; [|exact Hsep].
    exists prevWord, word. repeat split.
    + by rewrite last_snoc.
    + by apply Qltb_ge.
Qed.

(** What [reconstructLines] produces, line by line. *)
Lemma reconstructLines_segments (words : list OCRWord) :
  List.map l_words (reconstructLines words) =
  match jsSort (fun a b => wy0 a - wy0 b) words with
  | [] => []
  | first :: rest => segments first rest [first]
  end.
Proof.
  destruct words as [|w ws]; [reflexivity|].
  unfold reconstructLines.
  destruct (jsSort _ (w :: ws)) as [|first rest]; [reflexivity|].
  by rewrite groupWords_segments.
Qed.

Lemma concat_length_ge {A : Type} (ls : list (list A)) :
  Forall (fun l => l <> []) ls -> (List.length ls <= List.length (concat ls))%nat.
Proof.
  induction 1 as [|l ls Hl _ IH]; simpl; [lia|].
  rewrite List.length_app. destruct l; [done|]. simpl. lia.
Qed.

(** Sorting by increasing [key] sorts. *)
Lemma jsSort_asc_sorted {A : Type} (key : A -> Q) (l : list A) :
  StronglySorted (fun a b => key a <= key b) (jsSort (fun a b => key a - key b) l).
Proof.
  induction l as [|x l IH]; simpl; [constructor|].
  induction IH as [|y s Hs IHs Hy]; simpl; [by repeat constructor|].
  destruct (Qle_bool (key x - key y) 0) eqn:E.
  - apply Qle_bool_iff in E. constructor; [by constructor|].
    constructor; [lra|].
    eapply Forall_impl; [exact Hy|]. simpl. intros z Hz. lra.
  - assert (key y <= key x) as Hyx.
    { apply Qlt_le_weak, Qnot_le_lt. intros Hle.
      assert (Qle_bool (key x - key y) 0 = true) by (apply Qle_bool_iff; lra).
      congruence. }
    constructor; [exact IHs|].
    rewrite sortInsert_perm. by constructor.
Qed.

(** The lines, read in order, are the sorted words; none is empty; inside a
    line neighbours are close, and across a line break they are not. *)
Lemma reconstructLines_shape (words : list OCRWord) :
  concat (List.map l_words (reconstructLines words))
    = jsSort (fun a b => wy0 a - wy0 b) words /\
  Forall (fun l => l <> []) (List.map l_words (reconstructLines words)) /\
  Forall chained (List.map l_words (reconstructLines words)) /\
  separated (List.map l_words (reconstructLines words)).
Proof.
  rewrite reconstructLines_segments.
  destruct (jsSort _ words) as [|first rest].
  - repeat split; constructor.
  - repeat split.
    + apply segments_concat.
    + by apply segments_nonempty.
    + by apply (segments_chained first rest []).
    + apply (segments_separated first rest []).
Qed.

(** C2 (amended). The line reconstructor walks the words in increasing order
    of [y0] and starts a new line exactly when the word's [y0] differs from
    the previous word's by the tolerance 4 or more; a word that differs by
    less than 4 joins the current line. So the lines, read in order, are the
    sorted words cut at the places, and only at the places, where neighbours
    differ by at least 4. The words at 10, 11 and 40 give the two lines
    [10, 11] and [40]. *)
Theorem reconstructLines_cuts_at_tolerance (words : list OCRWord) :
  concat (List.map l_words (reconstructLines words))
    = jsSort (fun a b => wy0 a - wy0 b) words /\
  StronglySorted (fun a b => wy0 a <= wy0 b)
    (concat (List.map l_words (reconstructLines words))) /\
  Forall (fun l => l <> []) (List.map l_words (reconstructLines words)) /\
  Forall chained (List.map l_words (reconstructLines words)) /\
  separated (List.map l_words (reconstructLines words)) /\
  List.map (fun l => List.map wy0 (l_words l))
    (reconstructLines [wordAt 10; wordAt 11; wordAt 40]) = [[10; 11]; [40]].
Proof.
  destruct (reconstructLines_shape words) as (Hcat & Hne & Hch & Hsep).
  split; [exact Hcat|].
  split; [rewrite Hcat; apply jsSort_asc_sorted|].
  split; [exact Hne|]. split; [exact Hch|]. split; [exact Hsep|].
  apply reconstruct_scenario_D.
Qed.

(** C2, as stated, fails where the difference is exactly the tolerance: the
    words at 10 and 14 do not differ by more than 4, and they are put on two
    lines. *)
Lemma reconstructLines_splits_at_exact_tolerance :
  List.map (fun l => List.map wy0 (l_words l))
    (reconstructLines [wordAt 10; wordAt 14]) = [[10]; [14]] /\
  ~ (yTolerance < Qabs (wy0 (wordAt 14) - wy0 (wordAt 10))).
Proof.
  split; [vm_compute; reflexivity|].
  vm_compute. intros H. discriminate H.
Qed.

(** C3. The line reconstructor produces at most as many lines as it was given
    words, no line is empty, and the lines together hold exactly the input
    words, each as many times as it was given: no word is dropped,
    duplicated or put on two lines. No words give no lines. *)
Theorem reconstructLines_partitions_words (words : list OCRWord) :
  (List.length (reconstructLines words) <= List.length words)%nat /\
  Permutation (concat (List.map l_words (reconstructLines words))) words /\
  Forall (fun l => l_words l <> []) (reconstructLines words) /\
  reconstructLines [] = [].
Proof.
  destruct (reconstructLines_shape words) as (Hcat & Hne & _).
  repeat split.
  - rewrite <- (List.length_map l_words).
    etransitivity; [apply concat_length_ge, Hne|].
    by rewrite Hcat, jsSort_length.
  - rewrite Hcat. apply jsSort_perm.
  - exact (proj1 (List.Forall_map l_words (fun l => l <> []) _) Hne).
Qed.

(** ** Trimming *)

Lemma trimStart_length (s : jsstring) : (List.length (trimStart s) <= List.length s)%nat.
Proof.
  induction s as [|c s IH]; simpl; [lia|].
  destruct (is_ws c); simpl; lia.
Qed.

Lemma trim_length (s : jsstring) : (List.length (trim s) <= List.length s)%nat.
Proof.
  unfold trim, trimEnd. rewrite List.length_rev.
  etransitivity; [apply trimStart_length|].
  rewrite List.length_rev. apply trimStart_length.
Qed.

Lemma trimStart_blank (s : jsstring) :
  Forall (fun c => is_ws c = true) s -> trimStart s = [].
Proof.
  induction 1 as [|c s Hc _ IH]; simpl; [reflexivity|]. by rewrite Hc.
Qed.

Lemma trim_blank (s : jsstring) :
  Forall (fun c => is_ws c = true) s -> trim s = [].
Proof.
  intros H. unfold trim, trimEnd. by rewrite (trimStart_blank s H).
Qed.

(** ** Markdown links: the bound on the positions visited is enough *)

Lemma spanUntil_length (stop : N) (s run rest : jsstring) :
  spanUntil stop s = (run, rest) ->
  (List.length run + List.length rest = List.length s)%nat.
Proof.
  revert run rest. induction s as [|c s IH]; intros run rest; simpl.
  - by intros [= <- <-].
  - destruct (c =? stop)%N.
    + by intros [= <- <-].
    + destruct (spanUntil stop s) as [run' rest'] eqn:E.
      intros [= <- <-]. simpl. by rewrite (IH run' rest' eq_refl).
Qed.

Lemma matchLink_shorter (s label rest : jsstring) :
  matchLink s = Some (label, rest) -> (List.length rest < List.length s)%nat.
Proof.
  unfold matchLink.
  destruct s as [|c s1]; [discriminate|].
  destruct c as [|p]; [discriminate|].
  destruct (decide (p = 91%positive)) as [->|Hne].
  2:{ do 7 (destruct p as [p|p|]; try discriminate); congruence. }
  destruct (spanUntil 93 s1) as [run1 rest1] eqn:E1.
  apply spanUntil_length in E1.
  destruct run1 as [|r1 run1]; [discriminate|].
  destruct rest1 as [|a rest1]; [discriminate|].
  destruct a as [|a]; [discriminate|].
  destruct (decide (a = 93%positive)) as [->|Hne].
  2:{ do 7 (destruct a as [a|a|]; try discriminate); congruence. }
  destruct rest1 as [|b s2]; [discriminate|].
  destruct b as [|b]; [discriminate|].
  destruct (decide (b = 40%positive)) as [->|Hne].
  2:{ do 6 (destruct b as [b|b|]; try discriminate); congruence. }
  destruct (spanUntil 41 s2) as [run2 rest2] eqn:E2.
  apply spanUntil_length in E2.
  destruct run2 as [|r2 run2]; [discriminate|].
  destruct rest2 as [|d s3]; [discriminate|].
  destruct d as [|d]; [discriminate|].
  destruct (decide (d = 41%positive)) as [->|Hne].
  2:{ do 6 (destruct d as [d|d|]; try discriminate); congruence. }
  intros [= _ <-]. simpl in *. lia.
Qed.

(** Any bound that is at least the length of the text gives the same result:
    [stripLinks] is the replacement over the whole text. *)
Lemma stripLinksFrom_enough (n : nat) :
  forall (m : nat) (s : jsstring),
    (List.length s <= n)%nat -> (List.length s <= m)%nat ->
    stripLinksFrom n s = stripLinksFrom m s.
Proof.
  induction n as [|n IH]; intros m s Hn Hm.
  - destruct s; [|simpl in Hn; lia]. by destruct m.
  - destruct m as [|m]; [destruct s; [reflexivity|simpl in Hm; lia]|].
    destruct s as [|c s]; [reflexivity|].
    change (stripLinksFrom (S n) (c :: s)) with
      (match matchLink (c :: s) with
       | Some (label, rest) => label ++ stripLinksFrom n rest
       | None => c :: stripLinksFrom n s
       end).
    change (stripLinksFrom (S m) (c :: s)) with
      (match matchLink (c :: s) with
       | Some (label, rest) => label ++ stripLinksFrom m rest
       | None => c :: stripLinksFrom m s
       end).
    destruct (matchLink (c :: s)) as [[label rest]|] eqn:E.
    + apply matchLink_shorter in E. simpl in *. f_equal. apply IH; lia.
    + simpl in *. f_equal. apply IH; lia.
Qed.

(** ** The translation dispatcher *)

(** C10. A text that is empty or made of white space only is answered with
    the empty string at once: no request is sent to the translation endpoint
    (the list of requests sent is returned as it was), and nothing is thrown,
    whatever the endpoint would have answered. *)
Theorem translateWithHuggingFace_blank (endpoint : Endpoint) (text : jsstring)
    (sent : list jsstring) (Hblank : Forall (fun c => is_ws c = true) text) :
  translateWithHuggingFace endpoint text sent = (Returned (JString []), sent).
Proof.
  unfold translateWithHuggingFace.
  rewrite (trim_blank text Hblank). simpl.
  by rewrite orb_true_r.
Qed.

(** A line of blanks and a tab, sent to an endpoint that is down. *)
Lemma translateWithHuggingFace_blank_witness :
  translateWithHuggingFace refusing (lit "   " ++ [9%N; 10%N]) []
  = (Returned (JString []), []).
Proof.
  apply (translateWithHuggingFace_blank refusing (lit "   " ++ [9%N; 10%N]) []).
  vm_compute. repeat constructor.
Defined.

(** ** The per-page loop *)

Lemma translatePage_returns (endpoint : Endpoint) (pageText : jsstring)
    (sent : list jsstring) :
  exists translated sent',
    translatePage endpoint pageText sent = (Returned translated, sent').
Proof.
  unfold translatePage.
  destruct (truthy pageText && (minChars <? List.length (trim pageText))%nat).
  - unfold tryCatch.
    destruct (tryTranslate endpoint pageText sent) as [[t|e] s']; by eauto.
  - by eauto.
Qed.

Lemma translatePage_short (endpoint : Endpoint) (pageText : jsstring)
    (sent : list jsstring) :
  (List.length pageText <= minChars)%nat ->
  translatePage endpoint pageText sent = (Returned [], sent).
Proof.
  intros Hshort. unfold translatePage.
  assert ((minChars <? List.length (trim pageText))%nat = false) as ->.
  { apply Nat.ltb_ge. pose proof (trim_length pageText). lia. }
  by rewrite andb_false_r.
Qed.

Lemma translatePages_cons (endpoint : Endpoint) (page : OcrPage) (rest : list OcrPage)
    (ex tr : list jsstring) (sent : list jsstring) (t : jsstring) (s : list jsstring) :
  translatePage endpoint (markdown page) sent = (Returned t, s) ->
  translatePages endpoint (page :: rest) ex tr sent =
  translatePages endpoint rest (ex ++ [markdown page]) (tr ++ [t]) s.
Proof. intros H. simpl. unfold bind. by rewrite H. Qed.

(** The loop never throws: it extends both arrays by one entry per page. *)
Lemma translatePages_returns (endpoint : Endpoint) (pages : list OcrPage)
    (ex tr : list jsstring) (sent : list jsstring) :
  exists ts sent',
    translatePages endpoint pages ex tr sent
      = (Returned (ex ++ List.map markdown pages, tr ++ ts), sent') /\
    List.length ts = List.length pages.
Proof.
  revert ex tr sent. induction pages as [|page rest IH]; intros ex tr sent.
  - exists [], sent. simpl. unfold ret. by rewrite !app_nil_r.
  - destruct (translatePage_returns endpoint (markdown page) sent) as (t & s & Ht).
    destruct (IH (ex ++ [markdown page]) (tr ++ [t]) s) as (ts & s' & Hrun & Hlen).
    exists (t :: ts), s'. rewrite (translatePages_cons _ _ _ _ _ _ _ _ Ht), Hrun.
    simpl. rewrite <- !app_assoc. simpl. by rewrite Hlen.
Qed.

(** Running the loop over [ps1 ++ ps2] is running it over [ps1] and going on
    with [ps2] from the arrays and the requests reached. *)
Lemma translatePages_app (endpoint : Endpoint) (ps1 ps2 : list OcrPage)
    (ex tr : list jsstring) (sent : list jsstring) :
  translatePages endpoint (ps1 ++ ps2) ex tr sent =
  match translatePages endpoint ps1 ex tr sent with
  | (Returned (ex1, tr1), s1) => translatePages endpoint ps2 ex1 tr1 s1
  | (Thrown e, s1) => (Thrown e, s1)
  end.
Proof.
  revert ex tr sent. induction ps1 as [|page rest IH]; intros ex tr sent.
  - reflexivity.
  - simpl. unfold bind.
    destruct (translatePage endpoint (markdown page) sent) as [[t|e] s]; [|reflexivity].
    apply IH.
Qed.

(** The arrays the loop starts from are only extended. *)
Lemma translatePages_acc (endpoint : Endpoint) (pages : list OcrPage)
    (ex tr : list jsstring) (sent : list jsstring) :
  translatePages endpoint pages ex tr sent =
  match translatePages endpoint pages [] [] sent with
  | (Returned (ex', tr'), s') => (Returned (ex ++ ex', tr ++ tr'), s')
  | (Thrown e, s') => (Thrown e, s')
  end.
Proof.
  revert ex tr sent. induction pages as [|page rest IH]; intros ex tr sent.
  - simpl. unfold ret. by rewrite !app_nil_r.
  - simpl. unfold bind.
    destruct (translatePage endpoint (markdown page) sent) as [[t|e] s]; [|reflexivity].
    rewrite (IH (ex ++ [markdown page]) (tr ++ [t])).
    rewrite (IH [markdown page] [t]).
    destruct (translatePages endpoint rest [] [] s) as [[[ex' tr']|e] s']; [|reflexivity].
    by rewrite <- !app_assoc.
Qed.

(** The loop over the pages before [page], over [page] itself and over the
    pages after it, one after the other. *)
Lemma translatePages_split (endpoint : Endpoint) (before after : list OcrPage)
    (page : OcrPage) (sent : list jsstring) :
  exists tr1 s1 t s2 tr2 s3,
    translatePages endpoint before [] [] sent
      = (Returned (List.map markdown before, tr1), s1) /\
    translatePage endpoint (markdown page) s1 = (Returned t, s2) /\
    translatePages endpoint after [] [] s2
      = (Returned (List.map markdown after, tr2), s3) /\
    translatePages endpoint (before ++ [page]) [] [] sent
      = (Returned (List.map markdown (before ++ [page]), tr1 ++ [t]), s2) /\
    translatePages endpoint (before ++ page :: after) [] [] sent
      = (Returned (List.map markdown (before ++ page :: after), tr1 ++ t :: tr2), s3) /\
    List.length tr1 = List.length before /\
    List.length tr2 = List.length after.
Proof.
  destruct (translatePages_returns endpoint before [] [] sent)
    as (tr1 & s1 & Hb & Hl1).
  destruct (translatePage_returns endpoint (markdown page) s1) as (t & s2 & Ht).
  destruct (translatePages_returns endpoint after [] [] s2)
    as (tr2 & s3 & Ha & Hl2).
  simpl in Hb, Ha.
  exists tr1, s1, t, s2, tr2, s3.
  split; [exact Hb|]. split; [exact Ht|]. split; [exact Ha|].
  split; [|split; [|by split]].
  - rewrite translatePages_app, Hb, (translatePages_cons _ _ _ _ _ _ _ _ Ht).
    simpl. unfold ret. by rewrite List.map_app.
  - rewrite translatePages_app, Hb, (translatePages_cons _ _ _ _ _ _ _ _ Ht).
    rewrite translatePages_acc, Ha.
    rewrite List.map_app. simpl. by rewrite <- !app_assoc.
Qed.

(** What [translatePdf] returns comes from the loop over the pages that the
    OCR service returned and from the overlay of the translated texts. *)
Lemma translatePdf_loop (env : Env) (pdfBuffer : Buffer) (sent sent' : list jsstring)
    (result : Translation) :
  translatePdf env pdfBuffer sent = (Returned result, sent') ->
  exists ocrResult sourcePages,
    extractTextWithMistralOCR (ocrProcess env) pdfBuffer = Returned ocrResult /\
    loadPdf env pdfBuffer = Returned sourcePages /\
    translatePages (endpoint env) (pages ocrResult) [] [] sent
      = (Returned (extractedTexts result, translatedTexts result), sent') /\
    assemble (font env) sourcePages (translatedTexts result)
      = Returned (translatedPdf result).
Proof.
  unfold translatePdf, bind, await, ret.
  destruct (extractTextWithMistralOCR (ocrProcess env) pdfBuffer) as [ocrResult|e];
    [|discriminate].
  destruct (translatePages (endpoint env) (pages ocrResult) [] [] sent)
    as [[[ex tr]|e] s] eqn:Hloop; [|discriminate].
  destruct (loadPdf env pdfBuffer) as [sourcePages|e]; [|discriminate].
  simpl. destruct (assemble (font env) sourcePages tr) as [document|e] eqn:Hdoc;
    [|discriminate].
  intros [= <- <-]. exists ocrResult, sourcePages. by repeat split.
Qed.

(** C5. The loop of [translatePdf] pushes one translated text for every
    extracted text, so the two lists have the same length, in the loop and in
    what [translatePdf] returns. A page whose extracted text has at most 10
    characters gets the empty string, and no request is sent for it: the
    requests sent after the page are the requests sent before it. *)
Theorem translatePages_aligned (translator : Endpoint) (ocrPages : list OcrPage)
    (sent : list jsstring) :
  exists translated sent',
    translatePages translator ocrPages [] [] sent
      = (Returned (List.map markdown ocrPages, translated), sent') /\
    List.length translated = List.length (List.map markdown ocrPages) /\
    (forall before page after,
        ocrPages = before ++ page :: after ->
        (List.length (markdown page) <= minChars)%nat ->
        exists tr1 tr2 s1,
          translated = tr1 ++ [] :: tr2 /\
          List.length tr1 = List.length before /\
          translatePages translator before [] [] sent
            = (Returned (List.map markdown before, tr1), s1) /\
          translatePages translator (before ++ [page]) [] [] sent
            = (Returned (List.map markdown (before ++ [page]), tr1 ++ [[]]), s1)) /\
    (forall env pdfBuffer result s,
        translatePdf env pdfBuffer sent = (Returned result, s) ->
        List.length (translatedTexts result) = List.length (extractedTexts result)).
Proof.
  destruct (translatePages_returns translator ocrPages [] [] sent) as (tr & s' & Hrun & Hlen).
  simpl in Hrun. exists tr, s'.
  split; [exact Hrun|]. split; [by rewrite List.length_map|]. split.
  - intros before page after -> Hshort.
    destruct (translatePages_split translator before after page sent)
      as (tr1 & s1 & t & s2 & tr2 & s3 & Hb & Ht & _ & Hbp & Hall & Hl1 & _).
    rewrite (translatePage_short translator (markdown page) s1 Hshort) in Ht.
    injection Ht as <- <-.
    rewrite Hall in Hrun. injection Hrun as <- <-.
    exists tr1, tr2, s1. by repeat split.
  - intros env pdfBuffer result s Hpdf.
    destruct (translatePdf_loop env pdfBuffer sent s result Hpdf)
      as (ocrResult & sourcePages & _ & _ & Hloop & _).
    destruct (translatePages_returns (endpoint env) (pages ocrResult) [] [] sent)
      as (tr' & s'' & Hrun' & Hlen').
    rewrite Hrun' in Hloop. simpl in Hloop. injection Hloop as Hex Htr _.
    rewrite <- Hex, <- Htr, List.length_map. exact Hlen'.
Qed.

(** One page with the five characters of "hello", and an endpoint that is
    down: the translated text is empty and nothing was sent. *)
Lemma translatePages_aligned_witness :
  translatePages refusing [shortPage] [] [] [] = (Returned ([lit "hello"], [[]]), []).
Proof.
  destruct (translatePages_aligned refusing [shortPage] [])
    as (translated & sent' & Hrun & _ & Hshort & _).
  destruct (Hshort [] shortPage [] eq_refl) as (tr1 & tr2 & s1 & _ & _ & Hb & Hbp).
  - vm_compute. lia.
  - simpl in Hb. unfold ret in Hb. injection Hb as <- <-. exact Hbp.
Defined.

(** ** Failures of the translation call *)

Section FailureKinds.
Variables (translator : Endpoint) (pageText : jsstring) (sent : list jsstring).
Hypothesis Hasks : asksEndpoint (cleanMarkdown pageText).

(** The request is refused or never answered. *)
Lemma tryTranslate_network_error (e : JsError) :
  translator sent (cleanMarkdown pageText) = Rejected e ->
  tryTranslate translator pageText sent = (Thrown e, sent ++ [cleanMarkdown pageText]).
Proof using Hasks.
  intros Hfetch. unfold tryTranslate, translateWithHuggingFace, bind.
  rewrite Hasks. unfold fetchTranslation. by rewrite Hfetch.
Qed.

(** The answer has a status outside 200-299. *)
Lemma tryTranslate_bad_status (r : Response) (errorText : jsstring) :
  translator sent (cleanMarkdown pageText) = Resolved r ->
  ok r = false ->
  bodyText r = Returned errorText ->
  tryTranslate translator pageText sent =
  (Thrown (newError (lit "Translation failed: " ++ decimal (status r)
                       ++ lit " - " ++ errorText)),
   sent ++ [cleanMarkdown pageText]).
Proof using Hasks.
  intros Hfetch Hok Hbody. unfold tryTranslate, translateWithHuggingFace, bind.
  rewrite Hasks. unfold fetchTranslation. rewrite Hfetch, Hok. simpl.
  unfold bind, await. by rewrite Hbody.
Qed.

(** The body of the answer is not JSON. *)
Lemma tryTranslate_bad_json (r : Response) (e : JsError) :
  translator sent (cleanMarkdown pageText) = Resolved r ->
  ok r = true ->
  bodyJson r = Thrown e ->
  tryTranslate translator pageText sent = (Thrown e, sent ++ [cleanMarkdown pageText]).
Proof using Hasks.
  intros Hfetch Hok Hbody. unfold tryTranslate, translateWithHuggingFace, bind.
  rewrite Hasks. unfold fetchTranslation. rewrite Hfetch, Hok. simpl.
  unfold bind, await. by rewrite Hbody.
Qed.

(** The body is JSON of a shape the code does not know: here, an object
    without a [generated_text] string, such as [{"error": "..."}]. *)
Lemma tryTranslate_unknown_object (r : Response) (fields : list (jsstring * Json)) :
  translator sent (cleanMarkdown pageText) = Resolved r ->
  ok r = true ->
  bodyJson r = Returned (JObject fields) ->
  getField (lit "generated_text") fields = None ->
  tryTranslate translator pageText sent =
  (Thrown (newError (lit "Invalid translation response format")),
   sent ++ [cleanMarkdown pageText]).
Proof using Hasks.
  intros Hfetch Hok Hbody Hfield. unfold tryTranslate, translateWithHuggingFace, bind.
  rewrite Hasks. unfold fetchTranslation. rewrite Hfetch, Hok. simpl.
  unfold bind, await. by rewrite Hbody, Hfield.
Qed.

(** The body carries a [translation_text] that is not a string. *)
Lemma tryTranslate_not_a_string (r : Response) (first t : Json) (others : list Json) :
  translator sent (cleanMarkdown pageText) = Resolved r ->
  ok r = true ->
  bodyJson r = Returned (JArray (first :: others)) ->
  translationTextOf first = Some t ->
  jsonTruthy t = true ->
  (forall s, t <> JString s) ->
  tryTranslate translator pageText sent =
  (Thrown {| e_name := lit "TypeError";
             e_message := lit "translated.substring is not a function" |},
   sent ++ [cleanMarkdown pageText]).
Proof using Hasks.
  intros Hfetch Hok Hbody Htext Htruthy Hstr.
  unfold tryTranslate, translateWithHuggingFace, bind.
  rewrite Hasks. unfold fetchTranslation. rewrite Hfetch, Hok. simpl.
  unfold bind, await. rewrite Hbody, Htext, Htruthy. unfold ret.
  destruct t; try reflexivity. by destruct (Hstr s).
Qed.
End FailureKinds.



(** ** The upload route *)







(** ** The reflow overlay *)

Lemma lineHeight_pos : 0 < lineHeight.
Proof. vm_compute. reflexivity. Qed.

Lemma halfLine_pos : 0 < halfLine.
Proof. vm_compute. reflexivity. Qed.

Lemma margin_le_breakLevel : margin <= breakLevel.
Proof. apply Qle_bool_iff. vm_compute. reflexivity. Qed.

Lemma truthy_nonempty (s : jsstring) : truthy s = true -> s <> [].
Proof. by destruct s. Qed.

Lemma goodDraw_drawLine (font : Font) (maxWidth : Q) (W : list jsstring)
    (line : jsstring) (y : Q) :
  goodLine font maxWidth W line -> Forall (goodDraw font maxWidth W) [drawLine line y].
Proof. intros H. constructor; [by split|constructor]. Qed.

Lemma above_drawLine (line : jsstring) (y : Q) :
  margin <= y -> Forall (fun d => margin <= d_y d) [drawLine line y].
Proof. intros H. constructor; [exact H|constructor]. Qed.

(** One turn of the word loop. *)
Lemma wrapWords_cons (font : Font) (maxWidth : Q) (word : jsstring)
    (rest : list jsstring) (line : jsstring) (y : Q) (ops : list DrawText) :
  wrapWords font maxWidth (word :: rest) line y ops =
  let testLine := if truthy line then line ++ lit " " ++ word else word in
  match widthOfTextAtSize font testLine fontSize with
  | Thrown e => (Thrown e, ops)
  | Returned textWidth =>
      if Qle_bool textWidth maxWidth then wrapWords font maxWidth rest testLine y ops
      else if truthy line then
        match encodeText font line with
        | Thrown e => (Thrown e, ops)
        | Returned _ =>
            if Qltb (binary64 (y - lineHeight)) breakLevel
            then (Returned (word, binary64 (y - lineHeight)), ops ++ [drawLine line y])
            else wrapWords font maxWidth rest word (binary64 (y - lineHeight))
                   (ops ++ [drawLine line y])
        end
      else if Qltb y breakLevel then (Returned (word, y), ops)
      else wrapWords font maxWidth rest word y ops
  end.
Proof.
  cbn [wrapWords]. unfold bindD at 1. unfold measure. cbv zeta.
  destruct (widthOfTextAtSize font _ fontSize) as [textWidth|e]; [|reflexivity].
  destruct (Qle_bool textWidth maxWidth); [reflexivity|].
  unfold bindD, drawText, retD.
  destruct (truthy line); [|by destruct (Qltb y breakLevel)].
  destruct (encodeText font line); [|reflexivity].
  by destruct (Qltb (binary64 (y - lineHeight)) breakLevel).
Qed.

(** One turn of the paragraph loop. *)
Lemma layoutParagraphs_cons (font : Font) (maxWidth : Q) (paragraph : jsstring)
    (rest : list jsstring) (y : Q) (ops : list DrawText) :
  layoutParagraphs font maxWidth (paragraph :: rest) y ops =
  match wrapWords font maxWidth (wordsOfParagraph paragraph) [] y ops with
  | (Thrown e, ops1) => (Thrown e, ops1)
  | (Returned (line, y1), ops1) =>
      if truthy line && Qle_bool margin y1 then
        match encodeText font line with
        | Thrown e => (Thrown e, ops1)
        | Returned _ =>
            if Qltb (binary64 (binary64 (y1 - lineHeight) - halfLine)) margin
            then (Returned tt, ops1 ++ [drawLine line y1])
            else layoutParagraphs font maxWidth rest
                   (binary64 (binary64 (y1 - lineHeight) - halfLine))
                   (ops1 ++ [drawLine line y1])
        end
      else if Qltb (binary64 (y1 - halfLine)) margin then (Returned tt, ops1)
      else layoutParagraphs font maxWidth rest (binary64 (y1 - halfLine)) ops1
  end.
Proof.
  cbn [layoutParagraphs]. unfold bindD at 1.
  destruct (wrapWords font maxWidth (wordsOfParagraph paragraph) [] y ops)
    as [[[line y1]|e] ops1]; [|reflexivity].
  cbn [fst snd]. unfold bindD, drawText, retD.
  destruct (truthy line && Qle_bool margin y1);
    [|by destruct (Qltb (binary64 (y1 - halfLine)) margin)].
  destruct (encodeText font line); [|reflexivity].
  by destruct (Qltb (binary64 (binary64 (y1 - lineHeight) - halfLine)) margin).
Qed.

Lemma wrapWords_spec (font : Font) (maxWidth : Q) (W : list jsstring)
    (words : list jsstring) :
  forall (line : jsstring) (y : Q) (ops : list DrawText),
    incl words W ->
    line = [] \/ goodLine font maxWidth W line ->
    exists outcome new,
      wrapWords font maxWidth words line y ops = (outcome, ops ++ new) /\
      Forall (goodDraw font maxWidth W) new /\
      (margin <= y -> Forall (fun d => margin <= d_y d) new) /\
      (forall line' y', outcome = Returned (line', y') ->
                        line' = [] \/ goodLine font maxWidth W line').
Proof.
  induction words as [|word rest IH]; intros line y ops Hincl Hline.
  - exists (Returned (line, y)), []. simpl. unfold retD. rewrite app_nil_r.
    split; [reflexivity|]. split; [constructor|]. split; [constructor|].
    by intros line' y' [= <- <-].
  - assert (incl rest W) as Hrest by (intros w Hw; apply Hincl; by right).
    assert (In word W) as Hword by (apply Hincl; by left).
    assert (forall e : JsError, exists outcome new,
               (@Thrown (jsstring * Q) e, ops) = (outcome, ops ++ new) /\
               Forall (goodDraw font maxWidth W) new /\
               (margin <= y -> Forall (fun d => margin <= d_y d) new) /\
               (forall line' y', outcome = Returned (line', y') ->
                                 line' = [] \/ goodLine font maxWidth W line'))
      as Hthrown.
    { intros e. exists (Thrown e), []. rewrite app_nil_r.
      split; [reflexivity|]. split; [constructor|]. split; [constructor|].
      intros line' y' H. discriminate H. }
    rewrite wrapWords_cons. cbv zeta.
    destruct (widthOfTextAtSize font _ fontSize) as [textWidth|e] eqn:Ewidth;
      [|apply Hthrown].
    destruct (Qle_bool textWidth maxWidth) eqn:Efit.
    + apply IH; [exact Hrest|]. right. left. exists textWidth.
      split; [exact Ewidth|]. by apply Qle_bool_iff.
    + destruct (truthy line) eqn:Etruthy.
      * assert (goodLine font maxWidth W line) as Hgood.
        { destruct Hline as [->|Hg]; [discriminate|exact Hg]. }
        destruct (encodeText font line) as [[]|e]; [|apply Hthrown].
        destruct (Qltb (binary64 (y - lineHeight)) breakLevel) eqn:Ebreak.
        -- exists (Returned (word, binary64 (y - lineHeight))), [drawLine line y].
           split; [reflexivity|].
           split; [by apply goodDraw_drawLine|]. split; [apply above_drawLine|].
           intros line' y' [= <- <-]. right. by right.
        -- apply Qltb_ge in Ebreak.
           destruct (IH word (binary64 (y - lineHeight)) (ops ++ [drawLine line y]) Hrest)
             as (outcome & new & Hrun & Hnew & Hy & Hout); [right; by right|].
           exists outcome, (drawLine line y :: new).
           rewrite Hrun, <- app_assoc. split; [reflexivity|].
           split; [constructor; [by split | exact Hnew]|].
           split; [|exact Hout].
           intros Hmargin. constructor; [exact Hmargin|].
           apply Hy. pose proof margin_le_breakLevel. lra.
      * destruct (Qltb y breakLevel) eqn:Ebreak.
        -- exists (Returned (word, y)), []. rewrite app_nil_r.
           split; [reflexivity|]. split; [constructor|]. split; [constructor|].
           intros line' y' [= <- <-]. right. by right.
        -- apply IH; [exact Hrest|]. right. by right.
Qed.

Lemma layoutParagraphs_spec (font : Font) (maxWidth : Q) (W : list jsstring)
    (paragraphs : list jsstring) :
  forall (y : Q) (ops : list DrawText),
    (forall p, In p paragraphs -> incl (wordsOfParagraph p) W) ->
    exists outcome new,
      layoutParagraphs font maxWidth paragraphs y ops = (outcome, ops ++ new) /\
      Forall (goodDraw font maxWidth W) new /\
      (margin <= y -> Forall (fun d => margin <= d_y d) new).
Proof.
  induction paragraphs as [|paragraph rest IH]; intros y ops HW.
  - exists (Returned tt), []. simpl. unfold retD. rewrite app_nil_r. by repeat split.
  - rewrite layoutParagraphs_cons.
    destruct (wrapWords_spec font maxWidth W (wordsOfParagraph paragraph) [] y ops)
      as (outcome1 & new1 & -> & Hnew1 & Hy1 & Hline);
      [apply HW; by left | by left |].
    assert (forall p, In p rest -> incl (wordsOfParagraph p) W) as HW'
      by (intros p Hp; apply HW; by right).
    destruct outcome1 as [[line y1]|e]; [|by exists (Thrown e), new1].
    specialize (Hline line y1 eq_refl).
    destruct (truthy line && Qle_bool margin y1) eqn:Elast.
    + apply andb_true_iff in Elast as [Etruthy Ey1].
      apply Qle_bool_iff in Ey1.
      assert (goodLine font maxWidth W line) as Hgood.
      { destruct Hline as [->|Hg]; [discriminate|exact Hg]. }
      destruct (encodeText font line) as [[]|e]; [|by exists (Thrown e), new1].
      assert (Forall (goodDraw font maxWidth W) (new1 ++ [drawLine line y1])) as Hnew2.
      { apply Forall_app. split; [exact Hnew1|]. by apply goodDraw_drawLine. }
      destruct (Qltb (binary64 (binary64 (y1 - lineHeight) - halfLine)) margin) eqn:Estop.
      * exists (Returned tt), (new1 ++ [drawLine line y1]). rewrite app_assoc.
        split; [reflexivity|]. split; [exact Hnew2|].
        intros Hmargin. apply Forall_app. split; [by apply Hy1|].
        by apply above_drawLine.
      * apply Qltb_ge in Estop.
        destruct (IH (binary64 (binary64 (y1 - lineHeight) - halfLine))
                    ((ops ++ new1) ++ [drawLine line y1]) HW')
          as (outcome & new & -> & Hnew & Hy).
        exists outcome, ((new1 ++ [drawLine line y1]) ++ new). rewrite !app_assoc.
        split; [reflexivity|]. split; [by apply Forall_app|].
        intros Hmargin. apply Forall_app. split; [|by apply Hy].
        apply Forall_app. split; [by apply Hy1|]. by apply above_drawLine.
    + destruct (Qltb (binary64 (y1 - halfLine)) margin) eqn:Estop.
      * exists (Returned tt), new1. split; [reflexivity|]. by split.
      * apply Qltb_ge in Estop.
        destruct (IH (binary64 (y1 - halfLine)) (ops ++ new1) HW')
          as (outcome & new & -> & Hnew & Hy).
        exists outcome, (new1 ++ new). rewrite app_assoc.
        split; [reflexivity|]. split; [by apply Forall_app|].
        intros Hmargin. apply Forall_app. split; [by apply Hy1 | by apply Hy].
Qed.

Lemma splitWs_pieces (s : jsstring) :
  forall (insep : bool) (cur : jsstring),
    Forall (fun c => is_ws c = false) cur ->
    Forall (Forall (fun c => is_ws c = false)) (splitWs insep cur s).
Proof.
  induction s as [|c s IH]; intros insep cur Hcur; simpl.
  - constructor; [|constructor]. by apply List.Forall_rev.
  - destruct (is_ws c) eqn:Ec.
    + destruct insep; [by apply IH|].
      constructor; [by apply List.Forall_rev|]. by apply IH.
    + apply IH. by constructor.
Qed.

(** A word of a paragraph is not empty and holds no white space. *)
Lemma wordsOfParagraph_words (paragraph word : jsstring) :
  In word (wordsOfParagraph paragraph) ->
  word <> [] /\ Forall (fun c => is_ws c = false) word.
Proof.
  unfold wordsOfParagraph. intros Hin. apply List.filter_In in Hin as [Hin Hlen].
  split.
  - intros ->. discriminate Hlen.
  - pose proof (splitWs_pieces paragraph false [] (List.Forall_nil _)) as Hall.
    rewrite List.Forall_forall in Hall. by apply Hall.
Qed.

Lemma textWords_words (text word : jsstring) :
  In word (textWords text) ->
  word <> [] /\ Forall (fun c => is_ws c = false) word.
Proof.
  unfold textWords. intros Hin. apply List.in_concat in Hin as (ws & Hws & Hin).
  apply List.in_map_iff in Hws as (paragraph & <- & _).
  by apply (wordsOfParagraph_words paragraph).
Qed.

(** Every call of [drawText] on a page draws a good line, and on a page at
    least two margins high it draws at or above the bottom margin, whether
    the overlay of the page ends or throws. *)
Lemma overlayPage_spec (font : Font) (page : SourcePage) (text : jsstring) :
  Forall (goodDraw font (binary64 (width page - binary64 (margin * 2))) (textWords text))
    (overlayPage font page (Some text) []).2 /\
  (margin * 2 <= height page ->
   Forall (fun d => margin <= d_y d) (overlayPage font page (Some text) []).2).
Proof.
  unfold overlayPage. destruct (falsy text); [by split|].
  destruct (layoutParagraphs_spec font (binary64 (width page - binary64 (margin * 2)))
              (textWords text) (splitBlank false [] text)
              (binary64 (height page - margin)) [])
    as (outcome & new & -> & Hnew & Hy).
  - intros p Hp w Hw. unfold textWords. apply List.in_concat.
    exists (wordsOfParagraph p). split; [|exact Hw]. by apply List.in_map.
  - simpl. split; [exact Hnew|]. intros Hheight. apply Hy.
    change margin with (binary64 margin) at 1.
    apply binary64_mono. unfold margin in *. lra.
Qed.

(** On a page at least two margins high no text is drawn below the bottom
    margin. *)
Lemma overlayPage_above_margin (font : Font) (page : SourcePage) (entry : option jsstring)
    (d : DrawText) :
  margin * 2 <= height page ->
  In d (overlayPage font page entry []).2 ->
  margin <= d_y d.
Proof.
  intros Hheight Hd. destruct entry as [text|]; [|by destruct Hd].
  destruct (overlayPage_spec font page text) as [_ Hy].
  specialize (Hy Hheight). rewrite List.Forall_forall in Hy. by apply Hy.
Qed.

(** C1 (amended). Every line the overlay draws is drawn at the left margin in
    the fixed font size, and either its rendered width is at most
    [pageWidth - 2 * margin] or it is a single word of the translated text
    (not empty, no white space inside): words are never broken, so a word
    wider than the bound is drawn whole and is wider than the bound. *)
Theorem overlay_line_fits_or_is_a_word (font : Font) (page : SourcePage)
    (text : jsstring) (d : DrawText)
    (Hd : In d (overlayPage font page (Some text) []).2) :
  d = drawLine (d_text d) (d_y d) /\
  ((exists textWidth,
       widthOfTextAtSize font (d_text d) fontSize = Returned textWidth /\
       textWidth <= binary64 (width page - binary64 (margin * 2))) \/
   (In (d_text d) (textWords text) /\
    d_text d <> [] /\
    Forall (fun c => is_ws c = false) (d_text d))).
Proof.
  destruct (overlayPage_spec font page text) as [Hgood _].
  rewrite List.Forall_forall in Hgood.
  destruct (Hgood d Hd) as [Hdraw [Hfit|Hword]].
  - split; [exact Hdraw|]. by left.
  - split; [exact Hdraw|]. right. split; [exact Hword|].
    by apply (textWords_words text).
Qed.

(** A word of 110 letters on an A4 page. *)
Lemma overlay_line_fits_or_is_a_word_witness :
  drawLine longWord 817 = drawLine longWord 817 /\
  ((exists textWidth,
       widthOfTextAtSize sampleFont longWord fontSize = Returned textWidth /\
       textWidth <= binary64 (width a4 - binary64 (margin * 2))) \/
   (In longWord (textWords longWord) /\
    longWord <> [] /\
    Forall (fun c => is_ws c = false) longWord)).
Proof.
  apply (overlay_line_fits_or_is_a_word sampleFont a4 longWord (drawLine longWord 817)).
  vm_compute. left. reflexivity.
Defined.

(** C1, as stated, fails for a word wider than the page: the 110 letters are
    drawn as one line, 550.4399999999999 units wide where 545 are allowed. *)
Lemma overlay_long_word_exceeds_width :
  overlayPage sampleFont a4 (Some longWord) [] = (Returned tt, [drawLine longWord 817]) /\
  exists textWidth,
    widthOfTextAtSize sampleFont longWord fontSize = Returned textWidth /\
    binary64 (width a4 - binary64 (margin * 2)) < textWidth.
Proof.
  split; [vm_compute; reflexivity|].
  eexists. split; vm_compute; reflexivity.
Qed.

(** C7 fails on a page lower than two margins: the first word is flushed at
    [y = height - margin = 15], below the bottom margin 25; the flush inside
    the word loop draws without the test [y >= margin] that guards the draw
    after the loop. *)
Theorem overlay_low_page_draws_below_margin :
  overlayPage sampleFont lowSheet (Some (twentyLetters ++ lit " " ++ twentyLetters)) []
    = (Returned tt, [drawLine twentyLetters 15]) /\
  15 < margin.
Proof. split; vm_compute; reflexivity. Qed.

(** *** Texts of one and of two words, under any font *)

Lemma splitWs_word (word : jsstring) :
  Forall (fun c => is_ws c = false) word ->
  forall (cur rest : jsstring),
    splitWs false cur (word ++ rest) = splitWs false (rev word ++ cur) rest.
Proof.
  induction 1 as [|c word Hc _ IH]; intros cur rest; [reflexivity|].
  simpl. rewrite Hc, IH, <- app_assoc. reflexivity.
Qed.

Lemma splitWs_first (insep : bool) (c : N) (cur rest : jsstring) :
  is_ws c = false -> splitWs insep cur (c :: rest) = splitWs false (c :: cur) rest.
Proof. intros Hc. simpl. by rewrite Hc. Qed.

Lemma wordsOfParagraph_one (word : jsstring) :
  word <> [] -> Forall (fun c => is_ws c = false) word ->
  wordsOfParagraph word = [word].
Proof.
  intros Hne Hword. unfold wordsOfParagraph.
  rewrite <- (app_nil_r word) at 1. rewrite (splitWs_word word Hword). simpl.
  rewrite app_nil_r, rev_involutive. by destruct word.
Qed.

Lemma wordsOfParagraph_two (w1 w2 : jsstring) :
  w1 <> [] -> Forall (fun c => is_ws c = false) w1 ->
  w2 <> [] -> Forall (fun c => is_ws c = false) w2 ->
  wordsOfParagraph (w1 ++ lit " " ++ w2) = [w1; w2].
Proof.
  intros Hne1 Hw1 Hne2 Hw2. unfold wordsOfParagraph.
  rewrite (splitWs_word w1 Hw1). simpl.
  rewrite app_nil_r, rev_involutive.
  destruct w2 as [|c w2]; [done|]. inversion Hw2 as [|? ? Hc Hw2']; subst.
  rewrite (splitWs_first true c [] w2 Hc).
  rewrite <- (app_nil_r w2). rewrite (splitWs_word w2 Hw2'). simpl.
  rewrite rev_app_distr, rev_involutive. simpl.
  rewrite app_nil_r. by destruct w1.
Qed.

Lemma splitBlank_one_paragraph (text : jsstring) :
  Forall (fun c => c <> 10%N) text ->
  forall cur, splitBlank false cur text = [rev cur ++ text].
Proof.
  induction 1 as [|c text Hc _ IH]; intros cur; simpl.
  - by rewrite app_nil_r.
  - apply N.eqb_neq in Hc. rewrite Hc, IH. simpl. by rewrite <- app_assoc.
Qed.

Lemma no_blank_no_newline (text : jsstring) :
  Forall (fun c => is_ws c = false) text -> Forall (fun c => c <> 10%N) text.
Proof.
  intros H. eapply Forall_impl; [exact H|]. simpl. intros c Hc ->. discriminate Hc.
Qed.

(** The paragraph loop on a text of one paragraph. *)
Lemma layoutParagraphs_one (font : Font) (maxWidth : Q) (paragraph : jsstring)
    (y : Q) (ops : list DrawText) :
  layoutParagraphs font maxWidth [paragraph] y ops =
  match wrapWords font maxWidth (wordsOfParagraph paragraph) [] y ops with
  | (Thrown e, ops1) => (Thrown e, ops1)
  | (Returned (line, y1), ops1) =>
      if truthy line && Qle_bool margin y1 then
        match encodeText font line with
        | Thrown e => (Thrown e, ops1)
        | Returned _ => (Returned tt, ops1 ++ [drawLine line y1])
        end
      else (Returned tt, ops1)
  end.
Proof.
  rewrite layoutParagraphs_cons.
  destruct (wrapWords font maxWidth (wordsOfParagraph paragraph) [] y ops)
    as [[[line y1]|e] ops1]; [|reflexivity].
  destruct (truthy line && Qle_bool margin y1).
  - destruct (encodeText font line); [|reflexivity]. by destruct (Qltb _ margin).
  - by destruct (Qltb _ margin).
Qed.

(** A text of a single word is measured once and, when the font can encode
    it, drawn as one line at the top of the page, whatever its width. *)
Lemma overlayPage_single_word (font : Font) (page : SourcePage) (word : jsstring) :
  word <> [] -> Forall (fun c => is_ws c = false) word ->
  overlayPage font page (Some word) [] =
  match widthOfTextAtSize font word fontSize with
  | Thrown e => (Thrown e, [])
  | Returned _ =>
      if Qle_bool margin (binary64 (height page - margin)) then
        match encodeText font word with
        | Thrown e => (Thrown e, [])
        | Returned _ => (Returned tt, [drawLine word (binary64 (height page - margin))])
        end
      else (Returned tt, [])
  end.
Proof.
  intros Hne Hword. unfold overlayPage.
  assert (falsy word = false) as -> by (by destruct word).
  assert (truthy word = true) as Htruthy by (by destruct word).
  rewrite (splitBlank_one_paragraph word (no_blank_no_newline word Hword)).
  change (rev [] ++ word) with word.
  rewrite layoutParagraphs_one, (wordsOfParagraph_one word Hne Hword), wrapWords_cons.
  cbv zeta. change (truthy []) with false. cbv iota.
  destruct (widthOfTextAtSize font word fontSize) as [textWidth|e]; [|reflexivity].
  assert (wrapWords font (binary64 (width page - binary64 (margin * 2))) [] word
            (binary64 (height page - margin)) []
          = (Returned (word, binary64 (height page - margin)), [])) as Hend
    by reflexivity.
  destruct (Qle_bool textWidth _).
  - rewrite Hend, Htruthy. reflexivity.
  - destruct (Qltb (binary64 (height page - margin)) breakLevel);
      [|rewrite Hend]; rewrite Htruthy; reflexivity.
Qed.

(** Two words that do not fit on one line: once the font has encoded the
    first word it is drawn at [height - margin], whether or not that is above
    the bottom margin. *)
Lemma overlayPage_flush_unguarded (font : Font) (page : SourcePage) (w1 w2 : jsstring)
    (a b : Q) :
  w1 <> [] -> Forall (fun c => is_ws c = false) w1 ->
  w2 <> [] -> Forall (fun c => is_ws c = false) w2 ->
  widthOfTextAtSize font w1 fontSize = Returned a ->
  a <= binary64 (width page - binary64 (margin * 2)) ->
  widthOfTextAtSize font (w1 ++ lit " " ++ w2) fontSize = Returned b ->
  binary64 (width page - binary64 (margin * 2)) < b ->
  encodeText font w1 = Returned tt ->
  exists outcome more,
    overlayPage font page (Some (w1 ++ lit " " ++ w2)) []
    = (outcome, drawLine w1 (binary64 (height page - margin)) :: more).
Proof.
  intros Hne1 Hw1 Hne2 Hw2 Ha Hfit Hb Hover Henc. unfold overlayPage.
  assert (falsy (w1 ++ lit " " ++ w2) = false) as -> by (by destruct w1).
  rewrite splitBlank_one_paragraph.
  2:{ apply Forall_app. split; [by apply no_blank_no_newline|].
      constructor; [discriminate|by apply no_blank_no_newline]. }
  change (rev [] ++ w1 ++ lit " " ++ w2) with (w1 ++ lit " " ++ w2).
  rewrite layoutParagraphs_one, (wordsOfParagraph_two w1 w2 Hne1 Hw1 Hne2 Hw2).
  rewrite wrapWords_cons. cbv zeta.
  change (truthy []) with false. cbv iota. rewrite Ha.
  assert (Qle_bool a (binary64 (width page - binary64 (margin * 2))) = true)
    as -> by (by apply Qle_bool_iff).
  rewrite wrapWords_cons. cbv zeta.
  assert (truthy w1 = true) as -> by (by destruct w1).
  rewrite Hb.
  assert (Qle_bool b (binary64 (width page - binary64 (margin * 2))) = false) as ->.
  { destruct (Qle_bool _ _) eqn:E; [|reflexivity].
    apply Qle_bool_iff in E. exfalso. apply (Qlt_not_le _ _ Hover E). }
  rewrite Henc. set (y := binary64 (height page - margin)).
  assert (wrapWords font (binary64 (width page - binary64 (margin * 2))) [] w2
            (binary64 (y - lineHeight)) ([] ++ [drawLine w1 y])
          = (Returned (w2, binary64 (y - lineHeight)), [drawLine w1 y])) as Hend
    by reflexivity.
  destruct (Qltb (binary64 (y - lineHeight)) breakLevel); [|rewrite Hend];
    destruct (truthy w2 && Qle_bool margin (binary64 (y - lineHeight)));
    try destruct (encodeText font w2); by eexists _, _.
Qed.

(** ** Pages without translated text *)

Lemma overlayPage_empty (font : Font) (page : SourcePage) :
  overlayPage font page None [] = (Returned tt, []) /\
  overlayPage font page (Some []) [] = (Returned tt, []).
Proof. by split. Qed.

(** A document that is assembled has the pages of the original, in order,
    each with the lines its overlay drew. *)
Lemma addPages_spec (font : Font) (translatedTexts : list jsstring)
    (pages : list SourcePage) :
  forall (index : nat) (document : list OutPage),
    addPages font translatedTexts index pages = Returned document ->
    List.map copied document = pages /\
    forall (i : nat) (page : SourcePage),
      pages !! i = Some page ->
      exists ops,
        overlayPage font page (translatedTexts !! (index + i)%nat) [] = (Returned tt, ops) /\
        document !! i = Some {| copied := page; drawn := ops |}.
Proof.
  induction pages as [|p ps IH]; intros index document Hrun; simpl in Hrun.
  - injection Hrun as <-. split; [reflexivity|]. intros i page H. discriminate H.
  - destruct (overlayPage font p (translatedTexts !! index) []) as [[[]|e] ops] eqn:Epage;
      [|discriminate Hrun].
    destruct (addPages font translatedTexts (S index) ps) as [out|e] eqn:Erest;
      [|discriminate Hrun].
    injection Hrun as <-. destruct (IH (S index) out Erest) as [Hcopied Hpages].
    split; [simpl; by rewrite Hcopied|].
    intros [|i] page Hi; simpl in Hi.
    + injection Hi as <-. exists ops. rewrite Nat.add_0_r. by split.
    + destruct (Hpages i page Hi) as (ops' & Hov & Hdoc).
      exists ops'. rewrite Nat.add_succ_r. by split.
Qed.

Lemma assemble_copied (font : Font) (sourcePages : list SourcePage)
    (translatedTexts : list jsstring) (document : list OutPage) :
  assemble font sourcePages translatedTexts = Returned document ->
  List.map copied document = sourcePages.
Proof. intros Hrun. by destruct (addPages_spec _ _ _ _ _ Hrun). Qed.

(** C8. On a page whose translated text is empty (or that has no translated
    text at all) the overlay ends without measuring or drawing anything; in
    the assembled document the page is the page copied from the original
    with nothing drawn on it; and every output page, whatever its text, is
    the copy of the original page at the same index, so the output has the
    pages of the original, in order. *)
Theorem empty_translation_draws_nothing (font : Font) (sourcePages : list SourcePage)
    (translatedTexts : list jsstring) (index : nat) (page : SourcePage)
    (Hpage : sourcePages !! index = Some page)
    (Hempty : translatedTexts !! index = Some [] \/ translatedTexts !! index = None) :
  overlayPage font page (translatedTexts !! index) [] = (Returned tt, []) /\
  forall document,
    assemble font sourcePages translatedTexts = Returned document ->
    document !! index = Some {| copied := page; drawn := [] |} /\
    List.map copied document = sourcePages.
Proof.
  assert (overlayPage font page (translatedTexts !! index) [] = (Returned tt, []))
    as Hnothing by (destruct Hempty as [-> | ->]; reflexivity).
  split; [exact Hnothing|]. intros document Hrun.
  destruct (addPages_spec _ _ _ _ _ Hrun) as [Hcopied Hpages].
  split; [|exact Hcopied].
  destruct (Hpages index page Hpage) as (ops & Hov & Hdoc).
  simpl in Hov. rewrite Hnothing in Hov. injection Hov as <-. exact Hdoc.
Qed.

(** Two pages, the second without text: it is copied and left as it was. *)
Lemma empty_translation_draws_nothing_witness :
  exists document,
    assemble sampleFont [a4; lowSheet] [lit "Hello"; []] = Returned document /\
    document !! 1%nat = Some {| copied := lowSheet; drawn := [] |} /\
    List.map copied document = [a4; lowSheet].
Proof.
  destruct (empty_translation_draws_nothing sampleFont [a4; lowSheet]
              [lit "Hello"; []] 1 lowSheet eq_refl (or_introl eq_refl)) as [_ Hdoc].
  eexists. split; [vm_compute; reflexivity|].
  apply Hdoc. vm_compute. reflexivity.
Defined.

(** ** The job cache *)

Lemma timersOf_delete_other (jobId other : jsstring) (ts : list (N * jsstring))
    (i : nat) (due : N) :
  ts !! i = Some (due, other) -> other <> jobId ->
  timersOf jobId (delete i ts) = timersOf jobId ts.
Proof.
  intros Hi Hne. rewrite <- (take_drop_middle ts i _ Hi) at 2.
  rewrite delete_take_drop. unfold timersOf.
  rewrite !List.filter_app. simpl.
  by rewrite bool_decide_eq_false_2.
Qed.

Lemma timersOf_delete_only (jobId : jsstring) (ts : list (N * jsstring))
    (i : nat) (due due' : N) :
  ts !! i = Some (due, jobId) -> timersOf jobId ts = [(due', jobId)] ->
  timersOf jobId (delete i ts) = [] /\ due = due'.
Proof.
  intros Hi Hone. rewrite <- (take_drop_middle ts i _ Hi) in Hone.
  rewrite delete_take_drop. unfold timersOf in *.
  rewrite !List.filter_app in *. simpl in Hone.
  rewrite bool_decide_eq_true_2 in Hone by reflexivity.
  destruct (List.filter _ (take i ts)) as [|t l].
  - simpl in *. injection Hone as -> Hdrop. by rewrite Hdrop.
  - simpl in Hone. injection Hone as _ Hl. by destruct l.
Qed.

Lemma timersOf_delete_none (jobId : jsstring) (ts : list (N * jsstring)) (i : nat) :
  timersOf jobId ts = [] -> timersOf jobId (delete i ts) = [].
Proof.
  intros Hnone. destruct (ts !! i) as [[due other]|] eqn:Hi.
  - destruct (decide (other = jobId)) as [->|Hne].
    + rewrite <- (take_drop_middle ts i _ Hi) in Hnone. unfold timersOf in Hnone.
      rewrite List.filter_app in Hnone. simpl in Hnone.
      rewrite bool_decide_eq_true_2 in Hnone by reflexivity.
      by destruct (List.filter _ (take i ts)).
    + by rewrite (timersOf_delete_other _ _ _ _ _ Hi Hne).
  - rewrite delete_take_drop.
    apply lookup_ge_None in Hi.
    rewrite take_ge, drop_ge, app_nil_r by lia. exact Hnone.
Qed.

(** What an upload does to the cache when it registers a job. *)
Lemma postTranslate_cases (env : Env) (file : option UploadedFile) (random : jsstring)
    (srv : Server) :
  (postTranslate env file random srv).1 = srv /\
  (forall j f n ex tr, (postTranslate env file random srv).2 <> JobCreated j f n ex tr)
  \/
  exists result f,
    postTranslate env file random srv =
    (registered srv random result,
     JobCreated (decimal (now srv) ++ random) f (List.length (extractedTexts result))
       (extractedTexts result) (translatedTexts result)).
Proof.
  unfold postTranslate. destruct file as [f|]; [|by left].
  destruct (negb _); [by left|].
  destruct (translatePdf env (buffer f) []) as [[result|e] s]; [|by left].
  right. by exists result, (originalname f).
Qed.

Lemma step_time (srv srv' : Server) (ev : Event) (reply : option HttpReply) :
  step srv ev = Some (srv', reply) -> (now srv <= now srv')%N.
Proof.
  destruct ev as [dt|i|env file random|j]; simpl.
  - intros [= <- _]. simpl. lia.
  - destruct (timers srv !! i) as [[due id]|]; [|discriminate].
    destruct (due <=? now srv)%N; [|discriminate]. intros [= <- _]. simpl. lia.
  - destruct (postTranslate_cases env file random srv) as [[Hsame _]|(result & f & Hreg)].
    + destruct (postTranslate env file random srv) as [s r]. simpl in Hsame.
      intros [= <- _]. subst. lia.
    + rewrite Hreg. intros [= <- _]. simpl. lia.
  - intros [= <- _]. lia.
Qed.

(** An entry that is missing stays missing as long as no upload registers
    its identifier. *)
Lemma step_missing (jobId : jsstring) (srv srv' : Server) (ev : Event)
    (reply : option HttpReply) :
  step srv ev = Some (srv', reply) ->
  registers srv ev <> Some jobId ->
  translationCache srv !! jobId = None ->
  translationCache srv' !! jobId = None.
Proof.
  unfold registers. intros Hstep Hreg Hnone. rewrite Hstep in Hreg.
  destruct ev as [dt|i|env file random|j]; simpl in Hstep.
  - by injection Hstep as <- _.
  - destruct (timers srv !! i) as [[due id]|]; [|discriminate].
    destruct (due <=? now srv)%N; [|discriminate]. injection Hstep as <- _. simpl.
    destruct (decide (id = jobId)) as [->|Hne].
    + apply lookup_delete_eq.
    + by rewrite lookup_delete_ne.
  - destruct (postTranslate_cases env file random srv) as [[Hsame _]|(result & f & Hpost)].
    + destruct (postTranslate env file random srv) as [s r]. simpl in Hsame.
      injection Hstep as <- _. by subst.
    + rewrite Hpost in Hstep. injection Hstep as <- <-. simpl.
      rewrite lookup_insert_ne; [exact Hnone|]. intros Heq. apply Hreg. by rewrite Heq.
  - by injection Hstep as <- _.
Qed.

Lemma run_missing (jobId : jsstring) (evs : list Event) :
  forall srv srv',
    run srv evs = Some srv' ->
    unused jobId srv evs ->
    translationCache srv !! jobId = None ->
    translationCache srv' !! jobId = None.
Proof.
  induction evs as [|ev evs IH]; intros srv srv' Hrun Hunused Hnone; simpl in *.
  - by injection Hrun as <-.
  - destruct Hunused as [Hreg Hrest].
    destruct (step srv ev) as [[s r]|] eqn:Hstep; [|discriminate].
    apply (IH s srv' Hrun Hrest). by apply (step_missing jobId srv s ev r).
Qed.

Lemma step_tracked (jobId : jsstring) (T : N) (entry : CacheEntry)
    (srv srv' : Server) (ev : Event) (reply : option HttpReply) :
  step srv ev = Some (srv', reply) ->
  registers srv ev <> Some jobId ->
  live jobId T entry srv \/ gone jobId T srv ->
  live jobId T entry srv' \/ gone jobId T srv'.
Proof.
  intros Hstep Hreg Hinv.
  pose proof (step_time _ _ _ _ Hstep) as Htime.
  pose proof (step_missing jobId _ _ _ _ Hstep Hreg) as Hmissing.
  unfold registers in Hreg. rewrite Hstep in Hreg.
  destruct ev as [dt|i|env file random|j]; simpl in Hstep.
  - injection Hstep as <- _. destruct Hinv as [Hlive|(Hc & Ht & Hnow)]; [by left|].
    right. repeat split; simpl in *; [done|done|lia].
  - destruct (timers srv !! i) as [[due id]|] eqn:Hi; [|discriminate].
    destruct (due <=? now srv)%N eqn:Hdue; [|discriminate].
    apply N.leb_le in Hdue. injection Hstep as <- _.
    destruct Hinv as [[Hc Ht]|(Hc & Ht & Hnow)].
    + destruct (decide (id = jobId)) as [->|Hne].
      * destruct (timersOf_delete_only _ _ _ _ _ Hi Ht) as [Hnone ->].
        right. repeat split; simpl; [apply lookup_delete_eq|exact Hnone|exact Hdue].
      * left. split; simpl.
        -- by rewrite lookup_delete_ne.
        -- by rewrite (timersOf_delete_other _ _ _ _ _ Hi Hne).
    + right. repeat split; simpl in *; [by apply Hmissing| |exact Hnow].
      by apply timersOf_delete_none.
  - destruct (postTranslate_cases env file random srv) as [[Hsame _]|(result & f & Hpost)].
    + destruct (postTranslate env file random srv) as [s r]. simpl in Hsame.
      injection Hstep as <- _. by subst.
    + rewrite Hpost in Hstep. injection Hstep as <- <-.
      assert (decimal (now srv) ++ random <> jobId) as Hne
        by (intros Heq; apply Hreg; by rewrite Heq).
      assert (timersOf jobId (timers (registered srv random result))
              = timersOf jobId (timers srv)) as Htimers.
      { simpl. unfold timersOf. rewrite List.filter_app. simpl.
        rewrite bool_decide_eq_false_2 by exact Hne. by rewrite app_nil_r. }
      destruct Hinv as [[Hc Ht]|(Hc & Ht & Hnow)].
      * left. split; [|by rewrite Htimers].
        simpl. by rewrite lookup_insert_ne.
      * right. repeat split; [by apply Hmissing|by rewrite Htimers|exact Hnow].
  - by injection Hstep as <- _.
Qed.

Lemma run_tracked (jobId : jsstring) (T : N) (entry : CacheEntry) (evs : list Event) :
  forall srv srv',
    run srv evs = Some srv' ->
    unused jobId srv evs ->
    live jobId T entry srv \/ gone jobId T srv ->
    live jobId T entry srv' \/ gone jobId T srv'.
Proof.
  induction evs as [|ev evs IH]; intros srv srv' Hrun Hunused Hinv; simpl in *.
  - by injection Hrun as <-.
  - destruct Hunused as [Hreg Hrest].
    destruct (step srv ev) as [[s r]|] eqn:Hstep; [|discriminate].
    apply (IH s srv' Hrun Hrest). by apply (step_tracked jobId T entry srv s ev r).
Qed.

Lemma getDownload_missing (jobId : jsstring) (srv : Server) :
  translationCache srv !! jobId = None ->
  getDownload jobId srv = NotFound (lit "Translation job not found or expired").
Proof. intros H. unfold getDownload. by rewrite H. Qed.

(** C9 (amended). A job registered at time [T] (under an identifier for
    which no deletion is pending, and which no later upload is given again)
    is in one of two states, whatever else happens to the server: its entry
    is cached and its deletion callback waits, and every download is served
    the stored document; or the callback has run, which it can only do from
    [T + 30 min] on, the entry is deleted and every download is answered
    not found. So every download before [T + 30 min] is served, and the
    callback is refused until then; from [T + 30 min] on the callback can run,
    and once it has run the job is not found, now and after any further
    events; but a download does not look at the clock: it is served until the
    callback has run. An identifier that is not in the cache -- never
    registered, or expired -- is reported as not found, and stays so: a
    download only reads the cache. *)
Theorem job_cache_expiry
    (srv srv1 srv2 : Server) (env : Env) (file : option UploadedFile)
    (random jobId filename : jsstring) (pageCount : nat)
    (extracted translated : list jsstring) (evs : list Event)
    (Hfresh : timersOf jobId (timers srv) = [])
    (Hpost : step srv (PostTranslate env file random)
             = Some (srv1, Some (JobCreated jobId filename pageCount extracted translated)))
    (Hunused : unused jobId srv1 evs)
    (Hrun : run srv1 evs = Some srv2) :
  exists entry,
    translationCache srv1 !! jobId = Some entry /\
    timestamp entry = now srv /\
    c_translatedTexts entry = translated /\
    ((live jobId (now srv) entry srv2 /\
      step srv2 (GetDownload jobId)
      = Some (srv2, Some (PdfBody (c_translatedPdf entry))))
     \/
     (gone jobId (now srv) srv2 /\
      step srv2 (GetDownload jobId)
      = Some (srv2, Some (NotFound (lit "Translation job not found or expired"))))) /\
    ((now srv2 < now srv + ttl)%N ->
     step srv2 (GetDownload jobId) = Some (srv2, Some (PdfBody (c_translatedPdf entry))) /\
     forall i due, timers srv2 !! i = Some (due, jobId) -> step srv2 (Timeout i) = None) /\
    ((now srv + ttl <= now srv2)%N ->
     live jobId (now srv) entry srv2 ->
     exists i srv3,
       timers srv2 !! i = Some ((now srv + ttl)%N, jobId) /\
       step srv2 (Timeout i) = Some (srv3, None) /\
       gone jobId (now srv) srv3 /\
       forall evs' srv4,
         unused jobId srv3 evs' ->
         run srv3 evs' = Some srv4 ->
         step srv4 (GetDownload jobId)
         = Some (srv4, Some (NotFound (lit "Translation job not found or expired")))) /\
    (forall other s s' evs',
        translationCache s !! other = None ->
        unused other s evs' ->
        run s evs' = Some s' ->
        step s' (GetDownload other)
        = Some (s', Some (NotFound (lit "Translation job not found or expired")))).
Proof.
  simpl in Hpost.
  destruct (postTranslate_cases env file random srv) as [[_ Hnot]|(result & f & Hreg)].
  { destruct (postTranslate env file random srv) as [s r]. simpl in Hnot.
    injection Hpost as _ ->. by destruct (Hnot jobId filename pageCount extracted translated). }
  rewrite Hreg in Hpost. injection Hpost as <- <- _ _ _ <-.
  set (jobId := decimal (now srv) ++ random) in *.
  set (entry := {| c_translatedPdf := translatedPdf result;
                   c_extractedTexts := extractedTexts result;
                   c_translatedTexts := translatedTexts result;
                   timestamp := now srv |}).
  assert (live jobId (now srv) entry (registered srv random result)) as Hlive.
  { split; simpl.
    - apply lookup_insert_eq.
    - unfold timersOf in *. rewrite List.filter_app, Hfresh. simpl.
      by rewrite bool_decide_eq_true_2. }
  pose proof (run_tracked jobId (now srv) entry evs _ _ Hrun Hunused (or_introl Hlive))
    as Hinv.
  assert (forall s, live jobId (now srv) entry s ->
                    forall i due, timers s !! i = Some (due, jobId) ->
                                  due = (now srv + ttl)%N) as Hdue.
  { intros s [_ Ht] i due Hi.
    assert (In (due, jobId) (timersOf jobId (timers s))) as Hin.
    { apply List.filter_In. split.
      - apply list_elem_of_In. by apply (list_elem_of_lookup_2 _ i).
      - by apply bool_decide_eq_true_2. }
    rewrite Ht in Hin. destruct Hin as [[= <-]|[]]. reflexivity. }
  exists entry. split; [apply lookup_insert_eq|]. split; [reflexivity|].
  split; [reflexivity|]. split; [|split; [|split]].
  - destruct Hinv as [Hl|Hg].
    + left. split; [exact Hl|]. simpl. unfold getDownload. destruct Hl as [Hc _].
      by rewrite Hc.
    + right. split; [exact Hg|]. simpl. destruct Hg as (Hc & _ & _).
      by rewrite getDownload_missing.
  - intros Hbefore.
    destruct Hinv as [Hl|(_ & _ & Hnow)]; [|lia]. split.
    + simpl. unfold getDownload. destruct Hl as [Hc _]. by rewrite Hc.
    + intros i due Hi. simpl. rewrite Hi, (Hdue srv2 Hl i due Hi).
      by apply N.leb_gt in Hbefore as ->.
  - intros Hafter Hl. destruct Hl as [Hc Ht].
    assert (exists i, timers srv2 !! i = Some ((now srv + ttl)%N, jobId)) as [i Hi].
    { apply list_elem_of_lookup_1, list_elem_of_In.
      assert (In ((now srv + ttl)%N, jobId) (timersOf jobId (timers srv2))) as Hin
        by (rewrite Ht; by left).
      by apply List.filter_In in Hin as [Hin _]. }
    destruct (timersOf_delete_only _ _ _ _ _ Hi Ht) as [Hnone _].
    exists i, {| now := now srv2;
                 translationCache := delete jobId (translationCache srv2);
                 timers := delete i (timers srv2) |}.
    split; [exact Hi|]. split; [|split].
    + simpl. rewrite Hi. by apply N.leb_le in Hafter as ->.
    + split; [apply lookup_delete_eq|]. by split.
    + intros evs' srv4 Hun Hrun'. simpl.
      rewrite (getDownload_missing jobId srv4); [reflexivity|].
      apply (run_missing jobId evs' _ srv4 Hrun' Hun). apply lookup_delete_eq.
  - intros other s s' evs' Hnone Hun Hrun'. simpl.
    by rewrite (getDownload_missing other s' (run_missing other evs' s s' Hrun' Hun Hnone)).
Qed.

(** The uploaded job is served at once, and its callback is refused; thirty
    minutes and a millisecond later the callback runs, and the job is not
    found from then on. *)
Lemma job_cache_expiry_witness :
  (exists pdf,
      step afterUpload (GetDownload (lit "1700000000000k3x9z"))
      = Some (afterUpload, Some (PdfBody pdf))) /\
  step afterUpload (Timeout 0) = None /\
  exists i srv3,
    step overdue (Timeout i) = Some (srv3, None) /\
    step srv3 (GetDownload (lit "1700000000000k3x9z"))
    = Some (srv3, Some (NotFound (lit "Translation job not found or expired"))).
Proof.
  destruct (job_cache_expiry (initialServer 1700000000000) afterUpload afterUpload
              offlineEnv (Some scanFile) (lit "k3x9z") (lit "1700000000000k3x9z")
              (lit "scan.pdf") 1 [scannedText]
              [lit "[Translation failed: FetchError: network down]"] [])
    as (entry & _ & _ & _ & _ & Hbefore & _).
  { reflexivity. }
  { vm_compute. reflexivity. }
  { exact I. }
  { reflexivity. }
  destruct Hbefore as [Hserved Hrefused]; [vm_compute; reflexivity|].
  split; [by exists (c_translatedPdf entry)|].
  split; [apply (Hrefused 0%nat (1700001800000)%N); reflexivity|].
  destruct (job_cache_expiry (initialServer 1700000000000) afterUpload overdue
              offlineEnv (Some scanFile) (lit "k3x9z") (lit "1700000000000k3x9z")
              (lit "scan.pdf") 1 [scannedText]
              [lit "[Translation failed: FetchError: network down]"] [Elapse 1800001])
    as (entry' & Hentry & _ & _ & _ & _ & Hafter & _).
  { reflexivity. }
  { vm_compute. reflexivity. }
  { vm_compute. split; [intros H; discriminate H|exact I]. }
  { reflexivity. }
  destruct Hafter as (i & srv3 & _ & Hstep & _ & Hgone).
  { vm_compute. intros H. discriminate H. }
  { split; [exact Hentry|vm_compute; reflexivity]. }
  exists i, srv3. split; [exact Hstep|].
  apply (Hgone [] srv3); [exact I|reflexivity].
Defined.

(** C9, as stated, fails after the thirty minutes: one millisecond after
    them, with the deletion callback due and not yet run, the download of the
    job is served the stored document. *)
Lemma job_served_after_ttl :
  run afterUpload [Elapse 1800001] = Some overdue /\
  (timestamp <$> translationCache afterUpload !! lit "1700000000000k3x9z")
  = Some 1700000000000%N /\
  (1700000000000 + ttl < now overdue)%N /\
  exists entry,
    translationCache afterUpload !! lit "1700000000000k3x9z" = Some entry /\
    step overdue (GetDownload (lit "1700000000000k3x9z"))
    = Some (overdue, Some (PdfBody (c_translatedPdf entry))).
Proof.
  split; [vm_compute; reflexivity|]. split; [vm_compute; reflexivity|].
  split; [vm_compute; reflexivity|].
  eexists. split; vm_compute; reflexivity.
Qed.

(* ------------------------------------------------------------------------ *)
(** * Further properties of the server *)

(** ** Requests sent to the translation endpoint *)

Lemma translateWithHuggingFace_sent (translator : Endpoint) (text : jsstring)
    (sent : list jsstring) :
  (translateWithHuggingFace translator text sent).2 =
  if falsy text || (List.length (trim text) =? 0)%nat then sent else sent ++ [text].
Proof.
  unfold translateWithHuggingFace.
  destruct (falsy text || (List.length (trim text) =? 0)%nat); [reflexivity|].
  unfold bind, fetchTranslation.
  destruct (translator sent text) as [e|r]; [reflexivity|].
  destruct (ok r); simpl.
  - unfold bind, await. destruct (bodyJson r) as [result|e]; [|reflexivity].
    destruct result as [| | | |items|fields]; try reflexivity.
    + destruct items as [|first others]; [reflexivity|].
      destruct (translationTextOf first) as [t|]; [|reflexivity].
      by destruct (jsonTruthy t).
    + destruct (getField (lit "generated_text") fields) as [v|]; [|reflexivity].
      by destruct v.
  - unfold bind, await. by destruct (bodyText r).
Qed.

Lemma translatePage_sent (translator : Endpoint) (pageText : jsstring)
    (sent : list jsstring) :
  (translatePage translator pageText sent).2 =
  sent ++ match requestOf pageText with Some request => [request] | None => [] end.
Proof.
  unfold translatePage, requestOf.
  destruct (truthy pageText && (minChars <? List.length (trim pageText))%nat);
    [|simpl; by rewrite app_nil_r].
  pose proof (translateWithHuggingFace_sent translator (cleanMarkdown pageText) sent)
    as Hsent.
  unfold tryCatch, tryTranslate, bind.
  destruct (translateWithHuggingFace translator (cleanMarkdown pageText) sent)
    as [[translated|e] s]; simpl in Hsent; subst s.
  - destruct (falsy (cleanMarkdown pageText) || _);
      destruct translated; simpl; by rewrite ?app_nil_r.
  - destruct (falsy (cleanMarkdown pageText) || _); simpl; by rewrite ?app_nil_r.
Qed.

(** The loop returns and sends the requests of its pages, whatever it has
    collected so far. *)
Lemma translatePages_sends (translator : Endpoint) (ocrPages : list OcrPage) :
  forall (ex tr sent : list jsstring),
  exists texts,
    translatePages translator ocrPages ex tr sent
    = (Returned texts, sent ++ requestsOf ocrPages).
Proof.
  induction ocrPages as [|page rest IH]; intros ex tr s.
  - exists (ex, tr). simpl. unfold ret. by rewrite app_nil_r.
  - destruct (translatePage_returns translator (markdown page) s) as (t & s' & Ht).
    pose proof (translatePage_sent translator (markdown page) s) as Hs.
    rewrite Ht in Hs. simpl in Hs. subst s'.
    destruct (IH (ex ++ [markdown page]) (tr ++ [t])
                (s ++ match requestOf (markdown page) with
                      | Some request => [request] | None => [] end))
      as (texts & Hrun).
    exists texts. rewrite (translatePages_cons _ _ _ _ _ _ _ _ Ht), Hrun.
    unfold requestsOf. simpl.
    destruct (requestOf (markdown page)); simpl; by rewrite <- app_assoc.
Qed.

(** X4. The loop sends the translation endpoint exactly the cleaned texts of
    the pages that have more than ten characters (trimmed) and whose cleaned
    text is not blank, in page order, one request per such page: nothing is
    sent for the other pages, nothing is sent twice, and the text as
    recognised is never sent as it is. *)
Theorem translatePages_requests (translator : Endpoint) (ocrPages : list OcrPage)
    (sent : list jsstring) :
  exists texts,
    translatePages translator ocrPages [] [] sent
    = (Returned texts, sent ++ requestsOf ocrPages).
Proof. apply translatePages_sends. Qed.

(** ** What ends a job *)

(** X3. When the OCR service fails, the upload is answered 500 with the
    message "OCR processing failed: " followed by the service's message; no
    translation request has been sent and the server is left as it was. *)
Theorem upload_ocr_failure (env : Env) (file : UploadedFile) (random : jsstring)
    (srv : Server) (sent : list jsstring) (error : JsError)
    (Hmime : mimetype file = lit "application/pdf")
    (Hocr : ocrProcess env (buffer file) = Thrown error) :
  translatePdf env (buffer file) sent =
    (Thrown (newError (lit "OCR processing failed: " ++ e_message error)), sent) /\
  postTranslate env (Some file) random srv =
    (srv, ServerError (lit "OCR processing failed: " ++ e_message error)).
Proof.
  assert (forall s, translatePdf env (buffer file) s =
            (Thrown (newError (lit "OCR processing failed: " ++ e_message error)), s))
    as Hpdf.
  { intros s. unfold translatePdf, bind, await, extractTextWithMistralOCR.
    by rewrite Hocr. }
  split; [apply Hpdf|].
  unfold postTranslate. rewrite bool_decide_eq_true_2 by exact Hmime. simpl.
  by rewrite Hpdf.
Qed.

Lemma upload_ocr_failure_witness :
  translatePdf noOcrEnv (buffer scanFile) [] =
    (Thrown (newError (lit "OCR processing failed: 401")), []) /\
  postTranslate noOcrEnv (Some scanFile) (lit "k3x9z") (initialServer 0) =
    (initialServer 0, ServerError (lit "OCR processing failed: 401")).
Proof.
  apply (upload_ocr_failure noOcrEnv scanFile (lit "k3x9z") (initialServer 0) []
           {| e_name := lit "SDKError"; e_message := lit "401" |}); reflexivity.
Defined.

(** X5. When the uploaded document cannot be loaded for the overlay, the
    upload is answered 500 with the loader's message and the server is left as
    it was; this happens only after the whole translation loop has run, so
    every translation request of the document has been sent by then. *)
Theorem upload_load_failure (env : Env) (file : UploadedFile) (random : jsstring)
    (srv : Server) (sent : list jsstring) (ocrResult : OcrResult) (error : JsError)
    (Hmime : mimetype file = lit "application/pdf")
    (Hocr : extractTextWithMistralOCR (ocrProcess env) (buffer file) = Returned ocrResult)
    (Hload : loadPdf env (buffer file) = Thrown error) :
  translatePdf env (buffer file) sent =
    (Thrown error, sent ++ requestsOf (pages ocrResult)) /\
  postTranslate env (Some file) random srv = (srv, ServerError (e_message error)).
Proof.
  assert (forall s, translatePdf env (buffer file) s =
            (Thrown error, s ++ requestsOf (pages ocrResult))) as Hpdf.
  { intros s.
    destruct (translatePages_sends (endpoint env) (pages ocrResult) [] [] s)
      as (texts & Hrun).
    unfold translatePdf, bind, await. by rewrite Hocr, Hrun, Hload. }
  split; [apply Hpdf|].
  unfold postTranslate. rewrite bool_decide_eq_true_2 by exact Hmime. simpl.
  by rewrite Hpdf.
Qed.

Lemma upload_load_failure_witness :
  translatePdf noLoadEnv (buffer scanFile) [] =
    (Thrown (newError (lit "No PDF header found")), [lit "A page of scanned text"]) /\
  postTranslate noLoadEnv (Some scanFile) (lit "k3x9z") (initialServer 0) =
    (initialServer 0, ServerError (lit "No PDF header found")).
Proof.
  apply (upload_load_failure noLoadEnv scanFile (lit "k3x9z") (initialServer 0) []
           {| pages := [{| markdown := scannedText; pageNumber := 1 |}];
              totalPages := 1 |}
           (newError (lit "No PDF header found"))); reflexivity.
Defined.

(** ** Replies of the upload route *)

(** X1. An upload that is not answered with a job is answered 400 or 500 and
    leaves the cache and the pending callbacks as they were: nothing partial
    is ever cached. A request without a file, or with a file whose type is not
    [application/pdf], is answered 400 whatever the services would do. *)
Theorem upload_error_caches_nothing (env : Env) (file : option UploadedFile)
    (random : jsstring) (srv srv' : Server) (reply : HttpReply)
    (Hpost : postTranslate env file random srv = (srv', reply))
    (Herror : forall jobId filename n ex tr, reply <> JobCreated jobId filename n ex tr) :
  srv' = srv /\
  ((exists message, reply = BadRequest message) \/
   (exists message, reply = ServerError message)) /\
  (file = None -> reply = BadRequest (lit "No file uploaded")) /\
  (forall f, file = Some f -> mimetype f <> lit "application/pdf" ->
             reply = BadRequest (lit "File must be a PDF")).
Proof.
  unfold postTranslate in Hpost.
  destruct file as [f|].
  - destruct (bool_decide (mimetype f = lit "application/pdf")) eqn:Emime; simpl in Hpost.
    + apply bool_decide_eq_true_1 in Emime.
      destruct (translatePdf env (buffer f) []) as [[result|e] s].
      * injection Hpost as <- <-. by destruct (Herror _ _ _ _ _ eq_refl).
      * injection Hpost as <- <-. split; [reflexivity|]. split; [right; by eexists|].
        split; [discriminate|]. by intros f' [= <-] Hne.
    + injection Hpost as <- <-. split; [reflexivity|]. split; [left; by eexists|].
      split; [discriminate|]. by intros.
  - injection Hpost as <- <-. split; [reflexivity|]. split; [left; by eexists|].
    split; [reflexivity|]. discriminate.
Qed.

Lemma upload_error_caches_nothing_witness :
  afterUpload = afterUpload /\
  ((exists message, BadRequest (lit "File must be a PDF") = BadRequest message) \/
   (exists message, BadRequest (lit "File must be a PDF") = ServerError message)) /\
  (Some textFile = None ->
   BadRequest (lit "File must be a PDF") = BadRequest (lit "No file uploaded")) /\
  (forall f, Some textFile = Some f -> mimetype f <> lit "application/pdf" ->
             BadRequest (lit "File must be a PDF") = BadRequest (lit "File must be a PDF")).
Proof.
  apply (upload_error_caches_nothing offlineEnv (Some textFile) (lit "q") afterUpload).
  - reflexivity.
  - discriminate.
Defined.

(** X2. An upload that is answered with a job: the job identifier is the
    clock reading followed by the random suffix, the file name is the
    uploaded one, the page count is the number of extracted texts, which is
    also the number of translated texts; the cache holds these texts under the
    identifier, a deletion callback is appended for thirty minutes later, a
    download of the identifier returns the cached document, and that document
    has exactly the pages of the uploaded one, in order, however many texts
    there are. *)
Theorem upload_reply_consistent (env : Env) (file : option UploadedFile)
    (random : jsstring) (srv srv' : Server)
    (jobId filename : jsstring) (n : nat) (ex tr : list jsstring)
    (Hpost : postTranslate env file random srv
             = (srv', JobCreated jobId filename n ex tr)) :
  jobId = decimal (now srv) ++ random /\
  n = List.length ex /\
  List.length tr = List.length ex /\
  now srv' = now srv /\
  timers srv' = timers srv ++ [((now srv + ttl)%N, jobId)] /\
  exists f entry sourcePages,
    file = Some f /\ filename = originalname f /\
    loadPdf env (buffer f) = Returned sourcePages /\
    translationCache srv' = <[jobId := entry]> (translationCache srv) /\
    c_extractedTexts entry = ex /\
    c_translatedTexts entry = tr /\
    timestamp entry = now srv /\
    List.map copied (c_translatedPdf entry) = sourcePages /\
    getDownload jobId srv' = PdfBody (c_translatedPdf entry).
Proof.
  unfold postTranslate in Hpost.
  destruct file as [f|]; [|discriminate].
  destruct (negb _); [discriminate|].
  destruct (translatePdf env (buffer f) []) as [[result|e] s] eqn:Hpdf; [|discriminate].
  injection Hpost as <- <- <- <- <- <-.
  destruct (translatePdf_loop env (buffer f) [] s result Hpdf)
    as (ocrResult & sourcePages & Hocr & Hload & Hloop & Hdoc).
  destruct (translatePages_returns (endpoint env) (pages ocrResult) [] [] [])
    as (ts & s' & Hrun & Hlen).
  rewrite Hrun in Hloop. simpl in Hloop. injection Hloop as Hex Htr _.
  split; [reflexivity|]. split; [reflexivity|].
  split; [by rewrite <- Hex, <- Htr, List.length_map|].
  split; [reflexivity|]. split; [reflexivity|].
  eexists f, _, sourcePages.
  split; [reflexivity|]. split; [reflexivity|]. split; [exact Hload|].
  split; [reflexivity|]. simpl.
  split; [reflexivity|]. split; [reflexivity|]. split; [reflexivity|].
  split.
  - eapply assemble_copied. exact Hdoc.
  - unfold getDownload. simpl. by rewrite lookup_insert_eq.
Qed.

Lemma upload_reply_consistent_witness :
  lit "1700000000000k3x9z" = decimal (now (initialServer 1700000000000)) ++ lit "k3x9z" /\
  1%nat = List.length [scannedText] /\
  List.length [lit "[Translation failed: FetchError: network down]"]
    = List.length [scannedText] /\
  now afterUpload = now (initialServer 1700000000000) /\
  timers afterUpload
    = timers (initialServer 1700000000000)
      ++ [((now (initialServer 1700000000000) + ttl)%N, lit "1700000000000k3x9z")] /\
  exists f entry sourcePages,
    Some scanFile = Some f /\ lit "scan.pdf" = originalname f /\
    loadPdf offlineEnv (buffer f) = Returned sourcePages /\
    translationCache afterUpload
      = <[lit "1700000000000k3x9z" := entry]>
          (translationCache (initialServer 1700000000000)) /\
    c_extractedTexts entry = [scannedText] /\
    c_translatedTexts entry = [lit "[Translation failed: FetchError: network down]"] /\
    timestamp entry = now (initialServer 1700000000000) /\
    List.map copied (c_translatedPdf entry) = sourcePages /\
    getDownload (lit "1700000000000k3x9z") afterUpload = PdfBody (c_translatedPdf entry).
Proof.
  apply (upload_reply_consistent offlineEnv (Some scanFile) (lit "k3x9z")
           (initialServer 1700000000000) afterUpload).
  vm_compute. reflexivity.
Defined.

(** ** An invariant of the job cache *)

Lemma In_delete_other {A : Type} (l : list A) (i : nat) (x y : A) :
  In x l -> l !! i = Some y -> x <> y -> In x (delete i l).
Proof.
  intros Hx Hi Hne. rewrite <- (take_drop_middle l i y Hi) in Hx.
  rewrite delete_take_drop. apply List.in_app_iff.
  apply List.in_app_iff in Hx as [Hx|[Hx|Hx]]; [by left|congruence|by right].
Qed.

Lemma serverInvariant_step (srv srv' : Server) (ev : Event) (reply : option HttpReply) :
  step srv ev = Some (srv', reply) -> serverInvariant srv -> serverInvariant srv'.
Proof.
  intros Hstep (Hcovered & Hdue & Hsorted & Hstamp).
  destruct ev as [dt|i|env file random|j]; simpl in Hstep.
  - injection Hstep as <- _. repeat split; simpl; try assumption.
    + eapply Forall_impl; [exact Hdue|]. simpl. intros t Ht. lia.
    + intros jobId entry Hentry. specialize (Hstamp jobId entry Hentry). lia.
  - destruct (timers srv !! i) as [[due id]|] eqn:Hi; [|discriminate].
    destruct (due <=? now srv)%N; [|discriminate]. injection Hstep as <- _.
    repeat split; simpl.
    + intros jobId Hsome. destruct (decide (id = jobId)) as [->|Hne].
      * rewrite lookup_delete_eq in Hsome. by destruct Hsome.
      * rewrite lookup_delete_ne in Hsome by exact Hne.
        destruct (Hcovered jobId Hsome) as [d Hin]. exists d.
        apply (In_delete_other _ _ _ _ Hin Hi). congruence.
    + by apply Forall_delete.
    + rewrite delete_take_drop. rewrite <- (take_drop_middle _ _ _ Hi) in Hsorted.
      apply StronglySorted_app in Hsorted as (Hcross & Htake & Hdrop).
      apply StronglySorted_app_2; [|exact Htake|].
      * intros a b Ha Hb. apply Hcross; [exact Ha|]. by right.
      * by apply StronglySorted_cons in Hdrop as [_ Hdrop].
    + intros jobId entry Hentry. apply (Hstamp jobId entry).
      destruct (decide (id = jobId)) as [->|Hne].
      * by rewrite lookup_delete_eq in Hentry.
      * by rewrite lookup_delete_ne in Hentry.
  - destruct (postTranslate_cases env file random srv) as [[Hsame _]|(result & f & Hpost)].
    + destruct (postTranslate env file random srv) as [s r]. simpl in Hsame.
      injection Hstep as <- _. by subst.
    + rewrite Hpost in Hstep. injection Hstep as <- _.
      repeat split; simpl.
      * intros jobId Hsome.
        destruct (decide (decimal (now srv) ++ random = jobId)) as [<-|Hne].
        -- exists (now srv + ttl)%N. apply List.in_app_iff. right. by left.
        -- rewrite lookup_insert_ne in Hsome by exact Hne.
           destruct (Hcovered jobId Hsome) as [d Hin]. exists d.
           apply List.in_app_iff. by left.
      * apply Forall_app. split; [exact Hdue|]. constructor; [simpl; lia|constructor].
      * apply StronglySorted_app_2; [|exact Hsorted|by repeat constructor].
        intros a b Ha Hb. apply list_elem_of_singleton in Hb as ->. simpl.
        rewrite List.Forall_forall in Hdue. apply Hdue. by apply list_elem_of_In.
      * intros jobId entry Hentry.
        destruct (decide (decimal (now srv) ++ random = jobId)) as [<-|Hne].
        -- rewrite lookup_insert_eq in Hentry. injection Hentry as <-. simpl. lia.
        -- rewrite lookup_insert_ne in Hentry by exact Hne. by apply (Hstamp jobId).
  - by injection Hstep as <- _.
Qed.

(** X6. In every state the server reaches from its start, whatever uploads,
    downloads, callbacks and delays got it there: each job in the cache has a
    deletion callback pending (no job can stay for ever), every pending
    callback is due at most thirty minutes from now, the callbacks wait in the
    order of their due times, and no cached entry is stamped later than now. *)
Theorem server_invariant (start : N) (evs : list Event) (srv : Server)
    (Hrun : run (initialServer start) evs = Some srv) :
  serverInvariant srv.
Proof.
  assert (serverInvariant (initialServer start)) as Hinit.
  { split; [|split; [constructor|split; [constructor|]]]; simpl.
    - intros jobId Hsome. rewrite lookup_empty in Hsome. by destruct Hsome.
    - intros jobId entry Hentry. by rewrite lookup_empty in Hentry. }
  revert Hrun Hinit. generalize (initialServer start). revert srv.
  induction evs as [|ev evs IH]; intros srv s Hrun Hinv; simpl in Hrun.
  - by injection Hrun as <-.
  - destruct (step s ev) as [[s' r]|] eqn:Hstep; [|discriminate].
    apply (IH srv s' Hrun). by apply (serverInvariant_step s s' ev r).
Qed.

Lemma server_invariant_witness : serverInvariant afterExpiry.
Proof.
  apply (server_invariant 1700000000000
           (PostTranslate offlineEnv (Some scanFile) (lit "k3x9z") :: untilExpiry)).
  vm_compute. reflexivity.
Defined.

(** ** Two uploads under one identifier *)

(** X23. The identifier of a job is the clock reading followed by the random
    suffix and nothing else: a second upload that is registered at the same
    clock reading with the same suffix gets the identifier of the first, and
    its entry replaces the first one in the cache, so that a download of the
    identifier returns the document of the second upload and the first is
    lost; two deletion callbacks then wait for the one entry. *)
Theorem second_upload_replaces_first (env1 env2 : Env)
    (file1 file2 : option UploadedFile) (random : jsstring) (srv srv1 srv2 : Server)
    (id1 id2 name1 name2 : jsstring) (n1 n2 : nat) (ex1 ex2 tr1 tr2 : list jsstring)
    (Hfirst : postTranslate env1 file1 random srv
              = (srv1, JobCreated id1 name1 n1 ex1 tr1))
    (Hsecond : postTranslate env2 file2 random srv1
               = (srv2, JobCreated id2 name2 n2 ex2 tr2)) :
  id2 = id1 /\
  exists entry,
    translationCache srv2 = <[id1 := entry]> (translationCache srv) /\
    c_extractedTexts entry = ex2 /\
    c_translatedTexts entry = tr2 /\
    getDownload id1 srv2 = PdfBody (c_translatedPdf entry) /\
    timers srv2 = timers srv ++ [((now srv + ttl)%N, id1); ((now srv + ttl)%N, id1)].
Proof.
  destruct (postTranslate_cases env1 file1 random srv) as [[_ Hnot]|(r1 & f1 & Hreg1)].
  { rewrite Hfirst in Hnot. by destruct (Hnot id1 name1 n1 ex1 tr1). }
  rewrite Hreg1 in Hfirst. injection Hfirst as <- <- _ _ _ _.
  destruct (postTranslate_cases env2 file2 random (registered srv random r1))
    as [[_ Hnot]|(r2 & f2 & Hreg2)].
  { rewrite Hsecond in Hnot. by destruct (Hnot id2 name2 n2 ex2 tr2). }
  rewrite Hreg2 in Hsecond. injection Hsecond as <- <- _ _ <- <-.
  split; [reflexivity|]. eexists. split; [|split; [|split; [|split]]].
  - simpl. apply insert_insert_eq.
  - reflexivity.
  - reflexivity.
  - unfold getDownload. simpl. by rewrite lookup_insert_eq.
  - simpl. by rewrite <- app_assoc.
Qed.

(** A scan and a note uploaded in the same millisecond with the same random
    suffix: the download returns the note. *)
Lemma second_upload_replaces_first_witness :
  lit "1700000000000k3x9z" = lit "1700000000000k3x9z" /\
  exists entry,
    translationCache
      (postTranslate noteEnv (Some scanFile) (lit "k3x9z") afterUpload).1
    = <[lit "1700000000000k3x9z" := entry]>
        (translationCache (initialServer 1700000000000)) /\
    c_extractedTexts entry = [lit "A note"] /\
    c_translatedTexts entry = [[]] /\
    getDownload (lit "1700000000000k3x9z")
      (postTranslate noteEnv (Some scanFile) (lit "k3x9z") afterUpload).1
    = PdfBody (c_translatedPdf entry) /\
    timers (postTranslate noteEnv (Some scanFile) (lit "k3x9z") afterUpload).1
    = timers (initialServer 1700000000000)
      ++ [((now (initialServer 1700000000000) + ttl)%N, lit "1700000000000k3x9z");
          ((now (initialServer 1700000000000) + ttl)%N, lit "1700000000000k3x9z")].
Proof.
  apply (second_upload_replaces_first offlineEnv noteEnv (Some scanFile) (Some scanFile)
           (lit "k3x9z") (initialServer 1700000000000) afterUpload
           (postTranslate noteEnv (Some scanFile) (lit "k3x9z") afterUpload).1
           (lit "1700000000000k3x9z") (lit "1700000000000k3x9z")
           (lit "scan.pdf") (lit "scan.pdf") 1 1
           [scannedText] [lit "A note"]
           [lit "[Translation failed: FetchError: network down]"] [[]]);
    vm_compute; reflexivity.
Defined.

(** ** The markdown clean-up *)

Lemma sublist_rev {A : Type} (l1 l2 : list A) :
  l1 `sublist_of` l2 -> rev l1 `sublist_of` rev l2.
Proof.
  induction 1 as [|x l1 l2 _ IH|x l1 l2 _ IH]; simpl.
  - constructor.
  - by apply sublist_app.
  - by apply sublist_inserts_r.
Qed.

Lemma trimStart_sublist (s : jsstring) : trimStart s `sublist_of` s.
Proof.
  induction s as [|c s IH]; simpl; [constructor|].
  destruct (is_ws c); [by constructor|reflexivity].
Qed.

Lemma trim_sublist (s : jsstring) : trim s `sublist_of` s.
Proof.
  unfold trim, trimEnd. etransitivity; [|apply trimStart_sublist].
  rewrite <- (rev_involutive (trimStart s)) at 2.
  apply sublist_rev, trimStart_sublist.
Qed.

Lemma stripHeadings_sublist (s : jsstring) :
  forall mode, stripHeadings mode s `sublist_of` s.
Proof.
  induction s as [|c s IH]; intros mode; simpl; [constructor|].
  destruct mode as [| | |afterLT]; repeat case_match;
    by (constructor; apply IH).
Qed.

Lemma stripBold_sublist_both (s : jsstring) :
  stripBold s `sublist_of` s /\ forall c, stripBold (c :: s) `sublist_of` c :: s.
Proof.
  induction s as [|c' s [IH1 IH2]].
  - split; [constructor|]. intros c. reflexivity.
  - split; [apply IH2|]. intros c.
    change (stripBold (c :: c' :: s)) with
      (if ((c =? 42) && (c' =? 42))%N then stripBold s else c :: stripBold (c' :: s)).
    destruct ((c =? 42) && (c' =? 42))%N.
    + by do 2 constructor.
    + constructor. apply IH2.
Qed.

Lemma stripBold_sublist (s : jsstring) : stripBold s `sublist_of` s.
Proof. apply stripBold_sublist_both. Qed.

Lemma stripChar_sublist (x : N) (s : jsstring) : stripChar x s `sublist_of` s.
Proof.
  unfold stripChar. induction s as [|c s IH]; simpl; [constructor|].
  destruct (negb (c =? x)%N); by constructor.
Qed.

Lemma stripChar_gone (x : N) (s : jsstring) : Forall (fun c => c <> x) (stripChar x s).
Proof.
  unfold stripChar. apply List.Forall_forall. intros c Hc.
  apply List.filter_In in Hc as [_ Hc]. apply negb_true_iff in Hc.
  by apply N.eqb_neq.
Qed.

Lemma spanUntil_app (stop : N) (s run rest : jsstring) :
  spanUntil stop s = (run, rest) -> s = run ++ rest.
Proof.
  revert run rest. induction s as [|c s IH]; intros run rest; simpl.
  - by intros [= <- <-].
  - destruct (c =? stop)%N.
    + by intros [= <- <-].
    + destruct (spanUntil stop s) as [run' rest'] eqn:E.
      intros [= <- <-]. simpl. by rewrite (IH run' rest' eq_refl).
Qed.

(** A link, taken apart: the label between the brackets and the target
    between the parentheses. *)
Lemma matchLink_parts (s label rest : jsstring) :
  matchLink s = Some (label, rest) ->
  exists target, s = 91%N :: label ++ 93%N :: 40%N :: target ++ 41%N :: rest.
Proof.
  unfold matchLink.
  destruct s as [|c s1]; [discriminate|].
  destruct c as [|p]; [discriminate|].
  destruct (decide (p = 91%positive)) as [->|Hne].
  2:{ do 7 (destruct p as [p|p|]; try discriminate); congruence. }
  destruct (spanUntil 93 s1) as [run1 rest1] eqn:E1.
  apply spanUntil_app in E1.
  destruct run1 as [|r1 run1]; [discriminate|].
  destruct rest1 as [|a rest1]; [discriminate|].
  destruct a as [|a]; [discriminate|].
  destruct (decide (a = 93%positive)) as [->|Hne].
  2:{ do 7 (destruct a as [a|a|]; try discriminate); congruence. }
  destruct rest1 as [|b s2]; [discriminate|].
  destruct b as [|b]; [discriminate|].
  destruct (decide (b = 40%positive)) as [->|Hne].
  2:{ do 6 (destruct b as [b|b|]; try discriminate); congruence. }
  destruct (spanUntil 41 s2) as [run2 rest2] eqn:E2.
  apply spanUntil_app in E2.
  destruct run2 as [|r2 run2]; [discriminate|].
  destruct rest2 as [|d s3]; [discriminate|].
  destruct d as [|d]; [discriminate|].
  destruct (decide (d = 41%positive)) as [->|Hne].
  2:{ do 6 (destruct d as [d|d|]; try discriminate); congruence. }
  intros [= <- <-]. exists (r2 :: run2). by rewrite E1, E2.
Qed.

Lemma stripLinksFrom_sublist (fuel : nat) :
  forall s, stripLinksFrom fuel s `sublist_of` s.
Proof.
  induction fuel as [|fuel IH]; intros s; [reflexivity|].
  destruct s as [|c s]; [reflexivity|].
  change (stripLinksFrom (S fuel) (c :: s)) with
    (match matchLink (c :: s) with
     | Some (label, rest) => label ++ stripLinksFrom fuel rest
     | None => c :: stripLinksFrom fuel s
     end).
  destruct (matchLink (c :: s)) as [[label rest]|] eqn:E.
  - apply matchLink_parts in E as [target ->].
    constructor. apply sublist_app; [reflexivity|].
    do 2 constructor. apply sublist_inserts_l. constructor. apply IH.
  - constructor. apply IH.
Qed.

Lemma cleanMarkdown_sublist (pageText : jsstring) :
  cleanMarkdown pageText `sublist_of` pageText.
Proof.
  unfold cleanMarkdown, stripLinks.
  etransitivity; [apply trim_sublist|].
  etransitivity; [apply stripChar_sublist|].
  etransitivity; [apply stripLinksFrom_sublist|].
  etransitivity; [apply stripChar_sublist|].
  etransitivity; [apply stripBold_sublist|].
  apply stripHeadings_sublist.
Qed.

(** Trimming a trimmed text changes nothing. *)
Lemma trimStart_head (s : jsstring) :
  match trimStart s with [] => True | c :: _ => is_ws c = false end.
Proof.
  induction s as [|c s IH]; simpl; [done|]. by destruct (is_ws c) eqn:E.
Qed.

Lemma trimStart_id (s : jsstring) :
  match s with [] => True | c :: _ => is_ws c = false end -> trimStart s = s.
Proof. destruct s as [|c s]; [done|]. simpl. by intros ->. Qed.

Lemma trimStart_snoc (s : jsstring) (c : N) :
  is_ws c = false -> exists t, trimStart (s ++ [c]) = t ++ [c].
Proof.
  intros Hc. induction s as [|x s [t IH]]; simpl.
  - rewrite Hc. by exists [].
  - destruct (is_ws x); [by exists t|]. by exists (x :: s).
Qed.

Lemma trim_idempotent (s : jsstring) : trim (trim s) = trim s.
Proof.
  unfold trim at 2 3. unfold trimEnd.
  pose proof (trimStart_head s) as Hhead.
  pose proof (trimStart_head (rev (trimStart s))) as Hlast.
  destruct (trimStart s) as [|c t] eqn:Et; [reflexivity|].
  assert (match rev (trimStart (rev (c :: t))) with
          | [] => True | x :: _ => is_ws x = false end) as Hhead'.
  { simpl rev at 2. destruct (trimStart_snoc (rev t) c Hhead) as [u ->].
    by rewrite rev_app_distr. }
  unfold trim, trimEnd. rewrite (trimStart_id _ Hhead'), rev_involutive.
  by rewrite (trimStart_id _ Hlast).
Qed.

Lemma Forall_of_sublist {A : Type} (P : A -> Prop) (l1 l2 : list A) :
  l1 `sublist_of` l2 -> Forall P l2 -> Forall P l1.
Proof.
  induction 1 as [|x l1 l2 _ IH|x l1 l2 _ IH]; intros H.
  - constructor.
  - inversion H; subst. constructor; [done|by apply IH].
  - inversion H; subst. by apply IH.
Qed.

(** X7. The clean-up only deletes characters: the cleaned text is a
    subsequence of the page's text (so it is never longer); it holds no
    asterisk and no backtick; and it neither starts nor ends with white
    space. *)
Theorem cleanMarkdown_only_deletes (pageText : jsstring) :
  cleanMarkdown pageText `sublist_of` pageText /\
  (List.length (cleanMarkdown pageText) <= List.length pageText)%nat /\
  Forall (fun c => c <> 42%N /\ c <> 96%N) (cleanMarkdown pageText) /\
  trim (cleanMarkdown pageText) = cleanMarkdown pageText.
Proof.
  split; [apply cleanMarkdown_sublist|].
  split; [apply sublist_length, cleanMarkdown_sublist|].
  split; [|apply trim_idempotent].
  unfold cleanMarkdown, stripLinks.
  set (a := stripChar 42 (stripBold (stripHeadings LineStart pageText))).
  apply (Forall_of_sublist _ _ _ (trim_sublist _)).
  apply Forall_and. split.
  - apply (Forall_of_sublist _ _ _ (stripChar_sublist 96 _)).
    apply (Forall_of_sublist _ _ _ (stripLinksFrom_sublist _ a)).
    apply stripChar_gone.
  - apply stripChar_gone.
Qed.

Lemma stripHeadings_plain (s : jsstring) :
  Forall (fun c => c <> 35%N) s ->
  stripHeadings LineStart s = s /\ stripHeadings Inside s = s.
Proof.
  induction 1 as [|c s Hc _ [IH1 IH2]]; [by split|].
  apply N.eqb_neq in Hc. simpl. rewrite Hc.
  destruct (isLineTerminator c); by rewrite ?IH1, ?IH2.
Qed.

Lemma stripBold_plain (s : jsstring) :
  Forall (fun c => c <> 42%N) s -> stripBold s = s.
Proof.
  assert (forall s, Forall (fun c => c <> 42%N) s ->
                    stripBold s = s /\ forall c, c <> 42%N -> stripBold (c :: s) = c :: s)
    as H; [|intros Hs; by apply H].
  clear s. induction 1 as [|c' s Hc' _ [IH1 IH2]].
  - by split.
  - split; [by apply IH2|]. intros c Hc.
    change (stripBold (c :: c' :: s)) with
      (if ((c =? 42) && (c' =? 42))%N then stripBold s else c :: stripBold (c' :: s)).
    apply N.eqb_neq in Hc. rewrite Hc. cbn [andb]. by rewrite (IH2 c' Hc').
Qed.

Lemma stripChar_plain (x : N) (s : jsstring) :
  Forall (fun c => c <> x) s -> stripChar x s = s.
Proof.
  unfold stripChar. induction 1 as [|c s Hc _ IH]; simpl; [reflexivity|].
  apply N.eqb_neq in Hc. by rewrite Hc, IH.
Qed.

Lemma stripLinksFrom_plain (fuel : nat) (s : jsstring) :
  Forall (fun c => c <> 91%N) s -> stripLinksFrom fuel s = s.
Proof.
  revert s. induction fuel as [|fuel IH]; intros s Hs; [reflexivity|].
  destruct Hs as [|c s Hc Hs]; [reflexivity|].
  change (stripLinksFrom (S fuel) (c :: s)) with
    (match matchLink (c :: s) with
     | Some (label, rest) => label ++ stripLinksFrom fuel rest
     | None => c :: stripLinksFrom fuel s
     end).
  destruct (matchLink (c :: s)) as [[label rest]|] eqn:E.
  - apply matchLink_parts in E as [target E]. congruence.
  - by rewrite IH.
Qed.

(** X8. A text that holds no hash, asterisk, opening bracket or backtick is
    sent to the translator as it is, trimmed: on such a text the clean-up is
    [trim]. *)
Theorem cleanMarkdown_plain (pageText : jsstring) (Hplain : plainText pageText) :
  cleanMarkdown pageText = trim pageText.
Proof.
  unfold plainText in Hplain. unfold cleanMarkdown, stripLinks.
  assert (Forall (fun c => c <> 35%N) pageText) as H35
    by (eapply Forall_impl; [exact Hplain|]; intros c; simpl; tauto).
  assert (Forall (fun c => c <> 42%N) pageText) as H42
    by (eapply Forall_impl; [exact Hplain|]; intros c; simpl; tauto).
  assert (Forall (fun c => c <> 91%N) pageText) as H91
    by (eapply Forall_impl; [exact Hplain|]; intros c; simpl; tauto).
  assert (Forall (fun c => c <> 96%N) pageText) as H96
    by (eapply Forall_impl; [exact Hplain|]; intros c; simpl; tauto).
  rewrite (proj1 (stripHeadings_plain pageText H35)).
  rewrite (stripBold_plain pageText H42), (stripChar_plain 42 pageText H42).
  rewrite (stripLinksFrom_plain _ pageText H91).
  by rewrite (stripChar_plain 96 pageText H96).
Qed.

Lemma cleanMarkdown_plain_witness :
  cleanMarkdown (lit "  Good morning, how are you?  ") = trim (lit "  Good morning, how are you?  ").
Proof.
  apply cleanMarkdown_plain. unfold plainText.
  apply List.Forall_forall. intros c Hc. vm_compute in Hc.
  repeat (destruct Hc as [<-|Hc]; [repeat split; discriminate|]). destruct Hc.
Defined.

(* ------------------------------------------------------------------------ *)
(** * Further properties of the reflow overlay *)

(** ** Lines step down the page *)

Lemma rounded_binary64 (x : Q) : rounded (binary64 x).
Proof. apply binary64_idempotent. Qed.

(** Under a rounded cursor, the cursor one line down is not above it. *)
Lemma line_down_le (y : Q) : rounded y -> binary64 (y - lineHeight) <= y.
Proof.
  intros Hy. unfold rounded in Hy. rewrite <- Hy at 2.
  apply binary64_mono. pose proof lineHeight_pos. lra.
Qed.

Lemma half_line_down_le (y : Q) : rounded y -> binary64 (y - halfLine) <= y.
Proof.
  intros Hy. unfold rounded in Hy. rewrite <- Hy at 2.
  apply binary64_mono. pose proof halfLine_pos. lra.
Qed.

Lemma stepsDown_weaken (ds : list DrawText) (y z y' : Q) :
  y <= z -> stepsDown y ds y' -> stepsDown z ds y'.
Proof.
  destruct ds as [|d ds]; simpl; intros Hyz H.
  - lra.
  - destruct H as (Hd & Hr & Hrest). split; [lra|]. by split.
Qed.

Lemma stepsDown_app (ds1 ds2 : list DrawText) (y y1 y2 : Q) :
  stepsDown y ds1 y1 -> stepsDown y1 ds2 y2 -> stepsDown y (ds1 ++ ds2) y2.
Proof.
  revert y. induction ds1 as [|d ds1 IH]; simpl; intros y H1 H2.
  - by apply (stepsDown_weaken ds2 y1 y).
  - destruct H1 as (Hd & Hr & H1). split; [exact Hd|]. split; [exact Hr|]. by apply IH.
Qed.

Lemma stepsDown_end (ds : list DrawText) (y y' z : Q) :
  z <= y' -> stepsDown y ds y' -> stepsDown y ds z.
Proof.
  revert y. induction ds as [|d ds IH]; simpl; intros y Hz H.
  - lra.
  - destruct H as (Hd & Hr & H). split; [exact Hd|]. split; [exact Hr|]. by apply IH.
Qed.

Lemma stepsDown_descending (ds : list DrawText) (y y' : Q) :
  stepsDown y ds y' ->
  Forall (fun d => d_y d <= y /\ rounded (d_y d)) ds /\ descending ds.
Proof.
  revert y. induction ds as [|d ds IH]; simpl; intros y H; [by split|].
  destruct H as (Hd & Hr & H). destruct (IH _ H) as [Hall Hdesc].
  pose proof (line_down_le (d_y d) Hr) as Hdown. split.
  - constructor; [by split|].
    eapply Forall_impl; [exact Hall|]. simpl. intros x [Hx Hrx]. split; [lra|exact Hrx].
  - destruct ds as [|d2 ds]; [done|]. split; [|exact Hdesc].
    inversion Hall as [|? ? [Hd2 _] _]; subst. exact Hd2.
Qed.

Lemma wrapWords_stepsDown (font : Font) (maxWidth : Q) (words : list jsstring) :
  forall (line : jsstring) (y : Q) (ops : list DrawText),
    rounded y ->
    exists outcome new y',
      wrapWords font maxWidth words line y ops = (outcome, ops ++ new) /\
      rounded y' /\ stepsDown y new y' /\
      (forall line' y1, outcome = Returned (line', y1) -> y1 = y').
Proof.
  induction words as [|word rest IH]; intros line y ops Hy.
  - exists (Returned (line, y)), [], y. rewrite app_nil_r. split; [reflexivity|].
    split; [exact Hy|]. split; [simpl; lra|]. by intros line' y1 [= _ <-].
  - assert (forall e : JsError, exists outcome new y',
               (@Thrown (jsstring * Q) e, ops) = (outcome, ops ++ new) /\
               rounded y' /\ stepsDown y new y' /\
               (forall line' y1, outcome = Returned (line', y1) -> y1 = y')) as Hthrown.
    { intros e. exists (Thrown e), [], y. rewrite app_nil_r. split; [reflexivity|].
      split; [exact Hy|]. split; [simpl; lra|]. intros line' y1 H. discriminate H. }
    rewrite wrapWords_cons. cbv zeta.
    destruct (widthOfTextAtSize font _ fontSize) as [textWidth|e]; [|apply Hthrown].
    destruct (Qle_bool textWidth maxWidth); [by apply IH|].
    destruct (truthy line).
    + destruct (encodeText font line) as [[]|e]; [|apply Hthrown].
      pose proof (rounded_binary64 (y - lineHeight)) as Hy2.
      destruct (Qltb (binary64 (y - lineHeight)) breakLevel).
      * exists (Returned (word, binary64 (y - lineHeight))), [drawLine line y],
          (binary64 (y - lineHeight)).
        split; [reflexivity|]. split; [exact Hy2|].
        split; [simpl; split; [lra|split; [exact Hy|lra]]|].
        by intros line' y1 [= _ <-].
      * destruct (IH word (binary64 (y - lineHeight)) (ops ++ [drawLine line y]) Hy2)
          as (outcome & new & y' & Hrun & Hy' & Hsteps & Hout).
        exists outcome, (drawLine line y :: new), y'.
        rewrite Hrun, <- app_assoc. split; [reflexivity|]. split; [exact Hy'|].
        split; [|exact Hout]. simpl. split; [lra|]. by split.
    + destruct (Qltb y breakLevel); [|by apply IH].
      exists (Returned (word, y)), [], y. rewrite app_nil_r. split; [reflexivity|].
      split; [exact Hy|]. split; [simpl; lra|]. by intros line' y1 [= _ <-].
Qed.

Lemma layoutParagraphs_stepsDown (font : Font) (maxWidth : Q) (paragraphs : list jsstring) :
  forall (y : Q) (ops : list DrawText),
    rounded y ->
    exists outcome new y',
      layoutParagraphs font maxWidth paragraphs y ops = (outcome, ops ++ new) /\
      stepsDown y new y'.
Proof.
  induction paragraphs as [|paragraph rest IH]; intros y ops Hy.
  - exists (Returned tt), [], y. rewrite app_nil_r. split; [reflexivity|]. simpl. lra.
  - rewrite layoutParagraphs_cons.
    destruct (wrapWords_stepsDown font maxWidth (wordsOfParagraph paragraph) [] y ops Hy)
      as (outcome1 & new1 & y' & -> & Hy' & Hsteps1 & Hout).
    destruct outcome1 as [[line y1]|e]; [|by exists (Thrown e), new1, y'].
    rewrite (Hout line y1 eq_refl). clear Hout y1.
    pose proof (line_down_le y' Hy') as Hdown.
    pose proof (half_line_down_le y' Hy') as Hhalf.
    destruct (truthy line && Qle_bool margin y').
    + destruct (encodeText font line) as [[]|e]; [|by exists (Thrown e), new1, y'].
      assert (stepsDown y (new1 ++ [drawLine line y'])
                (binary64 (binary64 (y' - lineHeight) - halfLine))) as Hsteps2.
      { apply (stepsDown_app _ _ _ y'); [exact Hsteps1|]. simpl.
        split; [lra|]. split; [exact Hy'|].
        apply half_line_down_le, rounded_binary64. }
      destruct (Qltb (binary64 (binary64 (y' - lineHeight) - halfLine)) margin).
      * eexists (Returned tt), (new1 ++ [drawLine line y']), _. rewrite app_assoc.
        split; [reflexivity|exact Hsteps2].
      * destruct (IH (binary64 (binary64 (y' - lineHeight) - halfLine))
                    ((ops ++ new1) ++ [drawLine line y']) (rounded_binary64 _))
          as (outcome & new & y2 & -> & Hsteps).
        exists outcome, ((new1 ++ [drawLine line y']) ++ new), y2. rewrite !app_assoc.
        split; [reflexivity|].
        apply (stepsDown_app _ _ _ _ _ Hsteps2 Hsteps).
    + assert (stepsDown y new1 (binary64 (y' - halfLine))) as Hsteps2
        by (apply (stepsDown_end _ _ y'); [lra|exact Hsteps1]).
      destruct (Qltb (binary64 (y' - halfLine)) margin).
      * by eexists (Returned tt), new1, _.
      * destruct (IH (binary64 (y' - halfLine)) (ops ++ new1) (rounded_binary64 _))
          as (outcome & new & y2 & -> & Hsteps).
        exists outcome, (new1 ++ new), y2. rewrite app_assoc. split; [reflexivity|].
        apply (stepsDown_app _ _ _ _ _ Hsteps2 Hsteps).
Qed.

Lemma overlayPage_stepsDown (font : Font) (page : SourcePage) (entry : option jsstring) :
  exists y',
    stepsDown (binary64 (height page - margin)) (overlayPage font page entry []).2 y'.
Proof.
  unfold overlayPage. destruct (falsy _).
  - exists (binary64 (height page - margin)). simpl. lra.
  - destruct (layoutParagraphs_stepsDown font (binary64 (width page - binary64 (margin * 2)))
                (splitBlank false [] match entry with Some t => t | None => [] end)
                (binary64 (height page - margin)) [] (rounded_binary64 _))
      as (outcome & new & y' & -> & Hsteps).
    by exists y'.
Qed.

(** X9. The lines of a page are drawn from the top down, at the positions
    the binary64 arithmetic of the cursor gives: no line is drawn above
    [height - margin], each line is drawn at or below the position one line
    height under the line before it, [y - lineHeight] rounded to binary64,
    and that position is never above the line before it, so lines never go
    back up, on any page and for any text and font, whether the overlay ends
    or throws. *)
Theorem overlay_lines_step_down (font : Font) (page : SourcePage)
    (entry : option jsstring) :
  Forall (fun d => d_y d <= binary64 (height page - margin) /\
                   binary64 (d_y d - lineHeight) <= d_y d)
    (overlayPage font page entry []).2 /\
  descending (overlayPage font page entry []).2.
Proof.
  destruct (overlayPage_stepsDown font page entry) as [y' H].
  destruct (stepsDown_descending _ _ y' H) as [Hall Hdesc].
  split; [|exact Hdesc].
  eapply Forall_impl; [exact Hall|]. simpl. intros d [Hd Hr].
  split; [exact Hd|]. by apply line_down_le.
Qed.

(** ** Lines hold the words of the text, in order *)

Lemma join_snoc (sep : jsstring) (g : list jsstring) (w : jsstring) :
  join sep (g ++ [w]) = match g with [] => w | _ :: _ => join sep g ++ sep ++ w end.
Proof.
  induction g as [|p g IH]; [reflexivity|].
  change (join sep ((p :: g) ++ [w])) with
    (match g ++ [w] with [] => p | _ :: _ => p ++ sep ++ join sep (g ++ [w]) end).
  rewrite IH. destruct g as [|q g]; [reflexivity|].
  change (join sep (p :: q :: g)) with (p ++ sep ++ join sep (q :: g)).
  simpl app at 1. by rewrite <- !app_assoc.
Qed.

Lemma truthy_join (sep : jsstring) (g : list jsstring) :
  Forall (fun w => w <> []) g ->
  truthy (join sep g) = match g with [] => false | _ :: _ => true end.
Proof.
  intros Hg. destruct Hg as [|p g Hp Hg]; [reflexivity|].
  destruct p as [|c p]; [done|]. by destruct g.
Qed.

(** Once the cursor is under the break level, the paragraph loop ends. *)
Lemma below_break_stops (y : Q) :
  y < breakLevel -> binary64 (binary64 (y - lineHeight) - halfLine) < margin.
Proof.
  intros Hy.
  apply (Qle_lt_trans _ (binary64 (binary64 (breakLevel - lineHeight) - halfLine))).
  - apply binary64_mono.
    assert (binary64 (y - lineHeight) <= binary64 (breakLevel - lineHeight))
      by (apply binary64_mono; lra).
    lra.
  - vm_compute. reflexivity.
Qed.

Lemma below_margin_stops (y : Q) : y < margin -> binary64 (y - halfLine) < margin.
Proof.
  intros Hy. apply (Qle_lt_trans _ (binary64 (margin - halfLine))).
  - apply binary64_mono. lra.
  - vm_compute. reflexivity.
Qed.

(** The word loop, with the words of each line made explicit: [g] holds the
    words of the current line. The lines drawn and the current line together
    are the words read so far, in order; when the loop stops early, the
    cursor is under the break level. *)
Lemma wrapWords_words (font : Font) (maxWidth : Q) (words : list jsstring) :
  forall (g : list jsstring) (y : Q) (ops : list DrawText),
    Forall (fun w => w <> []) words ->
    Forall (fun w => w <> []) g ->
    exists outcome groups new,
      wrapWords font maxWidth words (join (lit " ") g) y ops = (outcome, ops ++ new) /\
      List.map d_text new = List.map (join (lit " ")) groups /\
      Forall (fun group => group <> []) groups /\
      match outcome with
      | Thrown _ => exists dropped, g ++ words = concat groups ++ dropped
      | Returned (line', y') =>
          exists g' rest,
            line' = join (lit " ") g' /\
            Forall (fun w => w <> []) g' /\
            g ++ words = concat groups ++ g' ++ rest /\
            (rest = [] \/ (y' < breakLevel /\ g' <> []))
      end.
Proof.
  induction words as [|word rest0 IH]; intros g y ops Hwords Hg.
  - exists (Returned (join (lit " ") g, y)), [], []. rewrite !app_nil_r.
    split; [reflexivity|]. split; [reflexivity|]. split; [constructor|].
    exists g, []. rewrite app_nil_r. simpl. by repeat split; auto.
  - inversion Hwords as [|? ? Hword Hrest0]; subst.
    assert (Forall (fun w => w <> []) (g ++ [word])) as Hg1
      by (apply Forall_app; split; [done|by constructor]).
    assert (Forall (fun w => w <> []) [word]) as Hg2 by (by constructor).
    assert ((if truthy (join (lit " ") g) then join (lit " ") g ++ lit " " ++ word
             else word) = join (lit " ") (g ++ [word])) as Htest.
    { rewrite join_snoc, (truthy_join _ g Hg). by destruct g. }
    assert (forall e : JsError, exists outcome groups new,
               (@Thrown (jsstring * Q) e, ops) = (outcome, ops ++ new) /\
               List.map d_text new = List.map (join (lit " ")) groups /\
               Forall (fun group : list jsstring => group <> []) groups /\
               match outcome with
               | Thrown _ => exists dropped, g ++ word :: rest0 = concat groups ++ dropped
               | Returned (line', y') =>
                   exists g' rest,
                     line' = join (lit " ") g' /\
                     Forall (fun w => w <> []) g' /\
                     g ++ word :: rest0 = concat groups ++ g' ++ rest /\
                     (rest = [] \/ (y' < breakLevel /\ g' <> []))
               end) as Hthrown.
    { intros e. exists (Thrown e), [], []. rewrite app_nil_r.
      split; [reflexivity|]. split; [reflexivity|]. split; [constructor|].
      by exists (g ++ word :: rest0). }
    rewrite wrapWords_cons. cbv zeta. rewrite Htest.
    destruct (widthOfTextAtSize font _ fontSize) as [textWidth|e]; [|apply Hthrown].
    destruct (Qle_bool textWidth maxWidth).
    + destruct (IH (g ++ [word]) y ops Hrest0 Hg1)
        as (outcome & groups & new & Hrun & Htexts & Hgroups & Hsplit).
      exists outcome, groups, new. rewrite Hrun.
      split; [reflexivity|]. split; [exact Htexts|]. split; [exact Hgroups|].
      rewrite <- app_assoc in Hsplit. exact Hsplit.
    + rewrite (truthy_join _ g Hg). destruct g as [|p g].
      * destruct (Qltb y breakLevel) eqn:Ebreak.
        -- exists (Returned (word, y)), [], []. rewrite app_nil_r.
           split; [reflexivity|]. split; [reflexivity|]. split; [constructor|].
           exists [word], rest0.
           split; [reflexivity|]. split; [exact Hg2|]. split; [reflexivity|].
           right. split; [by apply Qltb_lt|done].
        -- destruct (IH [word] y ops Hrest0 Hg2)
             as (outcome & groups & new & Hrun & Htexts & Hgroups & Hsplit).
           exists outcome, groups, new.
           change (join (lit " ") [word]) with word in Hrun. rewrite Hrun.
           split; [reflexivity|]. split; [exact Htexts|]. split; [exact Hgroups|].
           exact Hsplit.
      * destruct (encodeText font (join (lit " ") (p :: g))) as [[]|e]; [|apply Hthrown].
        destruct (Qltb (binary64 (y - lineHeight)) breakLevel) eqn:Ebreak.
        -- exists (Returned (word, binary64 (y - lineHeight))), [p :: g],
             [drawLine (join (lit " ") (p :: g)) y].
           split; [reflexivity|]. split; [reflexivity|].
           split; [by repeat constructor|].
           exists [word], rest0.
           split; [reflexivity|]. split; [exact Hg2|].
           split; [simpl; by rewrite app_nil_r|].
           right. split; [by apply Qltb_lt|done].
        -- destruct (IH [word] (binary64 (y - lineHeight))
                       (ops ++ [drawLine (join (lit " ") (p :: g)) y]) Hrest0 Hg2)
             as (outcome & groups & new & Hrun & Htexts & Hgroups & Hsplit).
           exists outcome, ((p :: g) :: groups),
             (drawLine (join (lit " ") (p :: g)) y :: new).
           change (join (lit " ") [word]) with word in Hrun.
           rewrite Hrun, <- app_assoc.
           split; [reflexivity|]. split; [simpl; by rewrite Htexts|].
           split; [by constructor|].
           destruct outcome as [[line' y']|e'].
           ++ destruct Hsplit as (g' & rest & Hline & Hg' & Hsplit & Hend).
              exists g', rest. split; [exact Hline|]. split; [exact Hg'|].
              split; [|exact Hend].
              simpl. f_equal. rewrite <- app_assoc. f_equal. exact Hsplit.
           ++ destruct Hsplit as (dropped & Hsplit). exists dropped.
              simpl. f_equal. rewrite <- app_assoc. f_equal. exact Hsplit.
Qed.

(** The paragraph loop, with the words of each line made explicit: the lines
    drawn are groups of consecutive words, and only a tail of the words is
    left out. *)
Lemma layoutParagraphs_words (font : Font) (maxWidth : Q) (paragraphs : list jsstring) :
  forall (y : Q) (ops : list DrawText),
  exists outcome groups dropped new,
    layoutParagraphs font maxWidth paragraphs y ops = (outcome, ops ++ new) /\
    List.map d_text new = List.map (join (lit " ")) groups /\
    Forall (fun group => group <> []) groups /\
    concat (List.map wordsOfParagraph paragraphs) = concat groups ++ dropped.
Proof.
  induction paragraphs as [|paragraph others IH]; intros y ops.
  - exists (Returned tt), [], [], []. rewrite app_nil_r. by repeat split.
  - assert (Forall (fun w => w <> []) (wordsOfParagraph paragraph)) as Hwords.
    { apply List.Forall_forall. intros w Hw.
      by destruct (wordsOfParagraph_words paragraph w Hw). }
    destruct (wrapWords_words font maxWidth (wordsOfParagraph paragraph) [] y ops
                Hwords (List.Forall_nil _))
      as (outcome1 & groups1 & new1 & Hrun & Htexts1 & Hgroups1 & Hsplit).
    change (join (lit " ") []) with (@nil N) in Hrun.
    change ([] ++ wordsOfParagraph paragraph) with (wordsOfParagraph paragraph) in Hsplit.
    rewrite layoutParagraphs_cons, Hrun.
    change (concat (List.map wordsOfParagraph (paragraph :: others)))
      with (wordsOfParagraph paragraph ++ concat (List.map wordsOfParagraph others)).
    destruct outcome1 as [[line y1]|e].
    2:{ destruct Hsplit as (dropped & ->).
        exists (Thrown e), groups1, (dropped ++ concat (List.map wordsOfParagraph others)),
          new1.
        split; [reflexivity|]. split; [exact Htexts1|]. split; [exact Hgroups1|].
        by rewrite <- app_assoc. }
    destruct Hsplit as (g' & rest & -> & Hg' & -> & Hend).
    rewrite (truthy_join _ g' Hg').
    destruct (match g' with [] => false | _ :: _ => true end && Qle_bool margin y1)
      eqn:Elast.
    + apply andb_true_iff in Elast as [Eg' Ey1].
      assert (g' <> []) as Hne by (intros ->; discriminate Eg').
      destruct (encodeText font (join (lit " ") g')) as [[]|e].
      2:{ exists (Thrown e), groups1,
            (g' ++ rest ++ concat (List.map wordsOfParagraph others)), new1.
          split; [reflexivity|]. split; [exact Htexts1|]. split; [exact Hgroups1|].
          by rewrite <- !app_assoc. }
      assert (List.map d_text (new1 ++ [drawLine (join (lit " ") g') y1])
              = List.map (join (lit " ")) (groups1 ++ [g'])) as Htexts2
        by (rewrite !List.map_app, Htexts1; reflexivity).
      assert (Forall (fun group : list jsstring => group <> []) (groups1 ++ [g']))
        as Hgroups2 by (apply Forall_app; split; [done|by constructor]).
      destruct (Qltb (binary64 (binary64 (y1 - lineHeight) - halfLine)) margin) eqn:Estop.
      * exists (Returned tt), (groups1 ++ [g']),
          (rest ++ concat (List.map wordsOfParagraph others)),
          (new1 ++ [drawLine (join (lit " ") g') y1]).
        rewrite app_assoc. split; [reflexivity|]. split; [exact Htexts2|].
        split; [exact Hgroups2|].
        rewrite concat_app. simpl. by rewrite app_nil_r, <- !app_assoc.
      * apply Qltb_ge in Estop.
        assert (rest = []) as ->.
        { destruct Hend as [->|[Hlow _]]; [done|].
          pose proof (below_break_stops y1 Hlow). lra. }
        destruct (IH (binary64 (binary64 (y1 - lineHeight) - halfLine))
                    ((ops ++ new1) ++ [drawLine (join (lit " ") g') y1]))
          as (outcome & groups & dropped & new & -> & Htexts & Hgroups & Hothers).
        exists outcome, ((groups1 ++ [g']) ++ groups), dropped,
          ((new1 ++ [drawLine (join (lit " ") g') y1]) ++ new).
        rewrite !app_assoc. split; [reflexivity|].
        split; [by rewrite (List.map_app d_text (new1 ++ _) new), Htexts2, Htexts,
                          <- List.map_app|].
        split; [by apply Forall_app|].
        rewrite Hothers, !concat_app. simpl. by rewrite !app_nil_r, <- !app_assoc.
    + destruct (Qltb (binary64 (y1 - halfLine)) margin) eqn:Estop.
      * exists (Returned tt), groups1,
          (g' ++ rest ++ concat (List.map wordsOfParagraph others)), new1.
        split; [reflexivity|]. split; [exact Htexts1|]. split; [exact Hgroups1|].
        by rewrite <- !app_assoc.
      * apply Qltb_ge in Estop.
        assert (g' = []) as ->.
        { destruct g' as [|w g']; [done|]. simpl in Elast.
          assert (y1 < margin) as Hlow.
          { apply Qnot_le_lt. intros Hle. apply Qle_bool_iff in Hle. congruence. }
          pose proof (below_margin_stops y1 Hlow). lra. }
        assert (rest = []) as -> by (destruct Hend as [->|[_ Hne]]; done).
        destruct (IH (binary64 (y1 - halfLine)) (ops ++ new1))
          as (outcome & groups & dropped & new & -> & Htexts & Hgroups & Hothers).
        exists outcome, (groups1 ++ groups), dropped, (new1 ++ new).
        rewrite app_assoc. split; [reflexivity|].
        split; [by rewrite !List.map_app, Htexts1, Htexts|].
        split; [by apply Forall_app|].
        rewrite Hothers, concat_app. simpl. by rewrite <- !app_assoc.
Qed.

(** X11. The lines drawn on a page, read from the top, are the words of the
    translated text in reading order, the words of a line joined by single
    spaces: no word is broken, repeated, moved or left out in the middle, and
    no line is empty. Only a tail of the text can be missing, which is what
    happens when the page is full: the text is cut, without notice. *)
Theorem overlay_lines_are_the_words (font : Font) (page : SourcePage) (text : jsstring) :
  exists (groups : list (list jsstring)) (dropped : list jsstring),
    List.map d_text (overlayPage font page (Some text) []).2
      = List.map (join (lit " ")) groups /\
    Forall (fun group => group <> []) groups /\
    textWords text = concat groups ++ dropped.
Proof.
  unfold overlayPage. destruct (falsy text).
  - exists [], (textWords text). by repeat split.
  - destruct (layoutParagraphs_words font (binary64 (width page - binary64 (margin * 2)))
                (splitBlank false [] text) (binary64 (height page - margin)) [])
      as (outcome & groups & dropped & new & -> & Htexts & Hgroups & Hwords).
    by exists groups, dropped.
Qed.

(** ** Texts of white space *)

Lemma splitWs_units (P : N -> Prop) (s : jsstring) :
  forall (insep : bool) (cur : jsstring),
    Forall P cur -> Forall P s -> Forall (Forall P) (splitWs insep cur s).
Proof.
  induction s as [|c s IH]; intros insep cur Hcur Hs; simpl.
  - constructor; [|constructor]. by apply List.Forall_rev.
  - inversion Hs as [|? ? Hc Hs']; subst.
    destruct (is_ws c).
    + destruct insep; [by apply IH|].
      constructor; [by apply List.Forall_rev|]. by apply IH.
    + apply IH; [by constructor|exact Hs'].
Qed.

Lemma splitBlank_units (P : N -> Prop) (s : jsstring) :
  forall (insep : bool) (cur : jsstring),
    Forall P cur -> Forall P s -> Forall (Forall P) (splitBlank insep cur s).
Proof.
  induction s as [|c s IH]; intros insep cur Hcur Hs.
  - constructor; [|constructor]. by apply List.Forall_rev.
  - inversion Hs as [|? ? Hc Hs']; subst.
    assert (Forall (Forall P) (splitBlank false (c :: cur) s)) as Hkeep
      by (apply IH; [by constructor|exact Hs']).
    simpl. destruct (c =? 10)%N; [|exact Hkeep].
    destruct insep; [by apply IH|].
    destruct s as [|c' s']; [exact Hkeep|].
    destruct (c' =? 10)%N; [|exact Hkeep].
    constructor; [by apply List.Forall_rev|]. by apply IH.
Qed.

(** The code units of the words of a text are code units of the text. *)
Lemma textWords_units (P : N -> Prop) (text : jsstring) :
  Forall P text -> Forall (Forall P) (textWords text).
Proof.
  intros Htext. unfold textWords. apply List.Forall_forall. intros w Hw.
  apply List.in_concat in Hw as (ws & Hws & Hw).
  apply List.in_map_iff in Hws as (paragraph & <- & Hparagraph).
  unfold wordsOfParagraph in Hw. apply List.filter_In in Hw as [Hw _].
  pose proof (splitBlank_units P text false [] (List.Forall_nil _) Htext) as Hps.
  rewrite List.Forall_forall in Hps. specialize (Hps paragraph Hparagraph).
  pose proof (splitWs_units P paragraph false [] (List.Forall_nil _) Hps) as Hws.
  rewrite List.Forall_forall in Hws. by apply Hws.
Qed.

Lemma textWords_blank (text : jsstring) :
  Forall (fun c => is_ws c = true) text -> textWords text = [].
Proof.
  intros Hblank. destruct (textWords text) as [|w ws] eqn:E; [reflexivity|].
  exfalso.
  destruct (textWords_words text w) as [Hne Hink]; [rewrite E; by left|].
  pose proof (textWords_units _ text Hblank) as Hws. rewrite E in Hws.
  inversion Hws as [|? ? Hw _]; subst.
  destruct w as [|c w]; [done|].
  inversion Hw; subst. inversion Hink; subst. congruence.
Qed.

(** Paragraphs without words are passed over: nothing is measured or drawn. *)
Lemma layoutParagraphs_no_words (font : Font) (maxWidth : Q) (paragraphs : list jsstring) :
  Forall (fun p => wordsOfParagraph p = []) paragraphs ->
  forall (y : Q) (ops : list DrawText),
    layoutParagraphs font maxWidth paragraphs y ops = (Returned tt, ops).
Proof.
  induction 1 as [|paragraph rest Hp _ IH]; intros y ops; [reflexivity|].
  rewrite layoutParagraphs_cons, Hp.
  change (wrapWords font maxWidth [] [] y ops) with (Returned (@nil N, y), ops).
  change (truthy [] && Qle_bool margin y) with false. cbv iota.
  destruct (Qltb (binary64 (y - halfLine)) margin); [reflexivity|apply IH].
Qed.

(** X12. A translated text that holds nothing but white space (spaces, line
    feeds: a text that is not the empty string, so that the test
    [!translatedText] does not catch it) draws nothing on its page: the
    overlay of the page ends without a call of the font. *)
Theorem overlay_blank_text_draws_nothing (font : Font) (page : SourcePage)
    (text : jsstring)
    (Hblank : Forall (fun c => is_ws c = true) text) :
  overlayPage font page (Some text) [] = (Returned tt, []).
Proof.
  unfold overlayPage. destruct (falsy text); [reflexivity|].
  apply layoutParagraphs_no_words.
  pose proof (textWords_blank text Hblank) as Hwords. unfold textWords in Hwords.
  apply List.concat_nil_Forall in Hwords.
  apply List.Forall_map in Hwords. exact Hwords.
Qed.

Lemma overlay_blank_text_draws_nothing_witness :
  overlayPage sampleFont a4 (Some (lit "  " ++ [10%N; 10%N; 9%N])) [] = (Returned tt, []).
Proof.
  apply (overlay_blank_text_draws_nothing sampleFont a4).
  by repeat constructor.
Defined.

(** ** Texts the font can draw *)

Section Drawable.
Variables (font : Font) (known : N -> Prop).
Hypothesis Hspace : known 32%N.
Hypothesis Hmeasure :
  forall text, Forall known text ->
               exists textWidth, widthOfTextAtSize font text fontSize = Returned textWidth.
Hypothesis Hencode : forall text, Forall known text -> encodeText font text = Returned tt.

Lemma wrapWords_drawable (maxWidth : Q) (words : list jsstring) :
  forall (line : jsstring) (y : Q) (ops : list DrawText),
    Forall (Forall known) words ->
    Forall known line ->
    exists line' y' ops',
      wrapWords font maxWidth words line y ops = (Returned (line', y'), ops') /\
      Forall known line'.
Proof using Hspace Hmeasure Hencode.
  induction words as [|word rest IH]; intros line y ops Hwords Hline.
  - by exists line, y, ops.
  - inversion Hwords as [|? ? Hword Hrest]; subst.
    assert (Forall known (if truthy line then line ++ lit " " ++ word else word))
      as Htest.
    { destruct (truthy line); [|exact Hword].
      apply Forall_app. split; [exact Hline|]. by constructor. }
    rewrite wrapWords_cons. cbv zeta.
    destruct (Hmeasure _ Htest) as [textWidth ->].
    destruct (Qle_bool textWidth maxWidth); [by apply IH|].
    destruct (truthy line).
    + rewrite (Hencode line Hline).
      destruct (Qltb (binary64 (y - lineHeight)) breakLevel); [|by apply IH].
      by eexists word, _, _.
    + destruct (Qltb y breakLevel); [|by apply IH].
      by eexists word, _, _.
Qed.

Lemma layoutParagraphs_drawable (maxWidth : Q) (paragraphs : list jsstring) :
  forall (y : Q) (ops : list DrawText),
    Forall (fun paragraph => Forall (Forall known) (wordsOfParagraph paragraph))
      paragraphs ->
    exists ops', layoutParagraphs font maxWidth paragraphs y ops = (Returned tt, ops').
Proof using Hspace Hmeasure Hencode.
  induction paragraphs as [|paragraph rest IH]; intros y ops Hall.
  - by exists ops.
  - inversion Hall as [|? ? Hwords Hrest]; subst.
    rewrite layoutParagraphs_cons.
    destruct (wrapWords_drawable maxWidth (wordsOfParagraph paragraph) [] y ops
                Hwords (List.Forall_nil _)) as (line & y1 & ops1 & -> & Hline).
    destruct (truthy line && Qle_bool margin y1).
    + rewrite (Hencode line Hline).
      destruct (Qltb _ margin); [by eexists|by apply IH].
    + destruct (Qltb _ margin); [by eexists|by apply IH].
Qed.

Lemma overlayPage_drawable (page : SourcePage) (entry : option jsstring) :
  (forall text, entry = Some text -> Forall known text) ->
  exists ops, overlayPage font page entry [] = (Returned tt, ops).
Proof using Hspace Hmeasure Hencode.
  intros Hentry. destruct entry as [text|]; [|by exists []].
  specialize (Hentry text eq_refl).
  unfold overlayPage. destruct (falsy text); [by exists []|].
  apply layoutParagraphs_drawable. apply List.Forall_forall. intros paragraph Hp.
  apply List.Forall_forall. intros word Hword.
  pose proof (textWords_units known text Hentry) as Hunits.
  rewrite List.Forall_forall in Hunits. apply Hunits.
  unfold textWords. apply List.in_concat.
  exists (wordsOfParagraph paragraph). split; [by apply List.in_map|exact Hword].
Qed.

Lemma addPages_drawable (translatedTexts : list jsstring) (pages : list SourcePage) :
  Forall (Forall known) translatedTexts ->
  forall index, exists document, addPages font translatedTexts index pages = Returned document.
Proof using Hspace Hmeasure Hencode.
  intros Htexts. induction pages as [|page rest IH]; intros index; [by exists []|].
  simpl.
  destruct (overlayPage_drawable page (translatedTexts !! index)) as [ops ->].
  { intros text Hi. rewrite List.Forall_forall in Htexts. apply Htexts.
    apply list_elem_of_In. by apply (list_elem_of_lookup_2 _ index). }
  destruct (IH (S index)) as [out ->]. by eexists.
Qed.
End Drawable.

(** X22. The overlay fails only through the font: when the font measures and
    encodes every text made of the characters it knows, the space among
    them, and the translated texts hold such characters only, the document
    is assembled, with the pages of the original in order, however long the
    texts and whatever the sizes of the pages. *)
Theorem overlay_returns_on_known_characters (font : Font) (known : N -> Prop)
    (sourcePages : list SourcePage) (translatedTexts : list jsstring)
    (Hspace : known 32%N)
    (Hmeasure : forall text, Forall known text ->
                  exists textWidth,
                    widthOfTextAtSize font text fontSize = Returned textWidth)
    (Hencode : forall text, Forall known text -> encodeText font text = Returned tt)
    (Htexts : Forall (Forall known) translatedTexts) :
  exists document,
    assemble font sourcePages translatedTexts = Returned document /\
    List.map copied document = sourcePages.
Proof.
  destruct (addPages_drawable font known Hspace Hmeasure Hencode translatedTexts
              sourcePages Htexts 0) as [document Hdoc].
  exists document. split; [exact Hdoc|]. by apply (assemble_copied font _ translatedTexts).
Qed.

Lemma encodeSample_known (text : jsstring) :
  Forall (fun c => encodable c = true) text -> encodeSample text = Returned tt.
Proof.
  unfold encodeSample. induction 1 as [|c text Hc _ IH]; [reflexivity|].
  simpl. by rewrite Hc.
Qed.

(** Two pages and two texts in Latin letters, the second empty. *)
Lemma overlay_returns_on_known_characters_witness :
  exists document,
    assemble sampleFont [a4; lowSheet] [lit "Hello world"; []] = Returned document /\
    List.map copied document = [a4; lowSheet].
Proof.
  apply (overlay_returns_on_known_characters sampleFont (fun c => encodable c = true)).
  - reflexivity.
  - intros text Htext. simpl. rewrite (encodeSample_known text Htext). by eexists.
  - intros text Htext. exact (encodeSample_known text Htext).
  - by repeat constructor.
Defined.

(** * Further properties of the line reconstructor *)

(** ** Minimum and maximum of a list *)

Lemma minOf_le_init (xs : list Q) : forall a, minOf a xs <= a.
Proof.
  unfold minOf. induction xs as [|x xs IH]; intros a; simpl; [lra|].
  eapply Qle_trans; [apply IH|apply Q.le_min_l].
Qed.

Lemma minOf_le_elem (xs : list Q) : forall a x, In x xs -> minOf a xs <= x.
Proof.
  unfold minOf. induction xs as [|x' xs IH]; intros a x Hx; [by destruct Hx|].
  destruct Hx as [->|Hx]; simpl.
  - eapply Qle_trans; [apply (minOf_le_init xs)|apply Q.le_min_r].
  - by apply IH.
Qed.

Lemma minOf_glb (xs : list Q) :
  forall a b, b <= a -> Forall (fun x => b <= x) xs -> b <= minOf a xs.
Proof.
  unfold minOf. induction xs as [|x xs IH]; intros a b Ha Hxs; [exact Ha|].
  inversion Hxs; subst. simpl. apply IH; [|done]. by apply Q.min_glb.
Qed.

Lemma maxOf_ge_init (xs : list Q) : forall a, a <= maxOf a xs.
Proof.
  unfold maxOf. induction xs as [|x xs IH]; intros a; simpl; [lra|].
  eapply Qle_trans; [apply Q.le_max_l|apply IH].
Qed.

Lemma maxOf_ge_elem (xs : list Q) : forall a x, In x xs -> x <= maxOf a xs.
Proof.
  unfold maxOf. induction xs as [|x' xs IH]; intros a x Hx; [by destruct Hx|].
  destruct Hx as [->|Hx]; simpl.
  - eapply Qle_trans; [apply Q.le_max_r|apply (maxOf_ge_init xs)].
  - by apply IH.
Qed.

(** ** Every line is computed from its words *)

Lemma built_buildLine (w : OCRWord) (ws : list OCRWord) : built (buildLine w ws).
Proof. reflexivity. Qed.

Lemma pushLine_built (lines : list OCRLine) (currentLine : list OCRWord) :
  Forall built lines -> Forall built (pushLine lines currentLine).
Proof.
  intros Hlines. destruct currentLine as [|w ws]; [exact Hlines|].
  apply Forall_app. split; [exact Hlines|].
  constructor; [apply built_buildLine|constructor].
Qed.

Lemma groupWords_built (rest : list OCRWord) :
  forall (prevWord : OCRWord) (currentLine : list OCRWord) (lines : list OCRLine),
    Forall built lines -> Forall built (groupWords prevWord rest currentLine lines).
Proof.
  induction rest as [|word rest IH]; intros prevWord currentLine lines Hlines; simpl.
  - by apply pushLine_built.
  - destruct (Qltb _ _); apply IH; [exact Hlines|by apply pushLine_built].
Qed.

Lemma reconstructLines_built (words : list OCRWord) :
  Forall built (reconstructLines words).
Proof.
  unfold reconstructLines. destruct words as [|w ws]; [constructor|].
  destruct (jsSort _ (w :: ws)) as [|first rest]; [constructor|].
  apply groupWords_built. constructor.
Qed.

Lemma buildLine_inside (w : OCRWord) (ws : list OCRWord) (x : OCRWord) :
  In x (w :: ws) -> inside (w_bbox x) (l_bbox (buildLine w ws)).
Proof.
  intros [<-|Hx]; unfold inside; simpl.
  - split; [apply minOf_le_init|]. split; [apply minOf_le_init|].
    split; apply maxOf_ge_init.
  - split; [apply minOf_le_elem; by apply (List.in_map (fun x => x0 (w_bbox x)))|].
    split; [apply minOf_le_elem; by apply (List.in_map (fun x => y0 (w_bbox x)))|].
    split; [apply maxOf_ge_elem; by apply (List.in_map (fun x => x1 (w_bbox x)))|].
    apply maxOf_ge_elem. by apply (List.in_map (fun x => y1 (w_bbox x))).
Qed.

(** X13. The box recorded for a reconstructed line encloses the box of every
    word of the line, whatever boxes the engine reports (also the all-zero
    box that stands in for a missing one). *)
Theorem line_boxes_enclose_words (words : list OCRWord) :
  Forall (fun l => Forall (fun w => inside (w_bbox w) (l_bbox l)) (l_words l))
    (reconstructLines words).
Proof.
  eapply Forall_impl; [apply reconstructLines_built|].
  intros l Hl. unfold built in Hl.
  destruct (l_words l) as [|w ws] eqn:E; [done|].
  apply List.Forall_forall. intros x Hx. rewrite Hl. by apply buildLine_inside.
Qed.

(** ** Lines come out from the top of the image down *)

(** The top edge of a line is the top edge of its first word, when the words
    of the line are in increasing order of their top edges. *)
Lemma built_top (l : OCRLine) (w : OCRWord) (ws : list OCRWord) :
  built l -> l_words l = w :: ws ->
  Forall (fun x => wy0 w <= wy0 x) ws ->
  y0 (l_bbox l) == wy0 w.
Proof.
  unfold built. intros Hl E Hws. rewrite E in Hl. rewrite Hl. simpl.
  apply Qle_antisym; [apply minOf_le_init|].
  apply minOf_glb; [unfold wy0; lra|].
  apply List.Forall_map. exact Hws.
Qed.

Lemma topsApart_sorted (ls : list OCRLine) :
  Forall built ls ->
  StronglySorted (fun a b => wy0 a <= wy0 b) (concat (List.map l_words ls)) ->
  separated (List.map l_words ls) ->
  topsApart ls.
Proof.
  induction ls as [|l1 ls IH]; intros Hbuilt Hsorted Hsep; [done|].
  destruct ls as [|l2 ls]; [done|].
  inversion Hbuilt as [|? ? Hl1 Hbuilt']; subst.
  inversion Hbuilt' as [|? ? Hl2 _]; subst.
  change (concat (List.map l_words (l1 :: l2 :: ls)))
    with (l_words l1 ++ concat (List.map l_words (l2 :: ls))) in Hsorted.
  apply StronglySorted_app in Hsorted as (Hacross & Hsorted1 & Hsorted').
  destruct Hsep as [(a & b & Ha & Hb & Hgap) Hsep'].
  split; [|by apply IH].
  pose proof Hl1 as Hw1. pose proof Hl2 as Hw2. unfold built in Hw1, Hw2.
  destruct (l_words l1) as [|w1 ws1] eqn:E1; [done|].
  destruct (l_words l2) as [|w2 ws2] eqn:E2; [done|].
  simpl in Hb. injection Hb as <-.
  apply StronglySorted_inv in Hsorted1 as [_ Hfirst1].
  change (concat (List.map l_words (l2 :: ls)))
    with (l_words l2 ++ concat (List.map l_words ls)) in Hsorted'.
  rewrite E2 in Hsorted'.
  apply StronglySorted_app_1_l, StronglySorted_inv in Hsorted' as [_ Hfirst2].
  rewrite (built_top l1 w1 ws1 Hl1 E1 Hfirst1), (built_top l2 w2 ws2 Hl2 E2 Hfirst2).
  assert (wy0 w1 <= wy0 a) as Hw1a.
  { apply last_Some_elem_of, list_elem_of_In in Ha. destruct Ha as [<-|Ha]; [lra|].
    rewrite List.Forall_forall in Hfirst1. by apply Hfirst1. }
  assert (wy0 a <= wy0 w2) as Haw2.
  { apply Hacross; [by apply last_Some_elem_of|].
    simpl. rewrite E2. by left. }
  rewrite Qabs_pos in Hgap by lra. lra.
Qed.

(** X14. The lines come out in reading order, from the top of the image
    down: the top edge of each line's box lies at least the tolerance (4
    pixels) below the top edge of the line before it, so no two lines start
    at the same height and no line is listed above an earlier one. *)
Theorem line_tops_step_down (words : list OCRWord) :
  topsApart (reconstructLines words).
Proof.
  destruct (reconstructLines_shape words) as (Hcat & _ & _ & Hsep).
  apply topsApart_sorted; [apply reconstructLines_built| |exact Hsep].
  rewrite Hcat. apply jsSort_asc_sorted.
Qed.

(** ** The result of a page *)

(** X15. The result of a page is always built (the list of passes is never
    empty), and from one pass only: the text, the confidence and the lines
    all come from the same recognition pass, and no pass was more confident
    than that one. *)
Theorem extractTextFromPdfPage_single_pass (recognize : Variant -> Recognition)
    (metrics : PageMetrics) :
  exists (v : Variant) (r : OCRResult),
    extractTextFromPdfPage recognize metrics = Some r /\
    o_text r = trim (data_text (recognize v)) /\
    o_confidence r = orZero (data_confidence (recognize v)) /\
    o_lines r = reconstructLines (wordsOf (recognize v)) /\
    pageMetrics r = metrics /\
    forall v', orZero (data_confidence (recognize v')) <= o_confidence r.
Proof.
  unfold extractTextFromPdfPage, selectBest, collectResults. simpl.
  destruct (Qle_bool (orZero (data_confidence (recognize adaptive))
                      - orZero (data_confidence (recognize grayscale))) 0) eqn:E.
  - apply Qle_bool_iff in E. exists grayscale. eexists. split; [reflexivity|].
    simpl. repeat split. intros [|]; lra.
  - assert (~ orZero (data_confidence (recognize adaptive))
              - orZero (data_confidence (recognize grayscale)) <= 0) as Hgt
      by (intros Hle; apply Qle_bool_iff in Hle; congruence).
    exists adaptive. eexists. split; [reflexivity|].
    simpl. repeat split. intros [|]; lra.
Qed.

(** * The Tesseract revision of [translatePdf] *)

(** ** One page *)

(** The extraction of a page does not depend on what the job did before: it
    ends as the engine's answers make it end, and adds its calls. *)
Lemma extractTextFromPdfPageWith_trace (engine : Tesseract) (pdfBuffer : Buffer)
    (i : nat) (t : Trace) :
  extractTextFromPdfPageWith engine pdfBuffer i t
  = (pageOutcome engine pdfBuffer i,
     {| requests := requests t;
        workerCalls := workerCalls t ++ pageCalls engine pdfBuffer i |}).
Proof.
  unfold pageOutcome, pageCalls, extractTextFromPdfPageWith, bindW, awaitW, callWorker.
  destruct t as [sent calls]. simpl.
  destruct (renderPage engine pdfBuffer i) as [rendered|e];
    [|by rewrite app_nil_r].
  destruct (recognize engine i grayscale) as [gray|e]; [|reflexivity].
  destruct (recognize engine i adaptive) as [adapt|e]; simpl;
    [|by rewrite <- app_assoc].
  destruct (originalViewport engine pdfBuffer i) as [original|e];
    [|by rewrite <- app_assoc].
  destruct (extractTextFromPdfPage _ _); simpl; by rewrite <- app_assoc.
Qed.

(** The calls of a page are the two passes, in order, or the first of them
    (the pass failed, or the next one), or none (the rendering failed). *)
Lemma pageCalls_started (engine : Tesseract) (pdfBuffer : Buffer) (i : nat) :
  pageCalls engine pdfBuffer i `prefix_of` [Recognize i grayscale; Recognize i adaptive].
Proof.
  unfold pageCalls, extractTextFromPdfPageWith, bindW, awaitW, callWorker. simpl.
  destruct (renderPage engine pdfBuffer i) as [rendered|e];
    [|by exists [Recognize i grayscale; Recognize i adaptive]].
  destruct (recognize engine i grayscale) as [gray|e];
    [|by exists [Recognize i adaptive]].
  destruct (recognize engine i adaptive) as [adapt|e]; simpl; [|by exists []].
  destruct (originalViewport engine pdfBuffer i) as [original|e]; [|by exists []].
  destruct (extractTextFromPdfPage _ _); by exists [].
Qed.

Lemma pageCalls_returned (engine : Tesseract) (pdfBuffer : Buffer) (i : nat)
    (ocrResult : OCRResult) :
  pageOutcome engine pdfBuffer i = Returned ocrResult ->
  pageCalls engine pdfBuffer i = [Recognize i grayscale; Recognize i adaptive].
Proof.
  unfold pageOutcome, pageCalls, extractTextFromPdfPageWith, bindW, awaitW, callWorker.
  simpl.
  destruct (renderPage engine pdfBuffer i) as [rendered|e]; [|discriminate].
  destruct (recognize engine i grayscale) as [gray|e]; [|discriminate].
  destruct (recognize engine i adaptive) as [adapt|e]; simpl; [|discriminate].
  destruct (originalViewport engine pdfBuffer i) as [original|e]; [|discriminate].
  by destruct (extractTextFromPdfPage _ _).
Qed.

Lemma prefix_recognitions (i : nat) (calls : list WorkerCall) :
  calls `prefix_of` [Recognize i grayscale; Recognize i adaptive] ->
  Forall isRecognize calls.
Proof.
  intros [more Hmore].
  destruct calls as [|c1 [|c2 [|c3 calls]]]; simplify_eq/=; by repeat constructor.
Qed.

(** The translation of a page's lines never throws. *)
Lemma translateLines_returns (translator : Endpoint) (ocrResult : OCRResult)
    (sent : list jsstring) :
  exists translated sent',
    translateLines translator ocrResult sent = (Returned translated, sent').
Proof.
  unfold translateLines.
  destruct (truthy (o_text ocrResult) && _); [|by eexists _, _].
  unfold tryCatch.
  destruct (bind _ _ sent) as [[translated|e] sent']; by eexists _, _.
Qed.

(** ** The loop over the pages *)

Lemma recognizePages_step (engine : Tesseract) (translator : Endpoint)
    (pdfBuffer : Buffer) (remaining i : nat) (extractedTexts translatedTexts : list jsstring)
    (t : Trace) :
  recognizePages engine translator pdfBuffer (S remaining) i extractedTexts translatedTexts t
  = match pageOutcome engine pdfBuffer i with
    | Returned ocrResult =>
        match translateLines translator ocrResult (requests t) with
        | (Returned translated, sent) =>
            recognizePages engine translator pdfBuffer remaining (S i)
              (extractedTexts ++ [o_text ocrResult]) (translatedTexts ++ [translated])
              {| requests := sent;
                 workerCalls := workerCalls t ++ pageCalls engine pdfBuffer i |}
        | (Thrown e, sent) =>
            (Thrown e,
             {| requests := sent;
                workerCalls := workerCalls t ++ pageCalls engine pdfBuffer i |})
        end
    | Thrown e =>
        (Thrown e,
         {| requests := requests t;
            workerCalls := workerCalls t ++ pageCalls engine pdfBuffer i |})
    end.
Proof.
  simpl. unfold bindW at 1. rewrite extractTextFromPdfPageWith_trace.
  destruct (pageOutcome engine pdfBuffer i) as [ocrResult|e]; [|reflexivity].
  unfold bindW at 1, liftM. simpl.
  by destruct (translateLines translator ocrResult (requests t)) as [[translated|e] sent].
Qed.

(** The loop only ever asks the worker to recognise. *)
Lemma recognizePages_calls (engine : Tesseract) (translator : Endpoint)
    (pdfBuffer : Buffer) (remaining : nat) :
  forall (i : nat) (extractedTexts translatedTexts : list jsstring) (t : Trace),
  exists calls,
    workerCalls
      (recognizePages engine translator pdfBuffer remaining i
         extractedTexts translatedTexts t).2
    = workerCalls t ++ calls /\
    Forall isRecognize calls.
Proof.
  induction remaining as [|remaining IH]; intros i extractedTexts translatedTexts t.
  - exists []. by rewrite app_nil_r.
  - rewrite recognizePages_step.
    pose proof (prefix_recognitions i _ (pageCalls_started engine pdfBuffer i)) as Hpage.
    destruct (pageOutcome engine pdfBuffer i) as [ocrResult|e];
      [|by exists (pageCalls engine pdfBuffer i)].
    destruct (translateLines_returns translator ocrResult (requests t))
      as (translated & sent & ->).
    destruct (IH (S i) (extractedTexts ++ [o_text ocrResult])
                (translatedTexts ++ [translated])
                {| requests := sent;
                   workerCalls := workerCalls t ++ pageCalls engine pdfBuffer i |})
      as (calls & -> & Hcalls).
    exists (pageCalls engine pdfBuffer i ++ calls). simpl.
    split; [by rewrite app_assoc|by apply Forall_app].
Qed.

(** When every page is read, every page is recognised twice and gets one
    text and one translation. *)
Lemma recognizePages_complete (engine : Tesseract) (translator : Endpoint)
    (pdfBuffer : Buffer) (remaining : nat) :
  forall (i : nat) (extractedTexts translatedTexts : list jsstring) (t : Trace),
    (forall j, (i <= j < i + remaining)%nat ->
               exists ocrResult, pageOutcome engine pdfBuffer j = Returned ocrResult) ->
    exists texts translations t',
      recognizePages engine translator pdfBuffer remaining i
        extractedTexts translatedTexts t
      = (Returned (extractedTexts ++ texts, translatedTexts ++ translations), t') /\
      List.length texts = remaining /\
      List.length translations = remaining /\
      workerCalls t' = workerCalls t ++ recognitionsFrom i remaining.
Proof.
  induction remaining as [|remaining IH];
    intros i extractedTexts translatedTexts t Hpages.
  - exists [], [], t. unfold recognitionsFrom. simpl. by rewrite !app_nil_r.
  - rewrite recognizePages_step.
    destruct (Hpages i ltac:(lia)) as [ocrResult Hpage]. rewrite Hpage.
    rewrite (pageCalls_returned _ _ _ _ Hpage).
    destruct (translateLines_returns translator ocrResult (requests t))
      as (translated & sent & ->).
    destruct (IH (S i) (extractedTexts ++ [o_text ocrResult])
                (translatedTexts ++ [translated])
                {| requests := sent;
                   workerCalls :=
                     workerCalls t ++ [Recognize i grayscale; Recognize i adaptive] |})
      as (texts & translations & t' & -> & Htexts & Htranslations & Hcalls).
    { intros j Hj. apply Hpages. lia. }
    exists (o_text ocrResult :: texts), (translated :: translations), t'.
    rewrite <- !app_assoc. split; [reflexivity|].
    split; [simpl; by rewrite Htexts|]. split; [simpl; by rewrite Htranslations|].
    rewrite Hcalls. simpl. by rewrite <- app_assoc.
Qed.

(** When a page cannot be read, the loop ends there with the page's error. *)
Lemma recognizePages_failure (engine : Tesseract) (translator : Endpoint)
    (pdfBuffer : Buffer) (e : JsError) (before : nat) :
  forall (remaining i : nat) (extractedTexts translatedTexts : list jsstring) (t : Trace),
    (before < remaining)%nat ->
    (forall j, (i <= j < i + before)%nat ->
               exists ocrResult, pageOutcome engine pdfBuffer j = Returned ocrResult) ->
    pageOutcome engine pdfBuffer (i + before) = Thrown e ->
    exists t',
      recognizePages engine translator pdfBuffer remaining i
        extractedTexts translatedTexts t = (Thrown e, t') /\
      workerCalls t'
      = workerCalls t ++ recognitionsFrom i before
        ++ pageCalls engine pdfBuffer (i + before).
Proof.
  induction before as [|before IH];
    intros remaining i extractedTexts translatedTexts t Hlt Hpages Hfail;
    (destruct remaining as [|remaining]; [lia|]); rewrite recognizePages_step.
  - rewrite Nat.add_0_r in Hfail |- *. rewrite Hfail.
    eexists. split; [reflexivity|]. reflexivity.
  - destruct (Hpages i ltac:(lia)) as [ocrResult Hpage]. rewrite Hpage.
    rewrite (pageCalls_returned _ _ _ _ Hpage).
    destruct (translateLines_returns translator ocrResult (requests t))
      as (translated & sent & ->).
    destruct (IH remaining (S i) (extractedTexts ++ [o_text ocrResult])
                (translatedTexts ++ [translated])
                {| requests := sent;
                   workerCalls :=
                     workerCalls t ++ [Recognize i grayscale; Recognize i adaptive] |})
      as (t' & -> & Hcalls).
    { lia. }
    { intros j Hj. apply Hpages. lia. }
    { by rewrite Nat.add_succ_comm. }
    exists t'. split; [reflexivity|].
    rewrite Hcalls. simpl. rewrite <- Nat.add_succ_comm. by rewrite <- !app_assoc.
Qed.

(** ** The worker *)

(** X16. Once the worker is created and configured, it is terminated exactly
    once and as the last thing asked of it, however the job ends: a page
    that cannot be rendered or recognised, a failed translation, a document
    that cannot be loaded for the overlay. Between its configuration and its
    termination the worker is only asked to recognise. *)
Theorem worker_terminated_once (engine : Tesseract) (env : Env) (pdfBuffer : Buffer)
    (t : Trace) (numPages : nat)
    (Hdocument : getDocument engine pdfBuffer = Returned numPages)
    (Hcreated : createWorker engine = Returned tt)
    (Hconfigured : setParameters engine = Returned tt) :
  exists calls,
    workerCalls (translatePdfTesseract engine env pdfBuffer t).2
    = workerCalls t ++ [CreateWorker; SetParameters] ++ calls ++ [Terminate] /\
    Forall isRecognize calls.
Proof.
  unfold translatePdfTesseract, bindW, awaitW, callWorker, tryFinally.
  rewrite Hdocument, Hcreated, Hconfigured. simpl.
  destruct (recognizePages_calls engine (endpoint env) pdfBuffer numPages 0 [] []
              {| requests := requests t;
                 workerCalls := (workerCalls t ++ [CreateWorker]) ++ [SetParameters] |})
    as (calls & Hcalls & Hrecognize).
  exists calls. split; [|exact Hrecognize].
  destruct (recognizePages _ _ _ _ _ _ _ _) as [completion t']. simpl in Hcalls.
  assert (workerCalls t' ++ [Terminate]
          = workerCalls t ++ [CreateWorker; SetParameters] ++ calls ++ [Terminate])
    as Hall by (rewrite Hcalls; by rewrite <- !app_assoc).
  destruct (terminate engine) as [[]|e]; [|exact Hall].
  destruct completion as [texts|e]; [|exact Hall].
  destruct (loadPdf env pdfBuffer) as [sourcePages|e]; [|exact Hall]. simpl.
  by destruct (assemble (font env) sourcePages texts.2).
Qed.

Lemma worker_terminated_once_witness :
  exists calls,
    workerCalls (translatePdfTesseract failingEngine offlineEnv (buffer scanFile)
                   emptyTrace).2
    = workerCalls emptyTrace ++ [CreateWorker; SetParameters] ++ calls ++ [Terminate] /\
    Forall isRecognize calls.
Proof.
  apply (worker_terminated_once failingEngine offlineEnv (buffer scanFile)
           emptyTrace 2); reflexivity.
Defined.

(** X17. When the worker refuses its parameters, the job ends with the
    worker's error and the worker, which was created, is never terminated:
    the configuration is done before the [try] whose [finally] terminates
    the worker. No page is recognised and nothing is sent for translation. *)
Theorem worker_left_running (engine : Tesseract) (env : Env) (pdfBuffer : Buffer)
    (t : Trace) (numPages : nat) (error : JsError)
    (Hdocument : getDocument engine pdfBuffer = Returned numPages)
    (Hcreated : createWorker engine = Returned tt)
    (Hrefused : setParameters engine = Thrown error) :
  translatePdfTesseract engine env pdfBuffer t
  = (Thrown error,
     {| requests := requests t;
        workerCalls := workerCalls t ++ [CreateWorker; SetParameters] |}).
Proof.
  unfold translatePdfTesseract, bindW, awaitW, callWorker.
  rewrite Hdocument, Hcreated, Hrefused. simpl. by rewrite <- app_assoc.
Qed.

Lemma worker_left_running_witness :
  translatePdfTesseract unconfiguredEngine offlineEnv (buffer scanFile) emptyTrace
  = (Thrown (newError (lit "Unknown parameter")),
     {| requests := requests emptyTrace;
        workerCalls := workerCalls emptyTrace ++ [CreateWorker; SetParameters] |}).
Proof.
  apply (worker_left_running unconfiguredEngine offlineEnv (buffer scanFile)
           emptyTrace 2); reflexivity.
Defined.

(** ** How a job ends *)

(** X18. When every page of the document can be rendered and recognised and
    the document loads for the overlay, the loop ends, whatever the
    translation endpoint answers, with one extracted text and one translated
    text per page of the document, and the worker has recognised every page
    twice, the grayscale image before the adaptive one, page after page,
    before it was terminated. The job then ends as the overlay of the
    translated texts ends: it returns the assembled document with the texts
    when the font measures and encodes every line, and throws the error of
    the font otherwise. *)
Theorem tesseract_job_completes (engine : Tesseract) (env : Env) (pdfBuffer : Buffer)
    (t : Trace) (numPages : nat) (sourcePages : list SourcePage)
    (Hdocument : getDocument engine pdfBuffer = Returned numPages)
    (Hcreated : createWorker engine = Returned tt)
    (Hconfigured : setParameters engine = Returned tt)
    (Hpages : forall j, (j < numPages)%nat ->
                        exists ocrResult, pageOutcome engine pdfBuffer j = Returned ocrResult)
    (Hterminated : terminate engine = Returned tt)
    (Hload : loadPdf env pdfBuffer = Returned sourcePages) :
  exists texts translations t',
    List.length texts = numPages /\
    List.length translations = numPages /\
    translatePdfTesseract engine env pdfBuffer t
    = (match assemble (font env) sourcePages translations with
       | Returned document =>
           Returned {| translatedPdf := document;
                       extractedTexts := texts;
                       translatedTexts := translations |}
       | Thrown overlayError => Thrown overlayError
       end, t') /\
    workerCalls t'
    = workerCalls t ++ [CreateWorker; SetParameters]
      ++ recognitionsFrom 0 numPages ++ [Terminate].
Proof.
  unfold translatePdfTesseract, bindW, awaitW, callWorker, tryFinally.
  rewrite Hdocument, Hcreated, Hconfigured, Hterminated. simpl.
  destruct (recognizePages_complete engine (endpoint env) pdfBuffer numPages 0 [] []
              {| requests := requests t;
                 workerCalls := (workerCalls t ++ [CreateWorker]) ++ [SetParameters] |})
    as (texts & translations & t' & -> & Htexts & Htranslations & Hcalls).
  { intros j Hj. apply Hpages. lia. }
  rewrite Hload. simpl.
  exists texts, translations,
    {| requests := requests t'; workerCalls := workerCalls t' ++ [Terminate] |}.
  split; [exact Htexts|]. split; [exact Htranslations|].
  split; [by destruct (assemble (font env) sourcePages translations)|].
  simpl. rewrite Hcalls. simpl. by rewrite <- !app_assoc.
Qed.

Lemma tesseract_job_completes_witness :
  exists texts translations t',
    List.length texts = 2%nat /\
    List.length translations = 2%nat /\
    translatePdfTesseract twoPageEngine offlineEnv (buffer scanFile) emptyTrace
    = (match assemble (font offlineEnv) [a4] translations with
       | Returned document =>
           Returned {| translatedPdf := document;
                       extractedTexts := texts;
                       translatedTexts := translations |}
       | Thrown overlayError => Thrown overlayError
       end, t') /\
    workerCalls t'
    = workerCalls emptyTrace ++ [CreateWorker; SetParameters]
      ++ recognitionsFrom 0 2 ++ [Terminate].
Proof.
  apply (tesseract_job_completes twoPageEngine offlineEnv (buffer scanFile)
           emptyTrace 2 [a4]); try reflexivity.
  intros j Hj. eexists. reflexivity.
Defined.

(** X19. A page that cannot be rendered or recognised ends the job: the job
    throws the page's error (or the error of the worker's termination, when
    that fails too), no document is produced, and no later page is
    recognised: the worker has recognised the pages before the failing one,
    has been asked at most the two passes of the failing page, and has then
    been terminated. A failed translation, by contrast, is kept within its
    page. *)
Theorem recognition_failure_ends_job (engine : Tesseract) (env : Env)
    (pdfBuffer : Buffer) (t : Trace) (numPages i : nat) (error : JsError)
    (Hdocument : getDocument engine pdfBuffer = Returned numPages)
    (Hcreated : createWorker engine = Returned tt)
    (Hconfigured : setParameters engine = Returned tt)
    (Hpage : (i < numPages)%nat)
    (Hbefore : forall j, (j < i)%nat ->
                         exists ocrResult, pageOutcome engine pdfBuffer j = Returned ocrResult)
    (Hfails : pageOutcome engine pdfBuffer i = Thrown error) :
  exists started,
    (translatePdfTesseract engine env pdfBuffer t).1
    = Thrown (match terminate engine with Returned _ => error | Thrown e => e end) /\
    workerCalls (translatePdfTesseract engine env pdfBuffer t).2
    = workerCalls t ++ [CreateWorker; SetParameters]
      ++ recognitionsFrom 0 i ++ started ++ [Terminate] /\
    started `prefix_of` [Recognize i grayscale; Recognize i adaptive].
Proof.
  exists (pageCalls engine pdfBuffer i).
  unfold translatePdfTesseract, bindW, awaitW, callWorker, tryFinally.
  rewrite Hdocument, Hcreated, Hconfigured. simpl.
  destruct (recognizePages_failure engine (endpoint env) pdfBuffer error i numPages 0 [] []
              {| requests := requests t;
                 workerCalls := (workerCalls t ++ [CreateWorker]) ++ [SetParameters] |})
    as (t' & -> & Hcalls); [exact Hpage| |exact Hfails|].
  { intros j Hj. apply Hbefore. lia. }
  simpl in Hcalls.
  split; [by destruct (terminate engine) as [[]|e]|].
  split; [|apply pageCalls_started].
  destruct (terminate engine) as [[]|e]; simpl;
    rewrite Hcalls; by rewrite <- !app_assoc.
Qed.

Lemma recognition_failure_ends_job_witness :
  exists started,
    (translatePdfTesseract failingEngine offlineEnv (buffer scanFile) emptyTrace).1
    = Thrown (match terminate failingEngine with
              | Returned _ => newError (lit "Out of memory")
              | Thrown e => e
              end) /\
    workerCalls (translatePdfTesseract failingEngine offlineEnv (buffer scanFile)
                   emptyTrace).2
    = workerCalls emptyTrace ++ [CreateWorker; SetParameters]
      ++ recognitionsFrom 0 1 ++ started ++ [Terminate] /\
    started `prefix_of` [Recognize 1 grayscale; Recognize 1 adaptive].
Proof.
  apply (recognition_failure_ends_job failingEngine offlineEnv (buffer scanFile)
           emptyTrace 2 1 (newError (lit "Out of memory"))); try reflexivity.
  - lia.
  - intros j Hj. eexists. destruct j as [|j]; [reflexivity|lia].
Defined.

(** ** Pages without word boxes *)

(** X20. What is sent for translation is rebuilt from the word boxes, not
    taken from the text the engine read: when the passes report no word
    boxes, the page gets the empty translation and nothing is asked of the
    translation endpoint, however long the text that was recognised. *)
Theorem page_without_word_boxes (recognizer : Variant -> Recognition)
    (metrics : PageMetrics) (translator : Endpoint) (sent : list jsstring)
    (Hboxes : forall v, wordsOf (recognizer v) = []) :
  exists ocrResult,
    extractTextFromPdfPage recognizer metrics = Some ocrResult /\
    translateLines translator ocrResult sent = (Returned [], sent).
Proof.
  destruct (extractTextFromPdfPage_returns recognizer metrics) as (best & Hbest & ->).
  eexists. split; [reflexivity|].
  assert (exists v, result best = recognizer v) as [v Hv].
  { unfold selectBest, collectResults in Hbest. simpl in Hbest.
    destruct (Qle_bool _ 0); injection Hbest as <-; by eexists. }
  unfold translateLines. simpl. rewrite Hv, Hboxes.
  by destruct (truthy _ && _).
Qed.

Lemma page_without_word_boxes_witness :
  exists ocrResult,
    extractTextFromPdfPage (fun _ => textOnlyPass)
      {| viewportWidth := 3140; viewportHeight := 4443; pdfWidth := 595;
         pdfHeight := 842; scale := 95 # 18 |} = Some ocrResult /\
    translateLines refusing ocrResult [] = (Returned [], []).
Proof.
  apply (page_without_word_boxes (fun _ => textOnlyPass)). reflexivity.
Defined.

(** * The preview of the client *)

Lemma postTranslate_lengths (env : Env) (file : option UploadedFile)
    (random : jsstring) (srv srv' : Server)
    (jobId filename : jsstring) (n : nat) (ex tr : list jsstring) :
  postTranslate env file random srv = (srv', JobCreated jobId filename n ex tr) ->
  n = List.length ex /\ List.length tr = List.length ex.
Proof.
  unfold postTranslate. intros Hpost.
  destruct file as [f|]; [|discriminate].
  destruct (negb _); [discriminate|].
  destruct (translatePdf env (buffer f) []) as [[result|e] s] eqn:Hpdf; [|discriminate].
  injection Hpost as <- <- <- <- <- <-.
  destruct (translatePdf_loop env (buffer f) [] s result Hpdf)
    as (ocrResult & sourcePages & Hocr & Hload & Hloop & Hdoc).
  destruct (translatePages_returns (endpoint env) (pages ocrResult) [] [] [])
    as (ts & s' & Hrun & Hlen).
  rewrite Hrun in Hloop. simpl in Hloop. injection Hloop as Hex Htr _.
  split; [reflexivity|]. by rewrite <- Hex, <- Htr, List.length_map.
Qed.

Lemma clickPage_in_range (pageCount currentPage : Z) (button : PageButton) :
  (0 <= currentPage < pageCount)%Z ->
  (0 <= clickPage pageCount currentPage button < pageCount)%Z.
Proof. destruct button; simpl; lia. Qed.

Lemma clicks_in_range (pageCount : Z) (clicks : list PageButton) :
  forall currentPage,
    (0 <= currentPage < pageCount)%Z ->
    (0 <= List.fold_left (clickPage pageCount) clicks currentPage < pageCount)%Z.
Proof.
  induction clicks as [|button clicks IH]; intros currentPage Hrange; [exact Hrange|].
  simpl. by apply IH, clickPage_in_range.
Qed.

(** X21. The preview never leaves the pages of the reply: after a successful
    upload whose reply holds at least one translated text (the condition
    under which the preview is shown), and after any sequence of clicks on
    Previous and Next from the first page, the page shown is one of the
    pages counted in the reply, and both the extracted text and the
    translated text of that page are in the reply. *)
Theorem preview_page_in_range (env : Env) (file : option UploadedFile)
    (random : jsstring) (srv srv' : Server)
    (jobId filename : jsstring) (n : nat) (ex tr : list jsstring)
    (clicks : list PageButton)
    (Hpost : postTranslate env file random srv
             = (srv', JobCreated jobId filename n ex tr))
    (Hpreview : (0 < List.length tr)%nat) :
  (0 <= List.fold_left (clickPage (Z.of_nat n)) clicks 0%Z < Z.of_nat n)%Z /\
  is_Some (textAt ex (List.fold_left (clickPage (Z.of_nat n)) clicks 0%Z)) /\
  is_Some (textAt tr (List.fold_left (clickPage (Z.of_nat n)) clicks 0%Z)).
Proof.
  destruct (postTranslate_lengths _ _ _ _ _ _ _ _ _ _ Hpost) as [Hn Hlen].
  pose proof (clicks_in_range (Z.of_nat n) clicks 0%Z ltac:(lia)) as Hrange.
  split; [exact Hrange|].
  unfold textAt.
  destruct (Z.ltb_spec (List.fold_left (clickPage (Z.of_nat n)) clicks 0%Z) 0); [lia|].
  split; apply lookup_lt_is_Some; lia.
Qed.

Lemma preview_page_in_range_witness :
  (0 <= List.fold_left (clickPage (Z.of_nat 1)) [NextPage; NextPage; PreviousPage] 0%Z
   < Z.of_nat 1)%Z /\
  is_Some (textAt [scannedText]
             (List.fold_left (clickPage (Z.of_nat 1))
                [NextPage; NextPage; PreviousPage] 0%Z)) /\
  is_Some (textAt [lit "[Translation failed: FetchError: network down]"]
             (List.fold_left (clickPage (Z.of_nat 1))
                [NextPage; NextPage; PreviousPage] 0%Z)).
Proof.
  apply (preview_page_in_range offlineEnv (Some scanFile) (lit "k3x9z")
           (initialServer 1700000000000) afterUpload (lit "1700000000000k3x9z")
           (lit "scan.pdf")).
  - vm_compute. reflexivity.
  - simpl. lia.
Defined.
